(** * shipshape: the ConfigMap reload controller and its leader elector

    A shallow embedding of [controller/src/controller.py],
    [controller/src/kube.py] and [controller/src/leader.py], and the
    properties of the reconciliation engine that the specification states.

    Conventions of the embedding.
    - A Python [str] is a Rocq [string] holding its UTF-8 bytes.  The code
      only compares strings, measures ASCII-only strings and rewrites bytes
      outside an ASCII class, so the byte view and the code-point view agree
      on every function modelled here.
    - A dict that the code reads by key is a [gmap]; [_pending_restarts],
      which the code also iterates, is an insertion-ordered association list.
    - [time.monotonic()] readings are integers counting nanoseconds, and
      sums and differences of times are exact, where the code computes them
      on [float]: rounding is not modelled, and statements are made only
      where it does not bear on them (bounds, orderings that rounding keeps,
      what is done on either side of a decision); the range of [float] is
      modelled (see [_schedule_retry]).
    - Exceptions are values: a computation returns [Ret] or [Raise] together
      with the state it reached.
    - Logging calls are dropped; of the metrics only the counter of restarts
      dropped at shutdown is kept, no modelled function reads the others. *)

From Stdlib Require Import ZArith NArith Ascii String List Lia.
From stdpp Require Import base option list gmap strings fin_maps.

Local Open Scope Z_scope.

(* ================================================================== *)
(** * Part I: definitions                                              *)
(* ================================================================== *)

(** ** Python string primitives used by the controller *)

Module Py.

  (** [s[:n]] *)
Definition take (n : nat) (s : string) : string := String.substring 0 n s.

  (** [s.lstrip(chars)], [s.rstrip(chars)] and [s.strip(chars)], the set of
      characters given as a predicate. *)
Fixpoint lstrip (p : ascii → bool) (s : string) : string :=
    match s with
    | EmptyString => EmptyString
    | String c r => if p c then lstrip p r else s
    end.

Fixpoint rstrip (p : ascii → bool) (s : string) : string :=
    match s with
    | EmptyString => EmptyString
    | String c r =>
        match rstrip p r with
        | EmptyString => if p c then EmptyString else String c EmptyString
        | r' => String c r'
        end
    end.

Definition strip (p : ascii → bool) (s : string) : string :=
    rstrip p (lstrip p s).

  (** The characters [str.strip()] removes when called without argument,
      in the ASCII range. *)
Definition is_space (c : ascii) : bool :=
    let n := N_of_ascii c in
    ((9 <=? n) && (n <=? 13) || (28 <=? n) && (n <=? 32))%N.

  (** [s.split(sep)] for a one-character separator. *)
Fixpoint split_go (sep : ascii) (cur : string) (s : string) : list string :=
    match s with
    | EmptyString => [String.rev cur]
    | String c r =>
        if Ascii.eqb c sep then String.rev cur :: split_go sep EmptyString r
        else split_go sep (String c cur) r
    end.
Definition split (sep : ascii) (s : string) : list string :=
    split_go sep EmptyString s.

  (** [s.partition(sep)] for a one-character separator: the text before the
      first separator, whether one was found, and the text after it. *)
Fixpoint partition (sep : ascii) (s : string) : string * bool * string :=
    match s with
    | EmptyString => (EmptyString, false, EmptyString)
    | String c r =>
        if Ascii.eqb c sep then (EmptyString, true, r)
        else let '(a, found, b) := partition sep r in (String c a, found, b)
    end.

  (** [bool(s)] of a string, and of an optional one ([None] is falsy). *)
Definition truthy (s : string) : bool :=
    match s with EmptyString => false | _ => true end.
Definition truthy_opt (o : option string) : bool :=
    match o with Some s => truthy s | None => false end.

End Py.

(** ** SHA-256 (FIPS 180-4), as [hashlib.sha256(...).hexdigest()] computes it *)

Module Sha256.
Local Open Scope N_scope.

Definition mask32 : N := 4294967295.
Definition add32 (a b : N) : N := N.land (a + b) mask32.
Definition rotr (n x : N) : N :=
    N.lor (N.shiftr x n) (N.land (N.shiftl x (32 - n)) mask32).
Definition not32 (x : N) : N := N.lxor x mask32.

Definition ch (x y z : N) := N.lxor (N.land x y) (N.land (not32 x) z).
Definition maj (x y z : N) :=
    N.lxor (N.lxor (N.land x y) (N.land x z)) (N.land y z).
Definition bsig0 x := N.lxor (N.lxor (rotr 2 x) (rotr 13 x)) (rotr 22 x).
Definition bsig1 x := N.lxor (N.lxor (rotr 6 x) (rotr 11 x)) (rotr 25 x).
Definition ssig0 x := N.lxor (N.lxor (rotr 7 x) (rotr 18 x)) (N.shiftr x 3).
Definition ssig1 x := N.lxor (N.lxor (rotr 17 x) (rotr 19 x)) (N.shiftr x 10).

  (** The integer cube root, bit by bit from the top. *)
Fixpoint iroot3_go (bits : nat) (n r : N) : N :=
    match bits with
    | O => r
    | S b =>
        let c := r + 2 ^ N.of_nat b in
        iroot3_go b n (if c * c * c <=? n then c else r)
    end.

  (** The first 32 bits of the fractional part of a cube root and of a
      square root: FIPS 180-4 defines the round constants and the initial
      hash value this way, over the first primes. *)
Definition frac_cbrt32 (p : N) : N := iroot3_go 40 (p * 2 ^ 96) 0 mod 2 ^ 32.
Definition frac_sqrt32 (p : N) : N := N.sqrt (p * 2 ^ 64) mod 2 ^ 32.

Fixpoint sieve (fuel : nat) (cands : list N) : list N :=
    match fuel, cands with
    | S f, p :: r => p :: sieve f (filter (fun n => negb (n mod p =? 0)) r)
    | _, _ => []
    end.
Definition primes (count : nat) : list N :=
    Eval vm_compute in firstn count (sieve 64 (map N.of_nat (seq 2 310))).

Definition K : list N := Eval vm_compute in map frac_cbrt32 (primes 64).

Record hstate := H8 { ha : N; hb : N; hc : N; hd : N;
                        he : N; hf : N; hg : N; hh : N }.

Definition H0 : hstate :=
    Eval vm_compute in
      match map frac_sqrt32 (primes 8) with
      | [a; b; c; d; e; f; g; h] => H8 a b c d e f g h
      | _ => H8 0 0 0 0 0 0 0 0
      end.

  (** The big-endian 32-bit words of a block of bytes. *)
Fixpoint words (bs : list N) : list N :=
    match bs with
    | b0 :: b1 :: b2 :: b3 :: r =>
        (N.shiftl b0 24 + N.shiftl b1 16 + N.shiftl b2 8 + b3) :: words r
    | _ => []
    end.

  (** The message schedule, latest word first while it is extended. *)
Fixpoint extend (n : nat) (rw : list N) : list N :=
    match n with
    | O => rw
    | S n' =>
        let w2 := nth 1 rw 0 in
        let w7 := nth 6 rw 0 in
        let w15 := nth 14 rw 0 in
        let w16 := nth 15 rw 0 in
        extend n' (add32 (add32 (ssig1 w2) w7) (add32 (ssig0 w15) w16) :: rw)
    end.

Definition schedule (block : list N) : list N :=
    rev (extend 48 (rev (words block))).

Definition round (s : hstate) (kw : N * N) : hstate :=
    let '(k, w) := kw in
    let t1 := add32 (add32 (add32 (hh s) (bsig1 (he s)))
                           (add32 (ch (he s) (hf s) (hg s)) k)) w in
    let t2 := add32 (bsig0 (ha s)) (maj (ha s) (hb s) (hc s)) in
    H8 (add32 t1 t2) (ha s) (hb s) (hc s) (add32 (hd s) t1) (he s) (hf s) (hg s).

Definition compress (s : hstate) (block : list N) : hstate :=
    let r := fold_left round (combine K (schedule block)) s in
    H8 (add32 (ha s) (ha r)) (add32 (hb s) (hb r))
       (add32 (hc s) (hc r)) (add32 (hd s) (hd r))
       (add32 (he s) (he r)) (add32 (hf s) (hf r))
       (add32 (hg s) (hg r)) (add32 (hh s) (hh r)).

Definition be_bytes (n : nat) (x : N) : list N :=
    map (fun i => N.land (N.shiftr x (8 * N.of_nat i)) 255) (rev (seq 0 n)).

Definition pad (msg : list N) : list N :=
    let len := N.of_nat (List.length msg) in
    let zeros := N.to_nat ((119 - len mod 64) mod 64) in
    msg ++ 128 :: repeat 0 zeros ++ be_bytes 8 (8 * len).

Fixpoint blocks (fuel : nat) (s : hstate) (bs : list N) : hstate :=
    match fuel with
    | O => s
    | S f =>
        match bs with
        | [] => s
        | _ => blocks f (compress s (firstn 64 bs)) (skipn 64 bs)
        end
    end.

Definition digest (msg : list N) : hstate :=
    let p := pad msg in blocks (List.length p) H0 p.

Definition hexdigit (n : N) : ascii :=
    ascii_of_N (if n <? 10 then 48 + n else 87 + n).

Definition hex8 (w : N) (tl : string) : string :=
    String (hexdigit (N.land (N.shiftr w 28) 15))
   (String (hexdigit (N.land (N.shiftr w 24) 15))
   (String (hexdigit (N.land (N.shiftr w 20) 15))
   (String (hexdigit (N.land (N.shiftr w 16) 15))
   (String (hexdigit (N.land (N.shiftr w 12) 15))
   (String (hexdigit (N.land (N.shiftr w 8) 15))
   (String (hexdigit (N.land (N.shiftr w 4) 15))
   (String (hexdigit (N.land w 15)) tl))))))).

  (** [sha256(s.encode("utf-8")).hexdigest()] *)
Definition hexdigest (s : string) : string :=
    let d := digest (map N_of_ascii (String.list_ascii_of_string s)) in
    hex8 (ha d) (hex8 (hb d) (hex8 (hc d) (hex8 (hd d)
      (hex8 (he d) (hex8 (hf d) (hex8 (hg d) (hex8 (hh d) EmptyString))))))).
End Sha256.

(** ** The hash annotation key ([ConfigMapReloader._config_hash_annotation_key]) *)

(** The class [[A-Za-z0-9_.-]] of the regular expression. *)
Definition name_char (c : ascii) : bool :=
  let n := N_of_ascii c in
  ((65 <=? n) && (n <=? 90) || (97 <=? n) && (n <=? 122) ||
   (48 <=? n) && (n <=? 57) || (n =? 95) || (n =? 46) || (n =? 45))%N.

(** [re.sub(r"[^A-Za-z0-9_.-]+", "-", s)]: every maximal run of characters
    outside the class becomes one dash.  [in_run] tells that the previous
    character was outside the class. *)
Fixpoint re_sub_go (in_run : bool) (s : string) : string :=
  match s with
  | EmptyString => EmptyString
  | String c r =>
      if name_char c then String c (re_sub_go false r)
      else if in_run then re_sub_go true r
      else String "-" (re_sub_go true r)
  end.
Definition re_sub (s : string) : string := re_sub_go false s.

(** The characters of ["-."]. *)
Definition dash_dot (c : ascii) : bool :=
  (Ascii.eqb c "-" || Ascii.eqb c ".")%bool.

(** Lines 379-381: the normalised ConfigMap name. *)
Definition normalized_name (config_map_name : string) : string :=
  let n := Py.strip dash_dot (re_sub config_map_name) in
  if Py.truthy n then n else "configmap".

(** Line 385: the first ten characters of the name's digest. *)
Definition hash_suffix (config_map_name : string) : string :=
  Py.take 10 (Sha256.hexdigest config_map_name).

(** Lines 386-389: the part of the normalised name that is kept when the
    annotation name would be too long. *)
Definition trimmed_name (config_map_name : string) : string :=
  let suffix := hash_suffix config_map_name in
  let max_prefix_length :=
    63 - Z.of_nat (String.length "config-hash--")
       - Z.of_nat (String.length suffix) in
  let trimmed :=
    Py.rstrip dash_dot
      (Py.take (Z.to_nat (Z.max 1 max_prefix_length))
               (normalized_name config_map_name)) in
  if Py.truthy trimmed then trimmed else "configmap".

(** Lines 383-390: the local name of the annotation. *)
Definition config_hash_annotation_name (config_map_name : string) : string :=
  let annotation_name := "config-hash-" +:+ normalized_name config_map_name in
  if (63 <? Z.of_nat (String.length annotation_name)) then
    "config-hash-" +:+ trimmed_name config_map_name
                   +:+ "-" +:+ hash_suffix config_map_name
  else annotation_name.

Definition _config_hash_annotation_key
    (rollout_annotation_key config_map_name : string) : string :=
  let '(prefix, separator, _) := Py.partition "/" rollout_annotation_key in
  let annotation_name := config_hash_annotation_name config_map_name in
  if separator then prefix +:+ "/" +:+ annotation_name else annotation_name.

(** The slug as the specification words it: every character outside the
    class replaced by a dash, then the dashes and dots at both ends removed. *)
Fixpoint replace_each (s : string) : string :=
  match s with
  | EmptyString => EmptyString
  | String c r => String (if name_char c then c else "-"%char) (replace_each r)
  end.
Definition slug_spec (m : string) : string :=
  Py.strip dash_dot (replace_each m).

(** No two neighbouring characters of [s] are outside the class. *)
Fixpoint no_adjacent_outside (s : string) : bool :=
  match s with
  | String c ((String d _) as r) =>
      (name_char c || name_char d) && no_adjacent_outside r
  | _ => true
  end.


(** ** The rollout timestamp ([utc_now_rfc3339]) *)

(** [str.replace(old, new)] for a non-empty [old]: the occurrences are taken
    from the left and do not overlap.  [skip] counts the characters of a
    matched occurrence that are still to be passed over. *)
Fixpoint replace_go (old new : string) (skip : nat) (s : string) : string :=
  match s with
  | EmptyString => EmptyString
  | String c r =>
      match skip with
      | S k => replace_go old new k r
      | O =>
          if String.prefix old s
          then new +:+ replace_go old new (String.length old - 1) r
          else String c (replace_go old new 0 r)
      end
  end.
Definition str_replace (old new s : string) : string := replace_go old new 0 s.

(** An aware [datetime] in UTC, by its fields. *)
Record datetime := DateTime {
  year : Z; month : Z; day : Z;
  hour : Z; minute : Z; second : Z; microsecond : Z
}.

Definition valid_datetime (t : datetime) : Prop :=
  1 ≤ year t ≤ 9999 ∧ 1 ≤ month t ≤ 12 ∧ 1 ≤ day t ≤ 31 ∧
  0 ≤ hour t ≤ 23 ∧ 0 ≤ minute t ≤ 59 ∧ 0 ≤ second t ≤ 59 ∧
  0 ≤ microsecond t ≤ 999999.

(** Lexicographic comparison, continued by [k] on a tie. *)
Definition lex (c k : comparison) : comparison :=
  match c with Eq => k | Lt => Lt | Gt => Gt end.

(** The order of two UTC datetimes: field by field, as CPython compares. *)
Definition datetime_compare (a b : datetime) : comparison :=
  lex (year a ?= year b) (lex (month a ?= month b) (lex (day a ?= day b)
    (lex (hour a ?= hour b) (lex (minute a ?= minute b)
      (lex (second a ?= second b) (microsecond a ?= microsecond b)))))).

(** The same order on the whole seconds only. *)
Definition second_compare (a b : datetime) : comparison :=
  lex (year a ?= year b) (lex (month a ?= month b) (lex (day a ?= day b)
    (lex (hour a ?= hour b) (lex (minute a ?= minute b)
      (second a ?= second b))))).

(** [dt.replace(microsecond=0)] *)
Definition replace_microsecond (t : datetime) (us : Z) : datetime :=
  DateTime (year t) (month t) (day t) (hour t) (minute t) (second t) us.

Definition digit_char (d : Z) : ascii := ascii_of_N (48 + Z.to_N d).

(** [w] decimal digits of [n], zero padded, in front of [tl]
    (the [%04d], [%02d] and [%06d] of the ISO format). *)
Fixpoint pad_dec (w : nat) (n : Z) (tl : string) : string :=
  match w with
  | O => tl
  | S w' => pad_dec w' (n / 10) (String (digit_char (n mod 10)) tl)
  end.

(** [dt.isoformat()] of an aware UTC datetime: the fraction is printed only
    when the microseconds are not zero. *)
Definition isoformat (t : datetime) : string :=
  pad_dec 4 (year t) (String "-" (pad_dec 2 (month t) (String "-"
    (pad_dec 2 (day t) (String "T" (pad_dec 2 (hour t) (String ":"
      (pad_dec 2 (minute t) (String ":" (pad_dec 2 (second t)
        ((if microsecond t =? 0 then EmptyString
          else String "." (pad_dec 6 (microsecond t) EmptyString))
         +:+ "+00:00"))))))))))).

(** [utc_now_rfc3339()], the clock reading [datetime.now(UTC)] given as [now]. *)
Definition utc_now_rfc3339 (now : datetime) : string :=
  str_replace "+00:00" "Z" (isoformat (replace_microsecond now 0)).

(** ** Exceptions *)

(** What the modelled code can raise: the client's [ApiException] with its
    HTTP status, the [OverflowError] of a float conversion, and any other
    exception (a transport failure, say). *)
Inductive exn :=
| ApiException (status : Z)
| OverflowError
| OtherError.

Inductive res (A : Type) :=
| Ret (a : A)
| Raise (e : exn).
Arguments Ret {A} a.
Arguments Raise {A} e.

(** ** The leader elector ([leader.py]) *)

Module Leader.

(** UTC instants are counted in microseconds, the resolution of [datetime];
    the elector only subtracts and compares them. *)
Definition instant := Z.

Record V1LeaseSpec := LeaseSpec {
  holder_identity : option string;
  lease_duration_seconds : option Z;
  acquire_time : option instant;
  renew_time : option instant
}.

(** The Lease object; its name and namespace are fixed by the elector. *)
Record V1Lease := Lease { spec : option V1LeaseSpec }.

Record LeaseLeaderElector := Elector {
  identity : string;
  self_lease_duration_seconds : Z;
  renew_deadline_seconds : Z;
  retry_period_seconds : Z;
  _is_leader : bool
}.

(** The checks of [__init__]. *)
Definition valid_elector (e : LeaseLeaderElector) : Prop :=
  1 ≤ self_lease_duration_seconds e ∧ 1 ≤ renew_deadline_seconds e ∧
  0 ≤ retry_period_seconds e ∧
  renew_deadline_seconds e < self_lease_duration_seconds e ∧
  retry_period_seconds e < renew_deadline_seconds e.

(** The coordination API.  The cluster holds the Lease or not; [fault] is
    what the call raises, if anything, before it reaches the object. *)
Definition cluster := option V1Lease.

Definition read_namespaced_lease (fault : option exn) (c : cluster)
  : res V1Lease :=
  match fault with
  | Some e => Raise e
  | None => match c with Some l => Ret l | None => Raise (ApiException 404) end
  end.

Definition create_namespaced_lease (fault : option exn) (body : V1Lease)
    (c : cluster) : res unit * cluster :=
  match fault with
  | Some e => (Raise e, c)
  | None =>
      match c with
      | Some _ => (Raise (ApiException 409), c)
      | None => (Ret tt, Some body)
      end
  end.

Definition replace_namespaced_lease (fault : option exn) (body : V1Lease)
    (c : cluster) : res unit * cluster :=
  match fault with
  | Some e => (Raise e, c)
  | None =>
      match c with
      | Some _ => (Ret tt, Some body)
      | None => (Raise (ApiException 404), c)
      end
  end.

(** The tail shared by [_create_lease] and [_update_lease]: every
    [ApiException] gives [False], anything else propagates. *)
Definition written (r : res unit * cluster) : res bool * cluster :=
  match r with
  | (Ret _, c) => (Ret true, c)
  | (Raise (ApiException _), c) => (Ret false, c)
  | (Raise e, c) => (Raise e, c)
  end.

Definition _create_lease (self : LeaseLeaderElector) (now : instant)
    (fault : option exn) (c : cluster) : res bool * cluster :=
  let lease :=
    Lease (Some (LeaseSpec (Some (identity self))
                           (Some (self_lease_duration_seconds self))
                           (Some now) (Some now))) in
  written (create_namespaced_lease fault lease c).

Definition _update_lease (self : LeaseLeaderElector) (lease : V1Lease)
    (now : instant) (fault : option exn) (c : cluster) : res bool * cluster :=
  let s := match spec lease with
           | Some s => s
           | None => LeaseSpec None None None None
           end in
  let previous_holder := holder_identity s in
  let acquire :=
    match acquire_time s with
    | None => Some now
    | Some a =>
        if decide (previous_holder = Some (identity self)) then Some a
        else Some now
    end in
  let lease' :=
    Lease (Some (LeaseSpec (Some (identity self))
                           (Some (self_lease_duration_seconds self))
                           acquire (Some now))) in
  written (replace_namespaced_lease fault lease' c).

(** [a or b] on an optional integer: [None] and [0] are falsy. *)
Definition or_else (a : option Z) (b : Z) : Z :=
  match a with
  | Some x => if x =? 0 then b else x
  | None => b
  end.

(** One acquire-or-renew cycle at the UTC instant [now]; [f_read] and
    [f_write] are the faults of its two API calls.  The elapsed time is
    compared in whole microseconds, which is exact for the difference of
    two datetimes; the code compares its [total_seconds()], a [float], with
    the duration.  The two decide alike for durations of at most 2^32
    seconds in size; for any duration below 2^53 seconds a lease that has
    run out in microseconds has run out for the code too. *)
Definition _try_acquire_or_renew (self : LeaseLeaderElector) (now : instant)
    (f_read f_write : option exn) (c : cluster) : res bool * cluster :=
  match read_namespaced_lease f_read c with
  | Raise (ApiException status) =>
      if status =? 404 then _create_lease self now f_write c
      else (Ret false, c)
  | Raise e => (Raise e, c)
  | Ret lease =>
      match spec lease with
      | None => _update_lease self lease now f_write c
      | Some s =>
          let holder := holder_identity s in
          let duration :=
            or_else (lease_duration_seconds s) (self_lease_duration_seconds self) in
          if decide (holder = Some (identity self)) then
            _update_lease self lease now f_write c
          else
            match renew_time s with
            | Some renew =>
                let elapsed := now - renew in
                if elapsed <? duration * 1000000 then (Ret false, c)
                else _update_lease self lease now f_write c
            | None => _update_lease self lease now f_write c
            end
      end
  end.

(** [_release_lease]: whatever is raised is logged and dropped. *)
Definition _release_lease (self : LeaseLeaderElector)
    (f_read f_write : option exn) (c : cluster) : cluster :=
  match read_namespaced_lease f_read c with
  | Ret lease =>
      match spec lease with
      | Some s =>
          if decide (holder_identity s = Some (identity self)) then
            let lease' :=
              Lease (Some (LeaseSpec None (lease_duration_seconds s)
                                     (acquire_time s) (renew_time s))) in
            snd (replace_namespaced_lease f_write lease' c)
          else c
      | None => c
      end
  | Raise _ => c
  end.

(** The end of [run], once the stop event is set: a leader releases the
    Lease and stops leading.  The boolean tells whether
    [on_stopped_leading] was called. *)
Definition run_shutdown (self : LeaseLeaderElector)
    (f_read f_write : option exn) (c : cluster)
  : LeaseLeaderElector * bool * cluster :=
  if _is_leader self then
    (Elector (identity self) (self_lease_duration_seconds self)
             (renew_deadline_seconds self) (retry_period_seconds self) false,
     true, _release_lease self f_read f_write c)
  else (self, false, c).

(** [run], from its loop to its end.  The callbacks are taken to return;
    they are recorded in the order they are called. *)
Inductive Callback := StartedLeading | StoppedLeading.

(** One turn of the loop: the UTC instant of the cycle, the faults of its
    two API calls, the monotonic clock (nanoseconds) read after the cycle,
    and the Lease as other replicas left it since the last turn, if they
    wrote it. *)
Record Cycle := MkCycle {
  utc_now : instant;
  read_fault : option exn;
  write_fault : option exn;
  clock : Z;
  lease_seen : option cluster
}.

Record RunState := MkRun {
  elector : LeaseLeaderElector;
  last_renew_success : Z;
  calls : list Callback;
  lease : cluster
}.

Definition set_is_leader (b : bool) (self : LeaseLeaderElector)
  : LeaseLeaderElector :=
  Elector (identity self) (self_lease_duration_seconds self)
          (renew_deadline_seconds self) (retry_period_seconds self) b.

(** The body of the loop; an exception of the cycle counts as not
    acquired. *)
Definition run_cycle (cy : Cycle) (st : RunState) : RunState :=
  let self := elector st in
  let c := default (lease st) (lease_seen cy) in
  let '(r, c') :=
    _try_acquire_or_renew self (utc_now cy) (read_fault cy) (write_fault cy) c in
  let acquired := match r with Ret b => b | Raise _ => false end in
  if acquired && negb (_is_leader self) then
    MkRun (set_is_leader true self) (clock cy)
          (calls st ++ [StartedLeading]) c'
  else if acquired && _is_leader self then
    MkRun self (clock cy) (calls st) c'
  else if negb acquired && _is_leader self then
    let elapsed_since_last_renew := clock cy - last_renew_success st in
    if elapsed_since_last_renew <? renew_deadline_seconds self * 1000000000
    then MkRun self (last_renew_success st) (calls st) c'
    else MkRun (set_is_leader false self) (last_renew_success st)
               (calls st ++ [StoppedLeading]) c'
  else MkRun self (last_renew_success st) (calls st) c'.

(** [run]: the cycles until the stop event is set, then the release.
    [started] is the monotonic clock at the start. *)
Definition run (self : LeaseLeaderElector) (started : Z)
    (cycles : list Cycle) (f_read f_write : option exn) (c : cluster)
  : RunState :=
  let st := fold_left (λ st cy, run_cycle cy st) cycles
                      (MkRun self started [] c) in
  let '(self', stopped, c') :=
    run_shutdown (elector st) f_read f_write (lease st) in
  MkRun self' (last_renew_success st)
        (calls st ++ if stopped : bool then [StoppedLeading] else []) c'.

End Leader.

(** ** The reconciliation engine ([controller.py], [kube.py]) *)

(** *** Insertion-ordered dictionaries *)

(** A Python dict whose iteration order matters: assigning to a key that is
    present keeps its place, a new key goes to the end. *)
Module ODict.
Section Ops.
Context {K V : Type} `{EqDecision K}.

Fixpoint get (k : K) (d : list (K * V)) : option V :=
  match d with
  | [] => None
  | (k', v) :: r => if decide (k = k') then Some v else get k r
  end.

Fixpoint set (k : K) (v : V) (d : list (K * V)) : list (K * V) :=
  match d with
  | [] => [(k, v)]
  | (k', v') :: r =>
      if decide (k = k') then (k, v) :: r else (k', v') :: set k v r
  end.

(** [d.pop(k, None)], the value dropped. *)
Fixpoint pop (k : K) (d : list (K * V)) : list (K * V) :=
  match d with
  | [] => []
  | (k', v) :: r => if decide (k = k') then pop k r else (k', v) :: pop k r
  end.

Definition keys (d : list (K * V)) : list K := map fst d.
Definition values (d : list (K * V)) : list V := map snd d.

(** Each key is held once. *)
Definition wf (d : list (K * V)) : Prop := NoDup (keys d).

End Ops.
End ODict.

(** *** Cluster objects, as far as the engine looks at them *)

Record V1ObjectMeta := ObjectMeta {
  meta_name : option string;
  meta_labels : option (gmap string string);
  meta_resource_version : option string
}.

Record V1ConfigMap := ConfigMap {
  cm_metadata : option V1ObjectMeta;
  cm_data : option (gmap string (option string))
}.

Record V1ConfigMapList := ConfigMapList {
  list_resource_version : option string;
  list_items : list V1ConfigMap
}.

(** A Deployment: [metadata.name], [metadata.labels] and
    [spec.template.metadata.annotations]. *)
Record V1Deployment := Deployment {
  dep_name : option string;
  dep_labels : gmap string string;
  dep_annotations : option (gmap string string)
}.

Record RestartResult := Result {
  environment : string;
  matched_deployments : Z;
  restarted : Z;
  failed : Z
}.

(** The engine key [(env, configmap_name)]. *)
Abbreviation Key := (string * string)%type.

(** *** The engine's configuration (the constructor's arguments) *)

Record Config := MkConfig {
  namespace : string;
  app_selector : string;
  rollout_annotation_key : string;
  debounce_seconds : Z;
  now_fn : datetime → string
}.

(** *** The API server as the engine meets it *)

(** What the server answers to the next call of the apps API: the exception
    it raises, if any, and the time the call takes (nanoseconds). *)
Record ApiReply := Reply {
  reply_fault : option exn;
  reply_latency : N
}.

(** What the theorems observe of a run: each call of the restart executor
    with its key, the listing and patching of Deployments with what each
    call raised, and the opening of a watch.  The trace is only appended to;
    no modelled function reads it. *)
Inductive TraceEvent :=
| RestartAttempt (env config_map_name : string)
| ListDeployments (selector : string) (raised : option exn)
| PatchDeployment (name : string) (annotations : gmap string string)
                  (raised : option exn)
| WatchConfigMaps (resource_version : option string) (timeout_seconds : Z).

(** *** State: the engine's fields and the world around it *)

Record State := MkState {
  (* fields of ConfigMapReloader *)
  _last_restart : gmap Key Z;
  _last_data_hash : gmap Key string;
  _pending_restarts : list (Key * Z);
  _pending_retry_attempts : gmap Key N;
  ready : bool;
  (* the local variable of run_forever *)
  resource_version : option string;
  (* METRICS.dropped_restarts_total *)
  dropped_restarts_total : N;
  (* the cluster, the clocks, the answers to come and the trace; [wall] is
     what the next reading of [datetime.now(UTC)] returns: a pass of the
     restart executor reads it once *)
  deployments : list V1Deployment;
  monotonic : Z;
  wall : datetime;
  replies : list ApiReply;
  trace : list TraceEvent
}.

Definition set_last_restart (f : gmap Key Z → gmap Key Z) (s : State) : State :=
  MkState (f (_last_restart s)) (_last_data_hash s) (_pending_restarts s) (_pending_retry_attempts s) (ready s) (resource_version s) (dropped_restarts_total s) (deployments s) (monotonic s) (wall s) (replies s) (trace s).
Definition set_last_data_hash (f : gmap Key string → gmap Key string) (s : State) : State :=
  MkState (_last_restart s) (f (_last_data_hash s)) (_pending_restarts s) (_pending_retry_attempts s) (ready s) (resource_version s) (dropped_restarts_total s) (deployments s) (monotonic s) (wall s) (replies s) (trace s).
Definition set_pending_restarts (f : list (Key * Z) → list (Key * Z)) (s : State) : State :=
  MkState (_last_restart s) (_last_data_hash s) (f (_pending_restarts s)) (_pending_retry_attempts s) (ready s) (resource_version s) (dropped_restarts_total s) (deployments s) (monotonic s) (wall s) (replies s) (trace s).
Definition set_pending_retry_attempts (f : gmap Key N → gmap Key N) (s : State) : State :=
  MkState (_last_restart s) (_last_data_hash s) (_pending_restarts s) (f (_pending_retry_attempts s)) (ready s) (resource_version s) (dropped_restarts_total s) (deployments s) (monotonic s) (wall s) (replies s) (trace s).
Definition set_ready (f : bool → bool) (s : State) : State :=
  MkState (_last_restart s) (_last_data_hash s) (_pending_restarts s) (_pending_retry_attempts s) (f (ready s)) (resource_version s) (dropped_restarts_total s) (deployments s) (monotonic s) (wall s) (replies s) (trace s).
Definition set_resource_version (f : option string → option string) (s : State) : State :=
  MkState (_last_restart s) (_last_data_hash s) (_pending_restarts s) (_pending_retry_attempts s) (ready s) (f (resource_version s)) (dropped_restarts_total s) (deployments s) (monotonic s) (wall s) (replies s) (trace s).
Definition set_dropped_restarts_total (f : N → N) (s : State) : State :=
  MkState (_last_restart s) (_last_data_hash s) (_pending_restarts s) (_pending_retry_attempts s) (ready s) (resource_version s) (f (dropped_restarts_total s)) (deployments s) (monotonic s) (wall s) (replies s) (trace s).
Definition set_deployments (f : list V1Deployment → list V1Deployment) (s : State) : State :=
  MkState (_last_restart s) (_last_data_hash s) (_pending_restarts s) (_pending_retry_attempts s) (ready s) (resource_version s) (dropped_restarts_total s) (f (deployments s)) (monotonic s) (wall s) (replies s) (trace s).
Definition set_monotonic (f : Z → Z) (s : State) : State :=
  MkState (_last_restart s) (_last_data_hash s) (_pending_restarts s) (_pending_retry_attempts s) (ready s) (resource_version s) (dropped_restarts_total s) (deployments s) (f (monotonic s)) (wall s) (replies s) (trace s).
Definition set_wall (f : datetime → datetime) (s : State) : State :=
  MkState (_last_restart s) (_last_data_hash s) (_pending_restarts s) (_pending_retry_attempts s) (ready s) (resource_version s) (dropped_restarts_total s) (deployments s) (monotonic s) (f (wall s)) (replies s) (trace s).
Definition set_replies (f : list ApiReply → list ApiReply) (s : State) : State :=
  MkState (_last_restart s) (_last_data_hash s) (_pending_restarts s) (_pending_retry_attempts s) (ready s) (resource_version s) (dropped_restarts_total s) (deployments s) (monotonic s) (wall s) (f (replies s)) (trace s).
Definition set_trace (f : list TraceEvent → list TraceEvent) (s : State) : State :=
  MkState (_last_restart s) (_last_data_hash s) (_pending_restarts s) (_pending_retry_attempts s) (ready s) (resource_version s) (dropped_restarts_total s) (deployments s) (monotonic s) (wall s) (replies s) (f (trace s)).

(** *** Computations: state passing with exceptions *)

Definition M (A : Type) : Type := State → res A * State.

Definition ret {A} (a : A) : M A := λ s, (Ret a, s).
Definition raise {A} (e : exn) : M A := λ s, (Raise e, s).
Definition bind {A B} (m : M A) (f : A → M B) : M B :=
  λ s, match m s with
       | (Ret a, s') => f a s'
       | (Raise e, s') => (Raise e, s')
       end.
Definition gets {A} (f : State → A) : M A := λ s, (Ret (f s), s).
Definition modify (f : State → State) : M unit := λ s, (Ret tt, f s).
(** [try: m except ...: h e] with a handler for every exception. *)
Definition try_with {A} (m : M A) (h : exn → M A) : M A :=
  λ s, match m s with
       | (Ret a, s') => (Ret a, s')
       | (Raise e, s') => h e s'
       end.

Notation "'let!' x := m 'in' k" := (bind m (λ x, k))
  (at level 10, x pattern, m at level 100, k at level 200).
Notation "m ;;; k" := (bind m (λ _, k))
  (at level 100, right associativity).

(** Nanoseconds in [n] seconds. *)
Definition seconds (n : Z) : Z := n * 1000000000.


Section Engine.

(** The label selector semantics of the API server: whether the labels of an
    object satisfy a selector string. *)
Variable selects : string → gmap string string → bool.

(** [json.dumps(data, sort_keys=True, separators=(",", ":"))]: a function of
    the mapping, whatever the order its keys were inserted in. *)
Variable json_dumps : gmap string string → string.

Variable cfg : Config.

(** *** The apps API *)

Definition next_reply : M (option exn) :=
  λ s, match replies s with
       | [] => (Ret None, s)
       | r :: rs =>
           (Ret (reply_fault r),
            set_monotonic (λ t, t + Z.of_N (reply_latency r))
              (set_replies (λ _, rs) s))
       end.

Definition log_call (c : TraceEvent) : M unit :=
  modify (set_trace (λ l, l ++ [c])).

Definition list_namespaced_deployment (label_selector : string)
  : M (list V1Deployment) :=
  let! f := next_reply in
  log_call (ListDeployments label_selector f);;;
  match f with
  | Some e => raise e
  | None =>
      gets (λ s, List.filter (λ d, selects label_selector (dep_labels d))
                             (deployments s))
  end.

(** The merge patch of the pod template annotations: the keys of the body
    are written, the other annotations stay. *)
Definition apply_patch (name : string) (annotations : gmap string string)
    (d : V1Deployment) : V1Deployment :=
  if decide (dep_name d = Some name) then
    Deployment (dep_name d) (dep_labels d)
      (Some (annotations ∪ default ∅ (dep_annotations d)))
  else d.

Definition has_name (name : string) (d : V1Deployment) : bool :=
  bool_decide (dep_name d = Some name).

Definition patch_namespaced_deployment (name : string)
    (annotations : gmap string string) : M unit :=
  let! f := next_reply in
  let! found := gets (λ s, existsb (has_name name) (deployments s)) in
  let raised :=
    match f with
    | Some e => Some e
    | None => if found then None else Some (ApiException 404)
    end in
  log_call (PatchDeployment name annotations raised);;;
  match raised with
  | Some e => raise e
  | None => modify (set_deployments (map (apply_patch name annotations)))
  end.

(** [kube.patch_deployment_restart] *)
Definition patch_deployment_restart (deployment_name annotation_key
    timestamp : string) (extra_annotations : option (gmap string string))
  : M unit :=
  let annotations :=
    default ∅ extra_annotations ∪ {[ annotation_key := timestamp ]} in
  patch_namespaced_deployment deployment_name annotations.

(** *** Selectors *)

Definition _parse_selector (selector : string) : gmap string string :=
  fold_left
    (λ result part,
       let part := Py.strip Py.is_space part in
       let '(key, found, value) := Py.partition "=" part in
       if found
       then <[ Py.strip Py.is_space key := Py.strip Py.is_space value ]> result
       else result)
    (Py.split "," selector) ∅.

Definition _app_label_filters : gmap string string :=
  _parse_selector (app_selector cfg).

Definition _matches_app_labels (labels : gmap string string) : bool :=
  bool_decide (map_Forall (λ k v, labels !! k = Some v) _app_label_filters).

Definition _deployment_selector_for_env (env : string) : string :=
  let clauses :=
    List.filter Py.truthy
      (map (Py.strip Py.is_space) (Py.split "," (app_selector cfg))) in
  let clauses :=
    if existsb (String.prefix "env=") clauses then clauses
    else clauses ++ ["env=" +:+ env] in
  String.concat "," clauses.

(** *** Debounce and retry bookkeeping *)

(** Times are exact here (see the conventions): [elapsed] and the rest of
    the window are the exact differences, where the code has them rounded
    to [float].  The two can decide differently within a rounding step of
    the end of the window; no statement below rests on which side of that
    end a reading falls. *)
Definition _debounce_remaining (env config_map_name : string)
    (now_monotonic : Z) (s : State) : Z :=
  if debounce_seconds cfg <=? 0 then 0
  else
    match _last_restart s !! (env, config_map_name) with
    | None => 0
    | Some last_seen =>
        let elapsed := now_monotonic - last_seen in
        Z.max 0 (seconds (debounce_seconds cfg) - elapsed)
    end.

(** [due_at] is the exact sum; the code stores the sum rounded to
    [float], which is not below [now_monotonic] for a delay that is not
    negative, as the exact one. *)
Definition _schedule_pending_restart (env config_map_name : string)
    (now_monotonic delay_seconds : Z) (reset_retry_attempt : bool)
    (s : State) : State :=
  let key := (env, config_map_name) in
  let due_at := now_monotonic + delay_seconds in
  let s :=
    match ODict.get key (_pending_restarts s) with
    | None => set_pending_restarts (ODict.set key due_at) s
    | Some existing_due =>
        if existing_due <? due_at
        then set_pending_restarts (ODict.set key due_at) s
        else s
    end in
  if reset_retry_attempt
  then set_pending_retry_attempts (delete key) s
  else s.

Definition _mark_restart_executed (env config_map_name : string)
    (now_monotonic : Z) (s : State) : State :=
  let key := (env, config_map_name) in
  set_pending_retry_attempts (delete key)
    (set_pending_restarts (ODict.pop key)
       (set_last_restart (<[ key := now_monotonic ]>) s)).

(** The largest exponent [e] for which [float(2 ** e)] is a float; beyond
    it the conversion raises [OverflowError]. *)
Definition float_max_exponent : N := 1023.

Definition _schedule_retry (env config_map_name : string)
    (now_monotonic : Z) : M unit :=
  let key := (env, config_map_name) in
  let! previous := gets (λ s, default 0%N (_pending_retry_attempts s !! key)) in
  let retry_attempt := (previous + 1)%N in
  modify (set_pending_retry_attempts (<[ key := retry_attempt ]>));;;
  if (float_max_exponent <? retry_attempt - 1)%N then raise OverflowError
  else
    let delay_seconds :=
      Z.min (seconds 30) (seconds (2 ^ Z.of_N (retry_attempt - 1))) in
    let due_at := now_monotonic + delay_seconds in
    modify (set_pending_restarts (ODict.set key due_at)).

(** *** Hashing *)

Definition _normalize_data (raw_data : option (gmap string (option string)))
  : gmap string string :=
  match raw_data with
  | None => ∅
  | Some d => default "" <$> d
  end.

Definition _hash_data (data : gmap string string) : string :=
  Sha256.hexdigest (json_dumps data).

Definition _deployment_template_annotations (d : V1Deployment)
  : gmap string string :=
  default ∅ (dep_annotations d).

(** *** The restart executor *)

(** The handler of [except ApiException]: the API's exception gives [v],
    any other exception goes on. *)
Definition on_api_exception {A} (v : A) (e : exn) : M A :=
  match e with
  | ApiException _ => ret v
  | _ => raise e
  end.

(** Whether the pod template already carries the hash ([config_hash] being
    the cached one, if any) under the hash annotation key. *)
Definition carries_hash (config_hash : option string)
    (hash_annotation_key : string) (d : V1Deployment) : bool :=
  match config_hash with
  | Some h =>
      bool_decide (_deployment_template_annotations d
                     !! hash_annotation_key = Some h)
  | None => false
  end.

(** The loop over the listed Deployments, with its two counters. *)
Fixpoint restart_loop (timestamp : string) (config_hash : option string)
    (hash_annotation_key : string) (items : list V1Deployment)
    (restarted failed : Z) : M (Z * Z) :=
  match items with
  | [] => ret (restarted, failed)
  | deployment :: rest =>
      let continue := restart_loop timestamp config_hash hash_annotation_key rest in
      match dep_name deployment with
      | None => continue restarted (failed + 1)
      | Some deployment_name =>
          if negb (Py.truthy deployment_name) then continue restarted (failed + 1)
          else if carries_hash config_hash hash_annotation_key deployment
          then continue restarted failed
          else
            let! patched :=
              try_with
                (patch_deployment_restart deployment_name
                   (rollout_annotation_key cfg) timestamp
                   ((λ h, {[ hash_annotation_key := h ]}) <$> config_hash);;;
                 ret true)
                (on_api_exception false) in
            if patched : bool then continue (restarted + 1) failed
            else continue restarted (failed + 1)
      end
  end.

Definition _restart_deployments_for_env (env config_map_name : string)
  : M RestartResult :=
  log_call (RestartAttempt env config_map_name);;;
  let selector := _deployment_selector_for_env env in
  let! listed :=
    try_with
      (let! l := list_namespaced_deployment selector in ret (Some l))
      (on_api_exception None) in
  match listed with
  | None => ret (Result env 0 0 1)
  | Some items =>
      let! timestamp := gets (λ s, now_fn cfg (wall s)) in
      let! config_hash :=
        gets (λ s, _last_data_hash s !! (env, config_map_name)) in
      let hash_annotation_key :=
        _config_hash_annotation_key (rollout_annotation_key cfg) config_map_name in
      let! (restarted, failed) :=
        restart_loop timestamp config_hash hash_annotation_key items 0 0 in
      ret (Result env (Z.of_nat (length items)) restarted failed)
  end.

Definition _restart_and_record (env config_map_name : string)
    (now_monotonic : Z) (force : bool) : M RestartResult :=
  let! result := _restart_deployments_for_env env config_map_name in
  if failed result =? 0 then
    modify (_mark_restart_executed env config_map_name now_monotonic);;;
    ret result
  else if force then
    let key := (env, config_map_name) in
    modify (set_pending_restarts (ODict.pop key));;;
    modify (set_pending_retry_attempts (delete key));;;
    modify (set_dropped_restarts_total N.succ);;;
    ret result
  else
    _schedule_retry env config_map_name now_monotonic;;;
    ret result.

(** *** Drain and forced flush *)

Fixpoint for_each {A} (l : list A) (body : A → M unit) : M unit :=
  match l with
  | [] => ret tt
  | x :: r => body x;;; for_each r body
  end.

(** The body of the loop of [_drain_pending_restarts]. *)
Definition drain_one (now_monotonic : Z) (key : Key) : M unit :=
  let '(env, config_map_name) := key in
  _restart_and_record env config_map_name now_monotonic false;;;
  ret tt.

Definition _drain_pending_restarts (now_monotonic : Z) : M unit :=
  let! due_restarts :=
    gets (λ s, ODict.keys
                 (List.filter (λ kv, snd kv <=? now_monotonic)
                              (_pending_restarts s))) in
  for_each due_restarts (drain_one now_monotonic).

(** The body of the loop of [_flush_pending_restarts_on_shutdown], with its
    [except Exception] clause. *)
Definition flush_one (key : Key) : M unit :=
  let '(env, config_map_name) := key in
  try_with
    (let! now := gets monotonic in
     _restart_and_record env config_map_name now true;;;
     ret tt)
    (λ _,
       modify (set_pending_restarts (ODict.pop (env, config_map_name)));;;
       modify (set_pending_retry_attempts (delete (env, config_map_name)));;;
       modify (set_dropped_restarts_total N.succ)).

Definition _flush_pending_restarts_on_shutdown : M unit :=
  let! keys := gets (λ s, ODict.keys (_pending_restarts s)) in
  for_each keys flush_one.

(** The ceiling is taken of the exact difference; the code takes it of
    the difference rounded to [float], which can be the next whole number
    when the difference is within a rounding step of a whole number of
    seconds.  The bounds, and the value for a deadline that has been
    reached, are the same in both. *)
Definition _next_watch_timeout_seconds (now_monotonic : Z) (s : State) : Z :=
  match ODict.values (_pending_restarts s) with
  | [] => 30
  | due :: dues =>
      let nearest_due := fold_left Z.min dues due in
      let remaining := Z.max (seconds 1) (nearest_due - now_monotonic) in
      (* math.ceil of the seconds *)
      Z.min 30 (Z.max 1 ((remaining + seconds 1 - 1) / seconds 1))
  end.

(** *** Events and listings *)

(** The guard at the head of [handle_configmap_event] and of each loop over
    a listing: the object has metadata, its labels satisfy the app selector,
    and the [env] label and the name are non-empty.  It gives the key. *)
Definition configmap_key (config_map : V1ConfigMap) : option Key :=
  match cm_metadata config_map with
  | None => None
  | Some metadata =>
      let labels := default ∅ (meta_labels metadata) in
      if negb (_matches_app_labels labels) then None
      else
        match labels !! "env", meta_name metadata with
        | Some env, Some config_map_name =>
            if Py.truthy env && Py.truthy config_map_name
            then Some (env, config_map_name)
            else None
        | _, _ => None
        end
  end.

Definition current_hash_of (config_map : V1ConfigMap) : string :=
  _hash_data (_normalize_data (cm_data config_map)).

Definition _has_meaningful_data_change (env config_map_name event_type : string)
    (config_map : V1ConfigMap) : M bool :=
  let key := (env, config_map_name) in
  let current_hash := current_hash_of config_map in
  let! previous_hash := gets (λ s, _last_data_hash s !! key) in
  modify (set_last_data_hash (<[ key := current_hash ]>));;;
  match previous_hash with
  | None => ret (negb (String.eqb event_type "ADDED"))
  | Some previous => ret (negb (String.eqb previous current_hash))
  end.

(** The debounce decision shared by [handle_configmap_event] (which first
    drops stale queue entries, [supersede]) and [_sync_cache_from_list]. *)
Definition restart_or_defer (supersede : bool) (env config_map_name : string)
  : M (option RestartResult) :=
  let key := (env, config_map_name) in
  let! now_monotonic := gets monotonic in
  let! debounce_remaining :=
    gets (_debounce_remaining env config_map_name now_monotonic) in
  if 0 <? debounce_remaining then
    modify (_schedule_pending_restart env config_map_name now_monotonic
              debounce_remaining true);;;
    ret None
  else
    (if supersede then
       modify (set_pending_restarts (ODict.pop key));;;
       modify (set_pending_retry_attempts (delete key))
     else ret tt);;;
    let! result := _restart_and_record env config_map_name now_monotonic false in
    ret (Some result).

Definition handle_configmap_event (event_type : string)
    (config_map : V1ConfigMap) : M (option RestartResult) :=
  if negb (String.eqb event_type "ADDED" || String.eqb event_type "MODIFIED")
  then ret None
  else
    match configmap_key config_map with
    | None => ret None
    | Some (env, config_map_name) =>
        let! meaningful :=
          _has_meaningful_data_change env config_map_name event_type config_map in
        if negb meaningful then ret None
        else restart_or_defer true env config_map_name
    end.

(** The body of the loop of [_sync_cache_from_list]. *)
Definition sync_one (restart_on_change : bool) (config_map : V1ConfigMap)
  : M unit :=
  match configmap_key config_map with
  | None => ret tt
  | Some (env, config_map_name) =>
      let key := (env, config_map_name) in
      let current_hash := current_hash_of config_map in
      let! previous_hash := gets (λ s, _last_data_hash s !! key) in
      modify (set_last_data_hash (<[ key := current_hash ]>));;;
      if negb restart_on_change then ret tt
      else
        match previous_hash with
        | None => ret tt
        | Some previous =>
            if String.eqb previous current_hash then ret tt
            else restart_or_defer false env config_map_name;;; ret tt
        end
  end.

Definition _sync_cache_from_list (config_maps : V1ConfigMapList)
    (restart_on_change : bool) : M unit :=
  for_each (list_items config_maps) (sync_one restart_on_change).

(** Whether the startup check counts a Deployment as stale. *)
Definition stale (hash_annotation_key current_hash : string)
    (d : V1Deployment) : bool :=
  let annotations := _deployment_template_annotations d in
  match annotations !! hash_annotation_key with
  | None => bool_decide (is_Some (annotations !! rollout_annotation_key cfg))
  | Some observed_hash => negb (String.eqb observed_hash current_hash)
  end.

(** The body of the loop of [_reconcile_startup_drift]. *)
Definition reconcile_one (config_map : V1ConfigMap) : M unit :=
  match configmap_key config_map with
  | None => ret tt
  | Some (env, config_map_name) =>
      let! cached := gets (λ s, _last_data_hash s !! (env, config_map_name)) in
      match cached with
      | None => ret tt
      | Some current_hash =>
          let! listed :=
            try_with
              (let! l :=
                 list_namespaced_deployment (_deployment_selector_for_env env) in
               ret (Some l))
              (on_api_exception None) in
          match listed with
          | None => ret tt
          | Some deployment_items =>
              let hash_annotation_key :=
                _config_hash_annotation_key (rollout_annotation_key cfg)
                                            config_map_name in
              if existsb (stale hash_annotation_key current_hash)
                         deployment_items
              then
                let! now := gets monotonic in
                _restart_and_record env config_map_name now false;;;
                ret tt
              else ret tt
          end
      end
  end.

Definition _reconcile_startup_drift (config_maps : V1ConfigMapList) : M unit :=
  for_each (list_items config_maps) reconcile_one.

(** *** The list-then-watch loop ([run_forever]) *)

(** What the core API and the stop event do during a run is given as a
    script.  Every wait is the time that passes, in nanoseconds. *)
Record WatchEvent := Event {
  ev_wait : N;
  ev_object : option V1ConfigMap;
  ev_type : string
}.

(** One pass of the watch loop: the events the stream yields, how the stream
    ends (cleanly, or by raising), the answer to the re-list a 410 leads to,
    and the length of the backoff wait if there is one. *)
Record WatchRound := Round {
  round_events : list WatchEvent;
  stream_wait : N;
  stream_raises : option exn;
  relist : res V1ConfigMapList;
  backoff_wait : N
}.

Record StartupAttempt := Attempt {
  initial : res V1ConfigMapList;
  startup_wait : N
}.

(** A run: the attempts of the initial list until the stop event is seen,
    whether it is seen right after the list succeeded, and the passes of the
    watch loop until it is seen there. *)
Record Script := MkScript {
  attempts : list StartupAttempt;
  stop_before_watch : bool;
  rounds : list WatchRound
}.

Definition sleep (ns : N) : M unit :=
  modify (set_monotonic (λ t, t + Z.of_N ns)).

Definition access_denied (status : Z) : bool :=
  (status =? 401) || (status =? 403).

Definition drain_now : M unit :=
  let! now := gets monotonic in _drain_pending_restarts now.

Definition handle_stream_event (ev : WatchEvent) : M unit :=
  sleep (ev_wait ev);;;
  match ev_object ev with
  | None => ret tt
  | Some obj =>
      (match cm_metadata obj with
       | Some metadata =>
           if Py.truthy_opt (meta_resource_version metadata)
           then modify (set_resource_version
                          (λ _, meta_resource_version metadata))
           else ret tt
       | None => ret tt
       end);;;
      handle_configmap_event (ev_type ev) obj;;;
      drain_now
  end.

(** The [try] block of the watch loop. *)
Definition watch_stream (r : WatchRound) : M unit :=
  let! now := gets monotonic in
  let! timeout_seconds := gets (_next_watch_timeout_seconds now) in
  let! rv := gets resource_version in
  log_call (WatchConfigMaps rv timeout_seconds);;;
  for_each (round_events r) handle_stream_event;;;
  sleep (stream_wait r);;;
  match stream_raises r with
  | Some e => raise e
  | None => drain_now
  end.

(** The re-list after [410 Gone], inside the handler of the watch's
    [ApiException].  The boolean tells whether the loop goes on. *)
Definition relist_after_410 (r : WatchRound) : M bool :=
  try_with
    (match relist r with
     | Raise e => raise e
     | Ret fresh =>
         modify (set_resource_version (λ _, list_resource_version fresh));;;
         _sync_cache_from_list fresh true;;;
         ret true
     end)
    (λ e, match e with
          | ApiException status =>
              if access_denied status
              then modify (set_ready (λ _, false));;; ret false
              else modify (set_resource_version (λ _, None));;; ret true
          | _ => raise e
          end).

(** One pass of the watch loop.  The boolean tells whether the loop goes on;
    [false] is the [return] of [run_forever]. *)
Definition watch_round (r : WatchRound) : M bool :=
  drain_now;;;
  try_with
    (watch_stream r;;; ret true)
    (λ e, match e with
          | ApiException status =>
              if status =? 410 then relist_after_410 r
              else if access_denied status
              then modify (set_ready (λ _, false));;; ret false
              else sleep (backoff_wait r);;; ret true
          | _ => sleep (backoff_wait r);;; ret true
          end).

Definition shutdown : M unit :=
  _flush_pending_restarts_on_shutdown;;;
  modify (set_ready (λ _, false)).

Fixpoint watch_loop (rs : list WatchRound) : M unit :=
  match rs with
  | [] => shutdown
  | r :: rest =>
      let! go_on := watch_round r in
      if go_on : bool then watch_loop rest else ret tt
  end.

Inductive Startup := Started | Returned | Retry.

Definition initial_list (a : StartupAttempt) : M Startup :=
  try_with
    (match initial a with
     | Raise e => raise e
     | Ret listing =>
         modify (set_resource_version (λ _, list_resource_version listing));;;
         _sync_cache_from_list listing false;;;
         _reconcile_startup_drift listing;;;
         modify (set_ready (λ _, true));;;
         ret Started
     end)
    (λ e, match e with
          | ApiException status =>
              if access_denied status
              then modify (set_ready (λ _, false));;; ret Returned
              else ret Retry
          | _ => ret Retry
          end).

(** The first loop of [run_forever]; [true] when the list succeeded. *)
Fixpoint startup_loop (l : list StartupAttempt) : M bool :=
  match l with
  | [] => modify (set_ready (λ _, false));;; ret false
  | a :: rest =>
      let! outcome := initial_list a in
      match outcome with
      | Started => ret true
      | Returned => ret false
      | Retry => sleep (startup_wait a);;; startup_loop rest
      end
  end.

Definition run_forever (script : Script) : M unit :=
  modify (set_resource_version (λ _, None));;;
  let! started := startup_loop (attempts script) in
  if negb started then ret tt
  else if stop_before_watch script
  then modify (set_ready (λ _, false))
  else watch_loop (rounds script).

End Engine.

(** ** A small cluster for the examples *)

Module Demo.

(** Equality-based selectors, the only kind the controller builds. *)
Definition selects (selector : string) (labels : gmap string string) : bool :=
  bool_decide (map_Forall (λ k v, labels !! k = Some v)
                          (_parse_selector selector)).

(** Stands in for [json.dumps] in the examples. *)
Definition quote : string := String (ascii_of_N 34) EmptyString.
Definition json_dumps (data : gmap string string) : string :=
  "{" +:+ String.concat ","
            (map (λ kv, quote +:+ fst kv +:+ quote +:+ ":"
                          +:+ quote +:+ snd kv +:+ quote)
                 (map_to_list data)) +:+ "}".

Definition cfg (debounce : Z) : Config :=
  MkConfig "shipshape" "app=helloworld" "shipshape.io/restartedAt" debounce
           utc_now_rfc3339.

Definition labels (env : string) : gmap string string :=
  {[ "app" := "helloworld"; "env" := env ]}.

Definition configmap (env message : string) : V1ConfigMap :=
  ConfigMap
    (Some (ObjectMeta (Some "helloworld-config") (Some (labels env)) (Some "1")))
    (Some {[ "MESSAGE" := Some message ]}).

Definition deployment (name env : string) : V1Deployment :=
  Deployment (Some name) (labels env) None.

Definition noon : datetime := DateTime 2024 1 15 12 0 0 0.

(** A fresh engine at monotonic second [t] over the given Deployments. *)
Definition engine (t : Z) (ds : list V1Deployment) (answers : list ApiReply)
  : State :=
  MkState ∅ ∅ [] ∅ false None 0%N ds (seconds t) noon answers [].

Definition key : Key := ("test", "helloworld-config").

End Demo.

(** ** Notions used in the statements *)

(** The engine's own fields agree in two states; the cluster, the clocks
    and the trace may differ. *)
Definition same_engine (s s' : State) : Prop :=
  _last_restart s' = _last_restart s
  ∧ _last_data_hash s' = _last_data_hash s
  ∧ _pending_restarts s' = _pending_restarts s
  ∧ _pending_retry_attempts s' = _pending_retry_attempts s
  ∧ ready s' = ready s
  ∧ resource_version s' = resource_version s
  ∧ dropped_restarts_total s' = dropped_restarts_total s.

(** The trace of [s'] continues that of [s] with events that satisfy [P]. *)
Definition trace_grows (P : TraceEvent → Prop) (s s' : State) : Prop :=
  ∃ l, trace s' = trace s ++ l ∧ Forall P l.

Definition is_attempt (k : Key) (ev : TraceEvent) : bool :=
  match ev with
  | RestartAttempt env name => bool_decide ((env, name) = k)
  | _ => false
  end.

Definition is_any_attempt (ev : TraceEvent) : bool :=
  match ev with RestartAttempt _ _ => true | _ => false end.

(** How often the restart executor was called for a key. *)
Definition restart_attempts (k : Key) (l : list TraceEvent) : nat :=
  length (List.filter (is_attempt k) l).

Definition is_patch (ev : TraceEvent) : bool :=
  match ev with PatchDeployment _ _ _ => true | _ => false end.

(** The patch calls of a trace. *)
Definition patch_calls (l : list TraceEvent) : list TraceEvent :=
  List.filter is_patch l.

(** The Deployments named in the patch calls of a trace, in order. *)
Definition patched_names (l : list TraceEvent) : list string :=
  omap (λ ev, match ev with
              | PatchDeployment n _ _ => Some n
              | _ => None
              end) l.

(** How often a Deployment was patched with success. *)
Definition patched_ok (name : string) (ev : TraceEvent) : bool :=
  match ev with
  | PatchDeployment n _ None => bool_decide (n = name)
  | _ => false
  end.
Definition patches_of (name : string) (l : list TraceEvent) : nat :=
  length (List.filter (patched_ok name) l).

(** The names of the Deployments the executor can patch. *)
Definition patchable_name (d : V1Deployment) : option string :=
  match dep_name d with
  | Some n => if Py.truthy n then Some n else None
  | None => None
  end.

(** Only the API raises in the answers to come: no transport failure. *)
Definition api_faults_only (answers : list ApiReply) : Prop :=
  Forall (λ r, match reply_fault r with
               | Some (ApiException _) | None => True
               | Some _ => False
               end) answers.

(** The fault of the next API call. *)
Definition next_fault (s : State) : option exn :=
  match replies s with
  | [] => None
  | r :: _ => reply_fault r
  end.

(** The annotations a restart writes: the rollout timestamp, and the hash
    when one is cached. *)
Definition patch_body (cfg : Config) (timestamp : string)
    (config_hash : option string) (hash_annotation_key : string)
  : gmap string string :=
  default ∅ ((λ h, {[ hash_annotation_key := h ]}) <$> config_hash)
  ∪ {[ rollout_annotation_key cfg := timestamp ]}.

(** The listed Deployments a pass has to patch: those with a name that do
    not carry the hash. *)
Definition patch_targets (config_hash : option string)
    (hash_annotation_key : string) (items : list V1Deployment) : list string :=
  omap (λ d, if carries_hash config_hash hash_annotation_key d then None
             else patchable_name d) items.

Definition nameless (items : list V1Deployment) : Z :=
  Z.of_nat (length (List.filter (λ d, bool_decide (patchable_name d = None))
                                items)).

(** The names patched with success, and the number of failed patch calls. *)
Definition ok_names (l : list TraceEvent) : list string :=
  omap (λ ev, match ev with
              | PatchDeployment n _ None => Some n
              | _ => None
              end) l.
Definition failed_calls (l : list TraceEvent) : Z :=
  Z.of_nat (length (List.filter
                      (λ ev, match ev with
                             | PatchDeployment _ _ (Some _) => true
                             | _ => false
                             end) l)).

Definition apply_patches (body : gmap string string) (names : list string)
    (ds : list V1Deployment) : list V1Deployment :=
  fold_left (λ ds n, map (apply_patch n body) ds) names ds.

(** Every event is a patch call with the body [b]. *)
Definition patches_with (b : gmap string string) (l : list TraceEvent) : Prop :=
  Forall (λ ev, ∃ n o, ev = PatchDeployment n b o) l.

(** A run that concerns the key [k] only: for every other key the cached
    hash, the deadline, the retry counter and the time of the last restart
    are as before, and the trace has gained no restart attempt. *)
Definition touches_only (k : Key) (s s' : State) : Prop :=
  (∀ k', k' ≠ k →
     _last_data_hash s' !! k' = _last_data_hash s !! k'
     ∧ ODict.get k' (_pending_restarts s') = ODict.get k' (_pending_restarts s)
     ∧ _pending_retry_attempts s' !! k' = _pending_retry_attempts s !! k'
     ∧ _last_restart s' !! k' = _last_restart s !! k')
  ∧ ∃ l, trace s' = trace s ++ l ∧ ∀ k', k' ≠ k → restart_attempts k' l = 0%nat.

(** The trace has gained no restart attempt at all. *)
Definition no_attempt (s s' : State) : Prop :=
  ∃ l, trace s' = trace s ++ l ∧ ∀ k, restart_attempts k l = 0%nat.

(** What a re-list owes a listed ConfigMap with data hash [h]: [cached] is
    the hash cached before, [due] and [due'] the key's deadline before and
    after, [retries'] its retry counter after, [n] the number of restart
    attempts for the key.  No cached hash, or the same hash: nothing.  A
    different hash: one restart attempt, or none and the key is queued with
    its retry counter cleared. *)
Definition relist_outcome (h : string) (cached : option string)
    (due due' : option Z) (retries' : option N) (n : nat) : Prop :=
  match cached with
  | None => n = 0%nat ∧ due' = due
  | Some previous =>
      if decide (previous = h) then n = 0%nat ∧ due' = due
      else n = 1%nat ∨ (n = 0%nat ∧ is_Some due' ∧ retries' = None)
  end.

(** The key [k] is as it was, and was not restarted. *)
Definition untouched (k : Key) (s s' : State) (l : list TraceEvent) : Prop :=
  _last_data_hash s' !! k = _last_data_hash s !! k
  ∧ ODict.get k (_pending_restarts s') = ODict.get k (_pending_restarts s)
  ∧ _pending_retry_attempts s' !! k = _pending_retry_attempts s !! k
  ∧ restart_attempts k l = 0%nat.

(** What the successful patches of a pass make of one Deployment. *)
Definition patch_all (body : gmap string string) (names : list string)
    (d : V1Deployment) : V1Deployment :=
  fold_left (λ d n, apply_patch n body d) names d.

(** A deadline, if there is one, lies after [now]. *)
Definition not_due (now : Z) (due : option Z) : Prop :=
  match due with
  | Some d => now < d
  | None => True
  end.

(** [n] spells of leadership, each begun and ended. *)
Fixpoint started_stopped (n : nat) : list Leader.Callback :=
  match n with
  | O => []
  | S n => Leader.StartedLeading :: Leader.StoppedLeading :: started_stopped n
  end.

(** The invariant of the loop of [run]: the callbacks so far are whole
    spells of leadership, followed by the start of one exactly when the
    replica leads. *)
Definition spells (st : Leader.RunState) : Prop :=
  ∃ n, Leader.calls st
       = started_stopped n
         ++ if Leader._is_leader (Leader.elector st)
            then [Leader.StartedLeading] else [].

(** A call that lists Deployments. *)
Definition is_list_call (ev : TraceEvent) : Prop :=
  ∃ sel raised, ev = ListDeployments sel raised.

(** The check of the startup reconciliation finds nothing to do for a
    listed ConfigMap: every Deployment its selector matches is up to date
    for it.  [hashes] are the cached hashes. *)
Definition up_to_date (selects : string → gmap string string → bool)
    (cfg : Config) (hashes : gmap Key string) (ds : list V1Deployment)
    (cm : V1ConfigMap) : Prop :=
  ∀ env name h d,
    configmap_key cfg cm = Some (env, name) →
    hashes !! (env, name) = Some h →
    d ∈ ds →
    selects (_deployment_selector_for_env cfg env) (dep_labels d) = true →
    stale cfg (_config_hash_annotation_key (rollout_annotation_key cfg) name)
          h d = false.

(** The calls that one pass of the restart executor, started in [s], adds to
    the trace. *)
Definition pass_calls (selects : string → gmap string string → bool)
    (cfg : Config) (env config_map_name : string) (s : State)
  : list TraceEvent :=
  drop (length (trace s))
       (trace (snd (_restart_deployments_for_env selects cfg
                      env config_map_name s))).
(* ================================================================== *)
(** * Part II: properties                                              *)
(* ================================================================== *)


(** The digest is never unfolded on a symbolic input. *)
Arguments Sha256.hexdigest : simpl never.
Example sha256_abc :
  Sha256.hexdigest "abc"
  = "ba7816bf8f01cfea414140de5dae2223b00361a396177a9cb410ff61f20015ad".
Proof. vm_compute. reflexivity. Qed.

Example annotation_key_default :
  _config_hash_annotation_key "shipshape.io/restartedAt" "helloworld-config"
  = "shipshape.io/config-hash-helloworld-config".
Proof. vm_compute. reflexivity. Qed.

(** ** Strings *)

Section StringFacts.
Implicit Types (s t : string) (p : ascii → bool).

Lemma length_app s t :
    String.length (s +:+ t) = (String.length s + String.length t)%nat.
  Proof. induction s as [|c s IH]; simpl; [reflexivity | now rewrite IH]. Qed.

Lemma length_take n s : (String.length (Py.take n s) ≤ n)%nat.
  Proof.
    unfold Py.take. revert s.
    induction n as [|n IH]; intros [|c s]; simpl; try lia.
    specialize (IH s). lia.
  Qed.

Lemma length_take_ge n s :
    (n ≤ String.length s)%nat → String.length (Py.take n s) = n.
  Proof.
    unfold Py.take. revert s.
    induction n as [|n IH]; intros [|c s]; simpl; intros H; try lia.
    rewrite IH; lia.
  Qed.

Lemma length_rstrip p s : (String.length (Py.rstrip p s) ≤ String.length s)%nat.
  Proof.
    induction s as [|c s IH]; simpl; [lia|].
    destruct (Py.rstrip p s) as [|d r]; simpl in *.
    - destruct (p c); simpl; lia.
    - lia.
  Qed.

Lemma length_hex8 w t :
    String.length (Sha256.hex8 w t) = (8 + String.length t)%nat.
  Proof. reflexivity. Qed.

Lemma length_hexdigest s : String.length (Sha256.hexdigest s) = 64%nat.
  Proof. unfold Sha256.hexdigest. now rewrite !length_hex8. Qed.

Lemma length_hash_suffix s : String.length (hash_suffix s) = 10%nat.
  Proof.
    unfold hash_suffix. apply length_take_ge. rewrite length_hexdigest. lia.
  Qed.

Lemma app_inv_head s t1 t2 : s +:+ t1 = s +:+ t2 → t1 = t2.
  Proof. induction s as [|c s IH]; simpl; intros H; [exact H|]. inversion H. auto. Qed.

  (** On a string without neighbouring outsiders the regular expression
      replaces character by character. *)
Lemma re_sub_go_replace_each s :
    no_adjacent_outside s = true →
    re_sub_go false s = replace_each s
    ∧ (match s with
       | String c _ => name_char c = true → re_sub_go true s = replace_each s
       | EmptyString => True
       end).
  Proof.
    induction s as [|c s IH]; [easy|].
    intros H. destruct s as [|d r].
    - simpl. destruct (name_char c); split; intros; (reflexivity || discriminate).
    - change (((name_char c || name_char d) && no_adjacent_outside (String d r))%bool = true) in H.
      apply andb_true_iff in H as [Hcd Hr].
      destruct (IH Hr) as [IH1 IH2].
      cbn [re_sub_go replace_each] in *.
      destruct (name_char c) eqn:Hc; simpl in Hcd.
      + split; [|intros _]; now rewrite IH1.
      + split; [|discriminate]. rewrite Hcd in *. now rewrite IH2.
  Qed.

Lemma re_sub_replace_each s :
    no_adjacent_outside s = true → re_sub s = replace_each s.
  Proof. intros H. apply re_sub_go_replace_each, H. Qed.

End StringFacts.

(** ** The hash annotation name *)

Lemma truthy_nonempty s : Py.truthy s = true ↔ s ≠ EmptyString.
Proof. destruct s; simpl; split; congruence. Qed.

Lemma length_trimmed_name m : (String.length (trimmed_name m) ≤ 40)%nat.
Proof.
  unfold trimmed_name. rewrite length_hash_suffix.
  destruct (Py.truthy _); [|simpl; lia].
  etransitivity; [apply length_rstrip|].
  etransitivity; [apply length_take|]. simpl. lia.
Qed.

Lemma normalized_name_slug m :
  no_adjacent_outside m = true → slug_spec m ≠ EmptyString →
  normalized_name m = slug_spec m.
Proof.
  intros Hadj Hne. unfold normalized_name, slug_spec in *.
  rewrite re_sub_replace_each by assumption.
  apply truthy_nonempty in Hne. now rewrite Hne.
Qed.

Lemma annotation_name_long m :
  (63 < String.length ("config-hash-" +:+ normalized_name m))%nat →
  config_hash_annotation_name m
  = "config-hash-" +:+ trimmed_name m +:+ "-" +:+ hash_suffix m.
Proof.
  intros Hx. unfold config_hash_annotation_name.
  destruct (Z.ltb_spec 63 (Z.of_nat (String.length
                                       ("config-hash-" +:+ normalized_name m))));
    [reflexivity | lia].
Qed.

Lemma lstrip_head p s c r : Py.lstrip p s = String c r → p c = false.
Proof.
  induction s as [|x s IH]; cbn; [discriminate|].
  destruct (p x) eqn:Hx; [exact IH|]. now intros [= <- <-].
Qed.

Lemma rstrip_head p s c r :
  Py.rstrip p s = String c r → ∃ r', s = String c r'.
Proof.
  destruct s as [|x s]; cbn; [discriminate|].
  destruct (Py.rstrip p s); [destruct (p x)|]; intros [= <- <-]; eauto.
Qed.

Lemma rstrip_keeps_head p c r :
  p c = false → Py.rstrip p (String c r) ≠ EmptyString.
Proof.
  intros Hc. cbn. destruct (Py.rstrip p r); [rewrite Hc|]; discriminate.
Qed.

(** The kept part of a slug that is not empty is not empty: the slug starts
    with a character that is not trimmed. *)
Lemma kept_nonempty m :
  slug_spec m ≠ EmptyString →
  Py.rstrip dash_dot (Py.take 40 (slug_spec m)) ≠ EmptyString.
Proof.
  intros Hne. destruct (slug_spec m) as [|c r] eqn:Hs; [contradiction|].
  unfold slug_spec, Py.strip in Hs.
  destruct (rstrip_head _ _ _ _ Hs) as (r' & Hl).
  apply lstrip_head in Hl.
  change (Py.take 40 (String c r)) with (String c (Py.take 39 r)).
  now apply rstrip_keeps_head.
Qed.

(** C8, as the code has it, for a name [m] in which no two neighbouring
    characters lie outside [[A-Za-z0-9_.-]] and whose slug (every character
    outside the class replaced by a dash, then the dashes and dots at both
    ends removed) is not empty.  The local name is [config-hash-<slug>]
    while that fits in 63 characters.  Otherwise it has at most 63
    characters and is [config-hash-<kept>-<digest>], the kept part being
    the first 40 characters of the slug without the dashes and dots at
    their end, the digest the first ten hexadecimal digits of the SHA-256
    of [m]; and two such names with the same kept part get the same
    annotation name exactly when their ten digits agree. *)
Theorem C8_hash_annotation_name (m : string) :
  no_adjacent_outside m = true → slug_spec m ≠ EmptyString →
  let short := "config-hash-" +:+ slug_spec m in
  let digest10 := Py.take 10 (Sha256.hexdigest m) in
  let kept := Py.rstrip dash_dot (Py.take 40 (slug_spec m)) in
  ((String.length short ≤ 63)%nat → config_hash_annotation_name m = short)
  ∧ ((63 < String.length short)%nat →
     config_hash_annotation_name m
       = "config-hash-" +:+ kept +:+ "-" +:+ digest10
     ∧ String.length digest10 = 10%nat
     ∧ (String.length (config_hash_annotation_name m) ≤ 63)%nat)
  ∧ (∀ m', no_adjacent_outside m' = true → slug_spec m' ≠ EmptyString →
       (63 < String.length short)%nat →
       (63 < String.length ("config-hash-" +:+ slug_spec m'))%nat →
       kept = Py.rstrip dash_dot (Py.take 40 (slug_spec m')) →
       (config_hash_annotation_name m = config_hash_annotation_name m'
        ↔ digest10 = Py.take 10 (Sha256.hexdigest m'))).
Proof.
  intros Hadj Hne short digest10 kept.
  assert (Hkept : ∀ x, no_adjacent_outside x = true → slug_spec x ≠ EmptyString →
            trimmed_name x = Py.rstrip dash_dot (Py.take 40 (slug_spec x))).
  { intros x Hx1 Hx2. unfold trimmed_name.
    rewrite length_hash_suffix, (normalized_name_slug x Hx1 Hx2).
    change (Z.to_nat _) with 40%nat.
    pose proof (kept_nonempty x Hx2) as Hk. apply truthy_nonempty in Hk.
    now rewrite Hk. }
  assert (Hlong : ∀ x, no_adjacent_outside x = true → slug_spec x ≠ EmptyString →
            (63 < String.length ("config-hash-" +:+ slug_spec x))%nat →
            config_hash_annotation_name x
            = "config-hash-"
              +:+ Py.rstrip dash_dot (Py.take 40 (slug_spec x))
              +:+ "-" +:+ Py.take 10 (Sha256.hexdigest x)).
  { intros x Hx1 Hx2 Hx3. rewrite <- (Hkept x Hx1 Hx2).
    apply annotation_name_long. now rewrite (normalized_name_slug x Hx1 Hx2). }
  split; [|split].
  - intros Hle. unfold config_hash_annotation_name.
    rewrite (normalized_name_slug m Hadj Hne). fold short.
    destruct (Z.ltb_spec 63 (Z.of_nat (String.length short)));
      [lia | reflexivity].
  - intros H. split; [now apply Hlong|]. split; [apply length_hash_suffix|].
    rewrite (Hlong m Hadj Hne H), <- (Hkept m Hadj Hne).
    rewrite !length_app. fold (hash_suffix m). rewrite length_hash_suffix.
    pose proof (length_trimmed_name m). simpl. lia.
  - intros m' Hadj' Hne' H H' Hk.
    rewrite (Hlong m Hadj Hne H), (Hlong m' Hadj' Hne' H').
    fold kept digest10. rewrite <- Hk. split.
    + intros Heq. now apply app_inv_head, app_inv_head, app_inv_head in Heq.
    + now intros ->.
Qed.

Lemma C8_hash_annotation_name_witness :
  let m := "shipshape-helloworld-application-config-v00000002879" in
  let short := "config-hash-" +:+ slug_spec m in
  let digest10 := Py.take 10 (Sha256.hexdigest m) in
  let kept := Py.rstrip dash_dot (Py.take 40 (slug_spec m)) in
  ((String.length short ≤ 63)%nat → config_hash_annotation_name m = short)
  ∧ ((63 < String.length short)%nat →
     config_hash_annotation_name m
       = "config-hash-" +:+ kept +:+ "-" +:+ digest10
     ∧ String.length digest10 = 10%nat
     ∧ (String.length (config_hash_annotation_name m) ≤ 63)%nat)
  ∧ (∀ m', no_adjacent_outside m' = true → slug_spec m' ≠ EmptyString →
       (63 < String.length short)%nat →
       (63 < String.length ("config-hash-" +:+ slug_spec m'))%nat →
       kept = Py.rstrip dash_dot (Py.take 40 (slug_spec m')) →
       (config_hash_annotation_name m = config_hash_annotation_name m'
        ↔ digest10 = Py.take 10 (Sha256.hexdigest m'))).
Proof.
  apply (C8_hash_annotation_name
           "shipshape-helloworld-application-config-v00000002879").
  - vm_compute. reflexivity.
  - vm_compute. discriminate.
Defined.

(** C8 as worded fails: two distinct long names with the same kept part
    whose digests share their first ten digits get the same annotation
    name. *)
Lemma C8_counterexample :
  let m1 := "shipshape-helloworld-application-config-v00000002879" in
  let m2 := "shipshape-helloworld-application-config-v00001419127" in
  String.eqb m1 m2 = false
  ∧ no_adjacent_outside m1 = true ∧ no_adjacent_outside m2 = true
  ∧ slug_spec m1 = m1 ∧ slug_spec m2 = m2
  ∧ (63 <? Z.of_nat (String.length ("config-hash-" +:+ slug_spec m1))) = true
  ∧ (63 <? Z.of_nat (String.length ("config-hash-" +:+ slug_spec m2))) = true
  ∧ Py.rstrip dash_dot (Py.take 40 (slug_spec m1))
    = Py.rstrip dash_dot (Py.take 40 (slug_spec m2))
  ∧ Py.take 10 (Sha256.hexdigest m1) = "7ec29df5ef"
  ∧ Py.take 10 (Sha256.hexdigest m2) = "7ec29df5ef"
  ∧ config_hash_annotation_name m1
    = "config-hash-shipshape-helloworld-application-config-7ec29df5ef"
  ∧ config_hash_annotation_name m2
    = "config-hash-shipshape-helloworld-application-config-7ec29df5ef".
Proof. vm_compute. repeat split. Qed.

(** On a name with neighbouring characters outside the class the regular
    expression puts one dash for the run, where replacing character by
    character puts one for each. *)
Example run_of_outside_characters :
  config_hash_annotation_name "a  b" = "config-hash-a-b"
  ∧ "config-hash-" +:+ slug_spec "a  b" = "config-hash-a--b".
Proof. vm_compute. split; reflexivity. Qed.

(** ** The rollout timestamp *)

Example rfc3339_docstring :
  utc_now_rfc3339 (DateTime 2024 1 15 8 30 0 123456) = "2024-01-15T08:30:00Z".
Proof. vm_compute. reflexivity. Qed.

Example isoformat_fraction :
  isoformat (DateTime 2024 1 15 8 30 0 123456)
  = "2024-01-15T08:30:00.123456+00:00".
Proof. vm_compute. reflexivity. Qed.

Section Rfc3339.

Lemma digit_char_code d :
    0 ≤ d < 10 → N_of_ascii (digit_char d) = (48 + Z.to_N d)%N.
  Proof. intros H. unfold digit_char. apply N_ascii_embedding. lia. Qed.

Lemma digit_char_not_plus d : 0 ≤ d < 10 → digit_char d ≠ "+"%char.
  Proof.
    intros H E. apply (f_equal N_of_ascii) in E.
    rewrite digit_char_code in E by assumption. simpl in E. lia.
  Qed.

Lemma replace_go_other old new c c' r :
    c ≠ c' →
    replace_go (String c' old) new 0 (String c r)
    = String c (replace_go (String c' old) new 0 r).
  Proof.
    intros Hne. cbn [replace_go String.prefix].
    destruct (ascii_dec c' c); [congruence | reflexivity].
  Qed.

Lemma replace_go_pad_dec old new w n tl :
    replace_go (String "+" old) new 0 (pad_dec w n tl)
    = pad_dec w n (replace_go (String "+" old) new 0 tl).
  Proof.
    revert n tl. induction w as [|w IH]; intros n tl; [reflexivity|].
    cbn [pad_dec]. rewrite IH. f_equal.
    apply replace_go_other, digit_char_not_plus, Z.mod_pos_bound. lia.
  Qed.

  (** The printed form: six zero-padded fields and the [Z]. *)
Lemma utc_now_rfc3339_fields t :
    utc_now_rfc3339 t
    = pad_dec 4 (year t) (String "-" (pad_dec 2 (month t) (String "-"
        (pad_dec 2 (day t) (String "T" (pad_dec 2 (hour t) (String ":"
          (pad_dec 2 (minute t) (String ":" (pad_dec 2 (second t) "Z")))))))))).
  Proof.
    unfold utc_now_rfc3339, str_replace, isoformat. cbn [replace_microsecond
      year month day hour minute second microsecond].
    repeat (rewrite replace_go_pad_dec
            || (rewrite replace_go_other by discriminate)).
    reflexivity.
  Qed.

Lemma lex_div_mod a b k :
    0 ≤ a → 0 ≤ b →
    lex (a / 10 ?= b / 10) (lex (a mod 10 ?= b mod 10) k) = lex (a ?= b) k.
  Proof.
    intros Ha Hb.
    pose proof (Z.div_mod a 10 ltac:(lia)). pose proof (Z.div_mod b 10 ltac:(lia)).
    pose proof (Z.mod_pos_bound a 10 ltac:(lia)).
    pose proof (Z.mod_pos_bound b 10 ltac:(lia)).
    destruct (Z.compare_spec (a / 10) (b / 10)) as [E|E|E];
      destruct (Z.compare_spec (a mod 10) (b mod 10)) as [F|F|F];
      destruct (Z.compare_spec a b) as [G|G|G]; simpl; try reflexivity; lia.
  Qed.

Lemma ascii_compare_digit a b :
    0 ≤ a < 10 → 0 ≤ b < 10 →
    Ascii.compare (digit_char a) (digit_char b) = (a ?= b).
  Proof.
    intros Ha Hb. unfold Ascii.compare. rewrite !digit_char_code by assumption.
    destruct (Z.compare_spec a b) as [E|E|E];
      [apply N.compare_eq_iff | apply N.compare_lt_iff | apply N.compare_gt_iff]; lia.
  Qed.

Lemma compare_pad_dec w : ∀ a b s1 s2,
    0 ≤ a < 10 ^ Z.of_nat w → 0 ≤ b < 10 ^ Z.of_nat w →
    String.compare (pad_dec w a s1) (pad_dec w b s2)
    = lex (a ?= b) (String.compare s1 s2).
  Proof.
    induction w as [|w IH]; intros a b s1 s2 Ha Hb.
    - simpl in *. assert (a = 0) as -> by lia. assert (b = 0) as -> by lia.
      reflexivity.
    - rewrite Nat2Z.inj_succ, Z.pow_succ_r in Ha, Hb by lia.
      cbn [pad_dec]. rewrite IH.
      + cbn [String.compare].
        rewrite ascii_compare_digit by (apply Z.mod_pos_bound; lia).
        change (match a mod 10 ?= b mod 10 with
                | Eq => String.compare s1 s2 | ne => ne end)
          with (lex (a mod 10 ?= b mod 10) (String.compare s1 s2)).
        apply lex_div_mod; lia.
      + split; [apply Z.div_pos; lia | apply Z.div_lt_upper_bound; lia].
      + split; [apply Z.div_pos; lia | apply Z.div_lt_upper_bound; lia].
  Qed.

Lemma compare_same_head c s1 s2 :
    String.compare (String c s1) (String c s2) = String.compare s1 s2.
  Proof.
    cbn [String.compare]. unfold Ascii.compare. now rewrite N.compare_refl.
  Qed.

Lemma compare_refl s : String.compare s s = Eq.
  Proof. induction s as [|c s IH]; [reflexivity|]. now rewrite compare_same_head. Qed.

Lemma lex_eq_r c : lex c Eq = c.
  Proof. now destruct c. Qed.

  (** Comparing two timestamps as strings compares their whole seconds. *)
Lemma compare_utc_now_rfc3339 t1 t2 :
    valid_datetime t1 → valid_datetime t2 →
    String.compare (utc_now_rfc3339 t1) (utc_now_rfc3339 t2)
    = second_compare t1 t2.
  Proof.
    intros (Hy1 & Hm1 & Hd1 & Hh1 & Hmi1 & Hs1 & _)
           (Hy2 & Hm2 & Hd2 & Hh2 & Hmi2 & Hs2 & _).
    rewrite !utc_now_rfc3339_fields. unfold second_compare.
    repeat (rewrite compare_pad_dec by (simpl; lia);
            rewrite ?compare_same_head).
    now rewrite lex_eq_r.
  Qed.

Lemma datetime_compare_seconds t1 t2 :
    datetime_compare t1 t2 = Lt →
    second_compare t1 t2 = Lt ∨ second_compare t1 t2 = Eq.
  Proof.
    unfold datetime_compare, second_compare.
    destruct (year t1 ?= year t2), (month t1 ?= month t2),
      (day t1 ?= day t2), (hour t1 ?= hour t2), (minute t1 ?= minute t2),
      (second t1 ?= second t2); simpl; auto; discriminate.
  Qed.

End Rfc3339.

(** For two clock readings [t1] before [t2] the timestamps never decrease
    as strings; they increase strictly exactly when the readings lie in
    different seconds, and are the same string exactly when they lie in the
    same second. *)
Lemma utc_now_rfc3339_monotone (t1 t2 : datetime) :
  valid_datetime t1 → valid_datetime t2 →
  datetime_compare t1 t2 = Lt →
  String.leb (utc_now_rfc3339 t1) (utc_now_rfc3339 t2) = true
  ∧ (String.ltb (utc_now_rfc3339 t1) (utc_now_rfc3339 t2) = true
     ↔ second_compare t1 t2 = Lt)
  ∧ (utc_now_rfc3339 t1 = utc_now_rfc3339 t2 ↔ second_compare t1 t2 = Eq).
Proof.
  intros V1 V2 Hlt.
  pose proof (compare_utc_now_rfc3339 t1 t2 V1 V2) as Hc.
  pose proof (String.compare_eq_iff (utc_now_rfc3339 t1) (utc_now_rfc3339 t2))
    as Heq.
  unfold String.leb, String.ltb. rewrite Hc in *.
  destruct (datetime_compare_seconds t1 t2 Hlt) as [E | E]; rewrite E in *.
  - split; [reflexivity|]. split; [tauto|].
    split; [intros H; rewrite H, compare_refl in Hc; discriminate | discriminate].
  - split; [reflexivity|]. split; [split; discriminate|].
    split; [reflexivity | intros _; now apply Heq].
Qed.

Example rfc3339_same_second :
  let t1 := DateTime 2024 1 15 8 30 0 100000 in
  let t2 := DateTime 2024 1 15 8 30 0 900000 in
  datetime_compare t1 t2 = Lt
  ∧ utc_now_rfc3339 t1 = "2024-01-15T08:30:00Z"
  ∧ utc_now_rfc3339 t2 = "2024-01-15T08:30:00Z".
Proof. vm_compute. repeat split. Qed.

(** ** The leader elector *)

Section LeaderFacts.
Import Leader.

(** A Lease that another replica released, read before it has expired, is
    left as it is: the cycle does not acquire. *)
Lemma released_lease_not_acquired (a b : LeaseLeaderElector)
    (s : V1LeaseSpec) (renew now : instant) :
  holder_identity s = Some (identity a) →
  renew_time s = Some renew →
  now - renew
    < or_else (lease_duration_seconds s) (self_lease_duration_seconds b) * 1000000 →
  let c := _release_lease a None None (Some (Lease (Some s))) in
  c = Some (Lease (Some (LeaseSpec None (lease_duration_seconds s)
                                   (acquire_time s) (Some renew))))
  ∧ _try_acquire_or_renew b now None None c = (Ret false, c).
Proof.
  intros Hh Hr Hlt. cbn zeta.
  assert (Hc : _release_lease a None None (Some (Lease (Some s)))
               = Some (Lease (Some (LeaseSpec None (lease_duration_seconds s)
                                              (acquire_time s) (Some renew))))).
  { unfold _release_lease. cbn. rewrite Hh, Hr.
    destruct (decide _) as [_|Hne]; [reflexivity | congruence]. }
  rewrite Hc. split; [reflexivity|].
  unfold _try_acquire_or_renew. cbn.
  destruct (decide _) as [Heq|_]; [discriminate|].
  apply Z.ltb_lt in Hlt. now rewrite Hlt.
Qed.

End LeaderFacts.

(** C1, on the code.  Replica [pod-1] leads, renewed the Lease at second 100
    and shuts down cleanly at second 102; replica [pod-2] runs its next cycle
    at second 103, well within the 15 seconds of the lease.  The release
    cleared the holder and kept the renewal time, and the cycle of [pod-2]
    returns [False]: it does not acquire before the lease has run out, at
    second 115. *)
Theorem C1_takeover_after_release_waits :
  let pod1 := Leader.Elector "pod-1" 15 10 2 true in
  let pod2 := Leader.Elector "pod-2" 15 10 2 false in
  let held :=
    Some (Leader.Lease (Some (Leader.LeaseSpec (Some "pod-1") (Some 15)
                                (Some 90000000) (Some 100000000)))) in
  let '(pod1', stopped, released) := Leader.run_shutdown pod1 None None held in
  Leader._is_leader pod1' = false ∧ stopped = true
  ∧ released
    = Some (Leader.Lease (Some (Leader.LeaseSpec None (Some 15)
                                  (Some 90000000) (Some 100000000))))
  ∧ Leader._try_acquire_or_renew pod2 103000000 None None released
    = (Ret false, released)
  ∧ Leader._try_acquire_or_renew pod2 114999999 None None released
    = (Ret false, released)
  ∧ fst (Leader._try_acquire_or_renew pod2 115000000 None None released)
    = Ret true.
Proof. vm_compute. repeat split. Qed.

(** ** The engine on the scenarios of the specification *)

Section Scenarios.
Import Demo.

Let handle := handle_configmap_event selects json_dumps (cfg 60).
Let world := engine 100 [deployment "helloworld" "test"] [].

(** Scenario 1: the seeding [ADDED] restarts nothing, the [MODIFIED] with
    new data patches the one Deployment with both annotations. *)
Example scenario_meaningful_change :
  let '(r1, s1) := handle "ADDED" (configmap "test" "hello") world in
  let '(r2, s2) := handle "MODIFIED" (configmap "test" "world") s1 in
  r1 = Ret None ∧ trace s1 = []
  ∧ r2 = Ret (Some (Result "test" 1 1 0))
  ∧ trace s2
    = [ RestartAttempt "test" "helloworld-config";
        ListDeployments "app=helloworld,env=test" None;
        PatchDeployment "helloworld"
          {[ "shipshape.io/restartedAt" := "2024-01-15T12:00:00Z";
             "shipshape.io/config-hash-helloworld-config"
               := current_hash_of json_dumps (configmap "test" "world") ]}
          None ]
  ∧ _last_restart s2 !! key = Some (seconds 100).
Proof. vm_compute. repeat split. Qed.

End Scenarios.

(** ** Insertion-ordered dictionaries *)

Section ODictFacts.
Context {K V : Type} `{EqDecision K}.
Implicit Types (d : list (K * V)) (k : K) (v : V).

Lemma odict_get_set_eq k v d : ODict.get k (ODict.set k v d) = Some v.
Proof.
  induction d as [|[k' v'] d IH]; simpl.
  - now rewrite decide_True.
  - destruct (decide (k = k')) as [->|Hne]; simpl.
    + now rewrite decide_True.
    + now rewrite decide_False.
Qed.

Lemma odict_get_set_ne k k' v d :
  k ≠ k' → ODict.get k' (ODict.set k v d) = ODict.get k' d.
Proof.
  intros Hne. induction d as [|[k0 v0] d IH]; simpl.
  - rewrite decide_False; [reflexivity | congruence].
  - destruct (decide (k = k0)) as [->|H0]; simpl.
    + rewrite !decide_False; [reflexivity | congruence | congruence].
    + destruct (decide (k' = k0)); [reflexivity | exact IH].
Qed.

Lemma odict_get_pop_eq k d : ODict.get k (ODict.pop k d) = None.
Proof.
  induction d as [|[k' v'] d IH]; simpl; [reflexivity|].
  destruct (decide (k = k')) as [->|Hne]; simpl; [exact IH|].
  now rewrite decide_False.
Qed.

Lemma odict_get_pop_ne k k' d :
  k ≠ k' → ODict.get k' (ODict.pop k d) = ODict.get k' d.
Proof.
  intros Hne. induction d as [|[k0 v0] d IH]; simpl; [reflexivity|].
  destruct (decide (k = k0)) as [->|H0]; simpl.
  - rewrite decide_False; [exact IH | congruence].
  - destruct (decide (k' = k0)); [reflexivity | exact IH].
Qed.

Lemma odict_get_None k d : ODict.get k d = None ↔ k ∉ ODict.keys d.
Proof.
  unfold ODict.keys. induction d as [|[k' v'] d IH]; simpl.
  - split; [intros _; apply not_elem_of_nil | reflexivity].
  - rewrite not_elem_of_cons. destruct (decide (k = k')) as [->|Hne].
    + split; [discriminate | intros [? _]; congruence].
    + rewrite IH. tauto.
Qed.

Lemma odict_keys_pop k d k' :
  k' ∈ ODict.keys (ODict.pop k d) ↔ k' ∈ ODict.keys d ∧ k' ≠ k.
Proof.
  unfold ODict.keys. induction d as [|[k0 v0] d IH]; simpl.
  - rewrite elem_of_nil. tauto.
  - destruct (decide (k = k0)) as [->|Hne]; simpl;
      rewrite ?elem_of_cons, IH; [|intuition congruence].
    split; [intros [? ?]; auto | intros [[->|?] ?]; [congruence | auto]].
Qed.

Lemma odict_keys_set k v d k' :
  k' ∈ ODict.keys (ODict.set k v d) ↔ k' = k ∨ k' ∈ ODict.keys d.
Proof.
  unfold ODict.keys. induction d as [|[k0 v0] d IH]; simpl.
  - rewrite list_elem_of_singleton, elem_of_nil. tauto.
  - destruct (decide (k = k0)) as [->|Hne]; simpl;
      rewrite ?elem_of_cons, ?IH; tauto.
Qed.

Lemma odict_wf_set k v d : ODict.wf d → ODict.wf (ODict.set k v d).
Proof.
  unfold ODict.wf. induction d as [|[k0 v0] d IH]; simpl; intros Hd.
  - apply NoDup_singleton.
  - apply NoDup_cons in Hd as [Hin Hd].
    destruct (decide (k = k0)) as [->|Hne]; simpl.
    + apply NoDup_cons; auto.
    + apply NoDup_cons. split; [|auto].
      intros Hin'. apply (odict_keys_set k v d k0) in Hin' as [?|?];
        [congruence | contradiction].
Qed.

Lemma odict_wf_pop k d : ODict.wf d → ODict.wf (ODict.pop k d).
Proof.
  unfold ODict.wf. induction d as [|[k0 v0] d IH]; simpl; intros Hd.
  - apply NoDup_nil_2.
  - apply NoDup_cons in Hd as [Hin Hd].
    destruct (decide (k = k0)) as [->|Hne]; simpl; [auto|].
    apply NoDup_cons. split; [|auto].
    intros Hin'. apply (odict_keys_pop k d k0) in Hin' as [? _]. contradiction.
Qed.

(** In a well-formed dictionary a key has at most one entry. *)
Lemma odict_wf_entries k d :
  ODict.wf d →
  (length (List.filter (λ kv, bool_decide (fst kv = k)) d) ≤ 1)%nat.
Proof.
  unfold ODict.wf, ODict.keys.
  induction d as [|[k0 v0] d IH]; simpl; intros Hd; [lia|].
  apply NoDup_cons in Hd as [Hin Hd]. specialize (IH Hd).
  case_bool_decide as Hk; simpl in *; [|exact IH].
  subst k0. enough (List.filter (λ kv, bool_decide (kv.1 = k)) d = []) as ->;
    [simpl; lia|].
  clear IH Hd. induction d as [|[k1 v1] d IH]; simpl; [reflexivity|].
  simpl in Hin. apply not_elem_of_cons in Hin as [Hne Hin].
  rewrite bool_decide_false by (simpl; congruence). auto.
Qed.

End ODictFacts.

(** ** Reasoning about computations *)

Section Steps.
Context {A : Type}.

(** Every run of [m] takes a state to one related to it by [R]. *)
Definition steps (R : relation State) (m : M A) : Prop :=
  ∀ s, R s (snd (m s)).

End Steps.

Section StepRules.
Context (R : relation State) `{!PreOrder R}.

Lemma steps_ret {A} (a : A) : steps R (ret a).
Proof. intros s. reflexivity. Qed.

Lemma steps_raise {A} (e : exn) : steps R (raise e : M A).
Proof. intros s. reflexivity. Qed.

Lemma steps_gets {A} (f : State → A) : steps R (gets f).
Proof. intros s. reflexivity. Qed.

Lemma steps_modify (f : State → State) :
  (∀ s, R s (f s)) → steps R (modify f).
Proof. intros H s. apply H. Qed.

Lemma steps_bind {A B} (m : M A) (f : A → M B) :
  steps R m → (∀ a, steps R (f a)) → steps R (bind m f).
Proof.
  intros Hm Hf s. unfold bind. specialize (Hm s).
  destruct (m s) as [[a|e] s1]; simpl in *; [|exact Hm].
  etransitivity; [exact Hm | apply Hf].
Qed.

Lemma steps_try_with {A} (m : M A) (h : exn → M A) :
  steps R m → (∀ e, steps R (h e)) → steps R (try_with m h).
Proof.
  intros Hm Hh s. unfold try_with. specialize (Hm s).
  destruct (m s) as [[a|e] s1]; simpl in *; [exact Hm|].
  etransitivity; [exact Hm | apply Hh].
Qed.

Lemma steps_for_each {A} (l : list A) (body : A → M unit) :
  (∀ x, steps R (body x)) → steps R (for_each l body).
Proof.
  intros Hb. induction l as [|x l IH]; simpl.
  - apply steps_ret.
  - apply steps_bind; auto.
Qed.

Lemma steps_on_api_exception {A} (v : A) (e : exn) :
  steps R (on_api_exception v e).
Proof. destruct e; intros s; reflexivity. Qed.

End StepRules.

(** Decompose a computation along its binds, handlers and case
    distinctions; what is left are the state updates and the calls. *)
Create HintDb steps.

Ltac steps_tc := try match goal with |- PreOrder _ => apply _ end.
Ltac steps_step :=
  first
    [ solve [auto with steps nocore]
    | apply steps_ret; steps_tc | apply steps_raise; steps_tc
    | apply steps_gets; steps_tc
    | apply steps_on_api_exception; steps_tc
    | apply steps_bind; steps_tc; [| intros ?]
    | apply steps_try_with; steps_tc; [| intros ?]
    | apply steps_for_each; steps_tc; intros ?
    | match goal with
      | |- steps _ (match ?x with _ => _ end) => destruct x
      | |- steps _ (if ?x then _ else _) => destruct x
      end ].
Ltac steps_auto := repeat steps_step.

(** ** The restart executor touches the cluster only *)

#[local] Instance same_engine_preorder : PreOrder same_engine.
Proof.
  split.
  - intros s. repeat split.
  - intros s1 s2 s3 (?&?&?&?&?&?&?) (?&?&?&?&?&?&?).
    repeat split; congruence.
Qed.

#[local] Instance trace_grows_preorder P : PreOrder (trace_grows P).
Proof.
  split.
  - intros s. exists []. rewrite app_nil_r. auto.
  - intros s1 s2 s3 (l1 & E1 & F1) (l2 & E2 & F2). exists (l1 ++ l2).
    rewrite E2, E1, app_assoc. split; [reflexivity | now apply Forall_app].
Qed.

Section ExecutorFrames.
Variable selects : string → gmap string string → bool.
Variable json_dumps : gmap string string → string.
Variable cfg : Config.

Lemma next_reply_same_engine : steps same_engine next_reply.
Proof.
  intros s. unfold next_reply. destruct (replies s); repeat split.
Qed.

Lemma log_call_same_engine c : steps same_engine (log_call c).
Proof. intros s. repeat split. Qed.

Hint Resolve next_reply_same_engine log_call_same_engine : steps.

Lemma list_deployments_same_engine sel :
  steps same_engine (list_namespaced_deployment selects sel).
Proof. unfold list_namespaced_deployment. steps_auto. Qed.

Lemma patch_deployment_same_engine n b :
  steps same_engine (patch_namespaced_deployment n b).
Proof.
  unfold patch_namespaced_deployment. steps_auto.
  apply steps_modify. intros s. repeat split.
Qed.

Lemma patch_restart_same_engine n k ts extra :
  steps same_engine (patch_deployment_restart n k ts extra).
Proof. apply patch_deployment_same_engine. Qed.

Hint Resolve list_deployments_same_engine patch_restart_same_engine : steps.

Lemma restart_loop_same_engine ts h hk items r f :
  steps same_engine (restart_loop cfg ts h hk items r f).
Proof.
  revert r f. induction items as [|d items IH]; intros r f; simpl.
  - apply steps_ret, _.
  - steps_auto; apply IH.
Qed.

Hint Resolve restart_loop_same_engine : steps.

Lemma executor_same_engine env name :
  steps same_engine (_restart_deployments_for_env selects cfg env name).
Proof. unfold _restart_deployments_for_env. steps_auto. Qed.

End ExecutorFrames.

#[local] Hint Resolve next_reply_same_engine log_call_same_engine
  list_deployments_same_engine patch_restart_same_engine
  restart_loop_same_engine executor_same_engine : steps.

(** ** The debounce queue *)

Section Debounce.
Variable selects : string → gmap string string → bool.
Variable cfg : Config.

Lemma schedule_pending_get env name now delay reset s :
  ODict.get (env, name)
    (_pending_restarts (_schedule_pending_restart env name now delay reset s))
  = Some (match ODict.get (env, name) (_pending_restarts s) with
          | Some existing => Z.max existing (now + delay)
          | None => now + delay
          end).
Proof.
  unfold _schedule_pending_restart.
  destruct (ODict.get (env, name) (_pending_restarts s)) as [e|] eqn:He.
  - destruct (Z.ltb_spec e (now + delay)); destruct reset; simpl;
      rewrite ?odict_get_set_eq, ?He; f_equal; lia.
  - destruct reset; simpl; now rewrite odict_get_set_eq.
Qed.

Lemma schedule_pending_other env name now delay reset s k :
  k ≠ (env, name) →
  ODict.get k
    (_pending_restarts (_schedule_pending_restart env name now delay reset s))
  = ODict.get k (_pending_restarts s).
Proof.
  intros Hne. unfold _schedule_pending_restart.
  destruct (ODict.get (env, name) (_pending_restarts s)) as [e|];
    [destruct (e <? now + delay)|]; destruct reset; simpl;
    rewrite ?odict_get_set_ne; auto.
Qed.

Lemma schedule_pending_wf env name now delay reset s :
  ODict.wf (_pending_restarts s) →
  ODict.wf (_pending_restarts
              (_schedule_pending_restart env name now delay reset s)).
Proof.
  intros Hwf. unfold _schedule_pending_restart.
  destruct (ODict.get (env, name) (_pending_restarts s)) as [e|];
    [destruct (e <? now + delay)|]; destruct reset; simpl;
    auto using odict_wf_set.
Qed.

Lemma schedule_pending_retry env name now delay s :
  _pending_retry_attempts
    (_schedule_pending_restart env name now delay true s) !! (env, name)
  = None.
Proof.
  unfold _schedule_pending_restart.
  destruct (ODict.get (env, name) (_pending_restarts s)) as [e|];
    [destruct (e <? now + delay)|]; simpl; apply lookup_delete_eq.
Qed.

Lemma restart_or_defer_deferred supersede env name s :
  0 < _debounce_remaining cfg env name (monotonic s) s →
  restart_or_defer selects cfg supersede env name s
  = (Ret None,
     _schedule_pending_restart env name (monotonic s)
       (_debounce_remaining cfg env name (monotonic s) s) true s).
Proof.
  intros Hpos. unfold restart_or_defer, bind, gets, modify, ret. simpl.
  apply Z.ltb_lt in Hpos. now rewrite Hpos.
Qed.

End Debounce.

(** C4.  The queue holds one deadline per key at most.  An update on the
    debounce path leaves the queue so, stores for the key the later of the
    deadline it had and [now + remaining], clears the key's retry counter,
    never moves a stored deadline earlier, and leaves the other keys alone.
    A change met inside the debounce window is exactly such an update. *)
Theorem C4_pending_deadline_coalesces
    (env name : string) (now remaining : Z) (s : State) :
  ODict.wf (_pending_restarts s) →
  let k := (env, name) in
  let s' := _schedule_pending_restart env name now remaining true s in
  ODict.wf (_pending_restarts s')
  ∧ (length (List.filter (λ kv, bool_decide (fst kv = k))
                         (_pending_restarts s')) ≤ 1)%nat
  ∧ ODict.get k (_pending_restarts s')
    = Some (match ODict.get k (_pending_restarts s) with
            | Some existing => Z.max existing (now + remaining)
            | None => now + remaining
            end)
  ∧ _pending_retry_attempts s' !! k = None
  ∧ (∀ existing, ODict.get k (_pending_restarts s) = Some existing →
       ∃ due, ODict.get k (_pending_restarts s') = Some due ∧ existing ≤ due)
  ∧ (∀ k', k' ≠ k →
       ODict.get k' (_pending_restarts s') = ODict.get k' (_pending_restarts s))
  ∧ (∀ selects cfg supersede,
       0 < _debounce_remaining cfg env name (monotonic s) s →
       restart_or_defer selects cfg supersede env name s
       = (Ret None,
          _schedule_pending_restart env name (monotonic s)
            (_debounce_remaining cfg env name (monotonic s) s) true s)).
Proof.
  intros Hwf k s'. subst k s'.
  pose proof (schedule_pending_wf env name now remaining true s Hwf) as Hwf'.
  split; [exact Hwf'|].
  split; [now apply odict_wf_entries|].
  split; [apply schedule_pending_get|].
  split; [apply schedule_pending_retry|].
  split.
  { intros e He. rewrite schedule_pending_get, He.
    eexists; split; [reflexivity | lia]. }
  split; [intros k' Hk'; now apply schedule_pending_other|].
  intros selects cfg supersede. apply restart_or_defer_deferred.
Qed.

Lemma C4_pending_deadline_coalesces_witness :
  let s := set_pending_restarts (λ _, [(Demo.key, seconds 160)])
             (Demo.engine 105 [] []) in
  let k := Demo.key in
  let s' := _schedule_pending_restart "test" "helloworld-config"
              (seconds 105) (seconds 50) true s in
  ODict.wf (_pending_restarts s')
  ∧ (length (List.filter (λ kv, bool_decide (fst kv = k))
                         (_pending_restarts s')) ≤ 1)%nat
  ∧ ODict.get k (_pending_restarts s')
    = Some (match ODict.get k (_pending_restarts s) with
            | Some existing => Z.max existing (seconds 105 + seconds 50)
            | None => seconds 105 + seconds 50
            end)
  ∧ _pending_retry_attempts s' !! k = None
  ∧ (∀ existing, ODict.get k (_pending_restarts s) = Some existing →
       ∃ due, ODict.get k (_pending_restarts s') = Some due ∧ existing ≤ due)
  ∧ (∀ k', k' ≠ k →
       ODict.get k' (_pending_restarts s') = ODict.get k' (_pending_restarts s))
  ∧ (∀ selects cfg supersede,
       0 < _debounce_remaining cfg "test" "helloworld-config" (monotonic s) s →
       restart_or_defer selects cfg supersede "test" "helloworld-config" s
       = (Ret None,
          _schedule_pending_restart "test" "helloworld-config" (monotonic s)
            (_debounce_remaining cfg "test" "helloworld-config" (monotonic s) s)
            true s)).
Proof.
  apply (C4_pending_deadline_coalesces "test" "helloworld-config"
           (seconds 105) (seconds 50)).
  unfold ODict.wf. simpl. apply NoDup_singleton.
Defined.

Example coalescing_keeps_later_deadline :
  let s := set_pending_restarts (λ _, [(Demo.key, seconds 160)])
             (Demo.engine 105 [] []) in
  _pending_restarts
    (_schedule_pending_restart "test" "helloworld-config"
       (seconds 105) (seconds 50) true s)
  = [(Demo.key, seconds 160)]
  ∧ _pending_restarts
      (_schedule_pending_restart "test" "helloworld-config"
         (seconds 105) (seconds 58) true s)
    = [(Demo.key, seconds 163)].
Proof. vm_compute. split; reflexivity. Qed.

(** ** The event filter *)

Section EventFilter.
Variable selects : string → gmap string string → bool.
Variable json_dumps : gmap string string → string.
Variable cfg : Config.

(** What the guard of the event handler asks of a ConfigMap. *)
Lemma configmap_key_spec cm env name :
  configmap_key cfg cm = Some (env, name)
  ↔ ∃ metadata,
      cm_metadata cm = Some metadata
      ∧ _matches_app_labels cfg (default ∅ (meta_labels metadata)) = true
      ∧ default ∅ (meta_labels metadata) !! "env" = Some env
      ∧ env ≠ EmptyString
      ∧ meta_name metadata = Some name
      ∧ name ≠ EmptyString.
Proof.
  unfold configmap_key. split.
  - destruct (cm_metadata cm) as [md|]; [|discriminate].
    destruct (_matches_app_labels cfg _) eqn:Hm; [|discriminate]. simpl.
    destruct (_ !! "env") as [e|] eqn:He; [|discriminate].
    destruct (meta_name md) as [n|] eqn:Hn; [|discriminate].
    destruct e, n; simpl; try discriminate.
    intros [= <- <-]. exists md. repeat split; auto; discriminate.
  - intros (md & -> & -> & -> & He & -> & Hn). simpl.
    destruct env, name; simpl; congruence.
Qed.

Lemma set_last_data_hash_id k h s :
  _last_data_hash s !! k = Some h →
  set_last_data_hash (<[ k := h ]>) s = s.
Proof.
  intros H. destruct s. unfold set_last_data_hash. simpl in *.
  now rewrite insert_id.
Qed.

Lemma string_eqb_refl (x : string) : String.eqb x x = true.
Proof. apply String.eqb_refl. Qed.

End EventFilter.

(** C3.  An event of type [ADDED] or [MODIFIED] that passes the guard, for
    key [k] and with data hash [h]:
    - without a cached hash and of type [ADDED], it returns nothing and the
      final state is the initial one with [h] cached for [k], so nothing is
      restarted, queued or traced;
    - without a cached hash and of type [MODIFIED], it is the debounce
      decision, taken in the state with [h] cached;
    - with [h] cached already, it returns nothing and changes nothing. *)
Theorem C3_event_filter
    (selects : string → gmap string string → bool)
    (json_dumps : gmap string string → string) (cfg : Config)
    (event_type : string) (cm : V1ConfigMap) (env name : string) (s : State) :
  event_type = "ADDED" ∨ event_type = "MODIFIED" →
  configmap_key cfg cm = Some (env, name) →
  let k := (env, name) in
  let h := current_hash_of json_dumps cm in
  let seeded := set_last_data_hash (<[ k := h ]>) s in
  (_last_data_hash s !! k = None → event_type = "ADDED" →
     handle_configmap_event selects json_dumps cfg event_type cm s
     = (Ret None, seeded)
     ∧ trace seeded = trace s
     ∧ _pending_restarts seeded = _pending_restarts s
     ∧ deployments seeded = deployments s)
  ∧ (_last_data_hash s !! k = None → event_type = "MODIFIED" →
     handle_configmap_event selects json_dumps cfg event_type cm s
     = restart_or_defer selects cfg true env name seeded)
  ∧ (_last_data_hash s !! k = Some h →
     handle_configmap_event selects json_dumps cfg event_type cm s
     = (Ret None, s)).
Proof.
  intros Hty Hkey k h seeded.
  assert (Hgo : ∀ prev, _last_data_hash s !! k = prev →
            handle_configmap_event selects json_dumps cfg event_type cm s
            = (let meaningful :=
                 match prev with
                 | None => negb (String.eqb event_type "ADDED")
                 | Some p => negb (String.eqb p h)
                 end in
               if negb meaningful then (Ret None, seeded)
               else restart_or_defer selects cfg true env name seeded)).
  { intros prev Hprev. unfold handle_configmap_event.
    destruct Hty as [-> | ->]; simpl; rewrite Hkey;
      unfold bind, _has_meaningful_data_change, bind, gets, modify, ret;
      fold k; rewrite Hprev; destruct prev as [p|]; simpl;
      try (subst h; destruct (String.eqb p _)); reflexivity. }
  split; [|split].
  - intros Hnone ->. rewrite (Hgo None Hnone). split; [reflexivity|].
    repeat split.
  - intros Hnone ->. now rewrite (Hgo None Hnone).
  - intros Hsome. rewrite (Hgo (Some h) Hsome). cbv zeta.
    rewrite String.eqb_refl. cbn [negb]. subst seeded.
    now rewrite set_last_data_hash_id.
Qed.

Lemma C3_event_filter_witness :
  let cm := Demo.configmap "test" "hello" in
  let s := Demo.engine 100 [Demo.deployment "helloworld" "test"] [] in
  let k := ("test", "helloworld-config") in
  let h := current_hash_of Demo.json_dumps cm in
  let seeded := set_last_data_hash (<[ k := h ]>) s in
  (_last_data_hash s !! k = None → "ADDED" = "ADDED" →
     handle_configmap_event Demo.selects Demo.json_dumps (Demo.cfg 60) "ADDED" cm s
     = (Ret None, seeded)
     ∧ trace seeded = trace s
     ∧ _pending_restarts seeded = _pending_restarts s
     ∧ deployments seeded = deployments s)
  ∧ (_last_data_hash s !! k = None → "ADDED" = "MODIFIED" →
     handle_configmap_event Demo.selects Demo.json_dumps (Demo.cfg 60) "ADDED" cm s
     = restart_or_defer Demo.selects (Demo.cfg 60) true
         "test" "helloworld-config" seeded)
  ∧ (_last_data_hash s !! k = Some h →
     handle_configmap_event Demo.selects Demo.json_dumps (Demo.cfg 60) "ADDED" cm s
     = (Ret None, s)).
Proof.
  apply (C3_event_filter Demo.selects Demo.json_dumps (Demo.cfg 60) "ADDED"
           (Demo.configmap "test" "hello") "test" "helloworld-config").
  - left. reflexivity.
  - vm_compute. reflexivity.
Defined.

(** ** Retry bookkeeping *)

Section Retry.
Variable selects : string → gmap string string → bool.
Variable cfg : Config.

(** A restart without failure: the key was restarted [now] and has left the
    queue and the retry counters. *)
Lemma restart_and_record_success env name now force s r s1 :
  _restart_deployments_for_env selects cfg env name s = (Ret r, s1) →
  failed r = 0 →
  _restart_and_record selects cfg env name now force s
  = (Ret r, _mark_restart_executed env name now s1)
  ∧ _last_restart (_mark_restart_executed env name now s1) !! (env, name)
    = Some now
  ∧ ODict.get (env, name)
      (_pending_restarts (_mark_restart_executed env name now s1)) = None
  ∧ _pending_retry_attempts (_mark_restart_executed env name now s1)
      !! (env, name) = None.
Proof.
  intros Hex Hf. split.
  - unfold _restart_and_record, bind. rewrite Hex, Hf. reflexivity.
  - unfold _mark_restart_executed. simpl.
    rewrite lookup_insert_eq, odict_get_pop_eq, lookup_delete_eq. auto.
Qed.

(** A failed restart that is not forced, while the counter stays in the
    range of [float]: the counter goes up by one to [n], the key is due
    again after [min(30, 2^(n-1))] seconds, and the time of the last
    restart is the one it was. *)
Lemma restart_and_record_retry env name now s r s1 :
  _restart_deployments_for_env selects cfg env name s = (Ret r, s1) →
  failed r ≠ 0 →
  let k := (env, name) in
  let n := (default 0 (_pending_retry_attempts s !! k) + 1)%N in
  (n - 1 ≤ float_max_exponent)%N →
  ∃ s',
    _restart_and_record selects cfg env name now false s = (Ret r, s')
    ∧ _pending_retry_attempts s' !! k = Some n
    ∧ ODict.get k (_pending_restarts s')
      = Some (now + Z.min (seconds 30) (seconds (2 ^ Z.of_N (n - 1))))
    ∧ _last_restart s' = _last_restart s.
Proof.
  intros Hex Hf k n Hn.
  pose proof (executor_same_engine selects cfg env name s) as Hsame.
  rewrite Hex in Hsame. destruct Hsame as (Hlr & _ & _ & Hra & _).
  simpl in Hlr, Hra.
  unfold _restart_and_record, bind. rewrite Hex.
  apply Z.eqb_neq in Hf. rewrite Hf.
  unfold _schedule_retry, bind, gets, modify, ret. simpl.
  fold k. rewrite Hra. fold n.
  apply N.ltb_ge in Hn. rewrite Hn. eexists. split; [reflexivity|]. simpl.
  rewrite lookup_insert_eq, odict_get_set_eq. auto.
Qed.

(** Past that range the conversion raises, after the counter was stored
    and before the key is queued again. *)
Lemma restart_and_record_overflow env name now s r s1 :
  _restart_deployments_for_env selects cfg env name s = (Ret r, s1) →
  failed r ≠ 0 →
  let k := (env, name) in
  let n := (default 0 (_pending_retry_attempts s !! k) + 1)%N in
  (float_max_exponent < n - 1)%N →
  _restart_and_record selects cfg env name now false s
  = (Raise OverflowError, set_pending_retry_attempts (<[ k := n ]>) s1)
  ∧ _pending_restarts s1 = _pending_restarts s.
Proof.
  intros Hex Hf k n Hn.
  pose proof (executor_same_engine selects cfg env name s) as Hsame.
  rewrite Hex in Hsame. destruct Hsame as (_ & _ & Hp & Hra & _).
  simpl in Hp, Hra. split; [|exact Hp].
  unfold _restart_and_record, bind. rewrite Hex.
  apply Z.eqb_neq in Hf. rewrite Hf.
  unfold _schedule_retry, bind, gets, modify, ret, raise. simpl.
  fold k. rewrite Hra. fold n.
  apply N.ltb_lt in Hn. now rewrite Hn.
Qed.

End Retry.

(** C5, on the code.  The key has failed 1024 times in a row and is due at
    second 100; listing the Deployments fails once more (status 500).  The
    claim has the counter go to 1025 and the key due again at second 130.
    The code stores 1025, then raises [OverflowError] while it converts
    [2 ** 1024] to a float: the key keeps its old deadline, and the
    exception leaves [_restart_and_record]. *)
Theorem C5_retry_overflows_after_1024_failures :
  let s :=
    set_pending_retry_attempts (λ _, {[ Demo.key := 1024%N ]})
      (set_pending_restarts (λ _, [(Demo.key, seconds 100)])
         (Demo.engine 100 [Demo.deployment "helloworld" "test"]
            [Reply (Some (ApiException 500)) 0])) in
  let '(outcome, s') :=
    _restart_and_record Demo.selects (Demo.cfg 5)
      "test" "helloworld-config" (seconds 100) false s in
  outcome = Raise OverflowError
  ∧ _pending_retry_attempts s' !! Demo.key = Some 1025%N
  ∧ ODict.get Demo.key (_pending_restarts s') = Some (seconds 100)
  ∧ trace s'
    = [ RestartAttempt "test" "helloworld-config";
        ListDeployments "app=helloworld,env=test" (Some (ApiException 500)) ].
Proof. vm_compute. repeat split. Qed.

(** The first failures do as the claim says: 1, 2, 4, 8, 16, then 30 s. *)
Example retry_backoff_schedule :
  let fail n :=
    set_pending_retry_attempts (λ _, {[ Demo.key := n ]})
      (Demo.engine 100 [] [Reply (Some (ApiException 500)) 0]) in
  let due n :=
    ODict.get Demo.key
      (_pending_restarts
         (snd (_restart_and_record Demo.selects (Demo.cfg 5)
                 "test" "helloworld-config" (seconds 100) false (fail n)))) in
  map due [0; 1; 2; 3; 4; 5; 6; 1023]%N
  = map (λ d, Some (seconds (100 + d))) [1; 2; 4; 8; 16; 30; 30; 30].
Proof. vm_compute. reflexivity. Qed.

(** ** The restart executor, pass by pass *)

Section Executor.
Variable selects : string → gmap string string → bool.
Variable cfg : Config.

Lemma next_reply_spec s :
  api_faults_only (replies s) →
  ∃ s', next_reply s = (Ret (next_fault s), s')
        ∧ trace s' = trace s ∧ deployments s' = deployments s
        ∧ wall s' = wall s
        ∧ api_faults_only (replies s')
        ∧ match next_fault s with
          | Some (ApiException _) | None => True
          | Some _ => False
          end.
Proof.
  unfold next_reply, next_fault, api_faults_only. intros H.
  destruct (replies s) as [|r rs] eqn:E.
  - eexists. repeat split; auto. now rewrite E.
  - apply Forall_cons in H as [Hr Hrs]. eexists. repeat split; auto.
Qed.

(** One patch call, with the handler of the loop around it. *)
Lemma patch_call_spec n ts extra s :
  api_faults_only (replies s) →
  let body := default ∅ extra ∪ {[ rollout_annotation_key cfg := ts ]} in
  ∃ o s',
    try_with
      (patch_deployment_restart n (rollout_annotation_key cfg) ts extra;;;
       ret true)
      (on_api_exception false) s
    = (Ret (bool_decide (o = None)), s')
    ∧ trace s' = trace s ++ [PatchDeployment n body o]
    ∧ deployments s'
      = (if bool_decide (o = None)
         then map (apply_patch n body) (deployments s) else deployments s)
    ∧ wall s' = wall s
    ∧ api_faults_only (replies s').
Proof.
  intros Hf body.
  destruct (next_reply_spec s Hf) as (s1 & E1 & Ht & Hd & Hw & Hf1 & Hnf).
  unfold try_with, patch_deployment_restart, patch_namespaced_deployment, bind.
  rewrite E1. unfold gets, log_call, modify, ret, raise. simpl. rewrite Hd.
  fold body.
  destruct (next_fault s) as [[st| |]|] eqn:En; try contradiction.
  - exists (Some (ApiException st)). eexists. simpl.
    split; [reflexivity|]. simpl. rewrite Ht. auto.
  - destruct (existsb (has_name n) (deployments s)) eqn:Ex.
    + exists None. eexists. simpl. split; [reflexivity|]. simpl.
      rewrite Ht, Hd. auto.
    + exists (Some (ApiException 404)). eexists. simpl.
      split; [reflexivity|]. simpl. rewrite Ht. auto.
Qed.

Lemma patch_targets_cons ch hk d items :
  patch_targets ch hk (d :: items)
  = match (if carries_hash ch hk d then None else patchable_name d) with
    | Some n => n :: patch_targets ch hk items
    | None => patch_targets ch hk items
    end.
Proof. reflexivity. Qed.

Lemma nameless_cons d items :
  nameless (d :: items)
  = (if bool_decide (patchable_name d = None) then 1 else 0) + nameless items.
Proof.
  unfold nameless. cbn [List.filter].
  destruct (bool_decide (patchable_name d = None)); cbn [length]; lia.
Qed.

Lemma trace_cons_patch n b o l :
  patched_names (PatchDeployment n b o :: l) = n :: patched_names l
  ∧ ok_names (PatchDeployment n b o :: l)
    = (if o is None then n :: ok_names l else ok_names l)
  ∧ failed_calls (PatchDeployment n b o :: l)
    = (if o is None then 0 else 1) + failed_calls l.
Proof.
  split; [reflexivity|]. split; [now destruct o|].
  unfold failed_calls. cbn [List.filter]. destruct o; cbn [length]; lia.
Qed.

Lemma restart_loop_spec ts ch hk items : ∀ r f s,
  api_faults_only (replies s) →
  let body := patch_body cfg ts ch hk in
  ∃ l s',
    restart_loop cfg ts ch hk items r f s
    = (Ret (r + Z.of_nat (length (ok_names l)),
            f + nameless items + failed_calls l), s')
    ∧ trace s' = trace s ++ l
    ∧ patches_with body l
    ∧ patched_names l = patch_targets ch hk items
    ∧ deployments s' = apply_patches body (ok_names l) (deployments s)
    ∧ wall s' = wall s
    ∧ api_faults_only (replies s').
Proof.
  induction items as [|d items IH]; intros r f s Hf body.
  - exists [], s. cbn [restart_loop]. unfold ret, nameless, failed_calls.
    cbn [List.filter length ok_names omap list_omap]. rewrite app_nil_r.
    split; [do 2 f_equal; f_equal; lia|]. repeat split; auto. constructor.
  - cbn [restart_loop]. rewrite patch_targets_cons, nameless_cons.
    (* a Deployment that is passed over, counted as failed ([c = 1]) or not *)
    assert (Hpass : ∀ c : Z,
              c = (if bool_decide (patchable_name d = None) then 1 else 0) →
              (if carries_hash ch hk d then None else patchable_name d) = None →
              ∃ l s',
                restart_loop cfg ts ch hk items r (f + c) s
                = (Ret (r + Z.of_nat (length (ok_names l)),
                        f + (c + nameless items) + failed_calls l), s')
                ∧ trace s' = trace s ++ l
                ∧ patches_with body l
                ∧ patched_names l = patch_targets ch hk items
                ∧ deployments s' = apply_patches body (ok_names l) (deployments s)
                ∧ wall s' = wall s
                ∧ api_faults_only (replies s')).
    { intros c _ _.
      destruct (IH r (f + c) s Hf) as (l & s' & E & Rest).
      exists l, s'. rewrite E. split; [|exact Rest].
      do 2 f_equal. f_equal. lia. }
    unfold patchable_name in *.
    destruct (dep_name d) as [n|] eqn:Hdn.
    2:{ rewrite bool_decide_true by reflexivity.
        destruct (carries_hash ch hk d); now apply Hpass. }
    destruct (Py.truthy n) eqn:Htr; cbn [negb].
    2:{ rewrite bool_decide_true by reflexivity.
        destruct (carries_hash ch hk d); now apply Hpass. }
    rewrite bool_decide_false by discriminate.
    destruct (carries_hash ch hk d) eqn:Hcar.
    { specialize (Hpass 0 eq_refl eq_refl). now rewrite Z.add_0_r in Hpass. }
    clear Hpass. unfold bind at 1.
    destruct (patch_call_spec n ts ((λ h, {[ hk := h ]}) <$> ch) s Hf)
      as (o & s1 & E1 & Ht1 & Hd1 & Hw1 & Hf1).
    fold (patch_body cfg ts ch hk) in Ht1, Hd1. fold body in Ht1, Hd1.
    rewrite E1.
    destruct o as [e|].
    + rewrite bool_decide_false in * by discriminate.
      destruct (IH r (f + 1) s1 Hf1)
        as (l & s' & E & Ht & Hp & Hn & Hd & Hw & Hf').
      exists (PatchDeployment n body (Some e) :: l), s'. rewrite E.
      destruct (trace_cons_patch n body (Some e) l) as (-> & -> & ->).
      split; [do 2 f_equal; f_equal; lia|].
      split; [rewrite Ht, Ht1, <- app_assoc; reflexivity|].
      split; [constructor; [eauto | exact Hp]|].
      split; [now rewrite Hn|].
      split; [now rewrite Hd, Hd1|].
      split; [congruence | exact Hf'].
    + rewrite bool_decide_true in * by reflexivity.
      destruct (IH (r + 1) f s1 Hf1)
        as (l & s' & E & Ht & Hp & Hn & Hd & Hw & Hf').
      exists (PatchDeployment n body None :: l), s'. rewrite E.
      destruct (trace_cons_patch n body None l) as (-> & -> & ->).
      split; [cbn [length]; do 2 f_equal; f_equal; lia|].
      split; [rewrite Ht, Ht1, <- app_assoc; reflexivity|].
      split; [constructor; [eauto | exact Hp]|].
      split; [now rewrite Hn|].
      split; [now rewrite Hd, Hd1|].
      split; [congruence | exact Hf'].
Qed.

(** The pass when listing the Deployments fails. *)
Lemma executor_list_failed env name s e :
  api_faults_only (replies s) →
  next_fault s = Some e →
  ∃ s',
    _restart_deployments_for_env selects cfg env name s
    = (Ret (Result env 0 0 1), s')
    ∧ trace s'
      = trace s ++ [ RestartAttempt env name;
                     ListDeployments (_deployment_selector_for_env cfg env)
                                     (Some e) ]
    ∧ deployments s' = deployments s
    ∧ api_faults_only (replies s').
Proof.
  intros Hf Hn.
  set (s0 := set_trace (λ l, l ++ [RestartAttempt env name]) s).
  destruct (next_reply_spec s0 Hf) as (s1 & E1 & Ht & Hd & Hw & Hf1 & Hnf).
  change (next_fault s0) with (next_fault s) in E1, Hnf. rewrite Hn in E1, Hnf.
  unfold _restart_deployments_for_env, bind at 1. unfold log_call at 1.
  unfold modify at 1. fold s0.
  unfold bind at 1, try_with, list_namespaced_deployment, bind. rewrite E1.
  unfold log_call, modify, raise. simpl.
  destruct e as [st| |]; try contradiction. unfold on_api_exception, ret.
  eexists. split; [reflexivity|]. simpl. rewrite Ht, Hd. simpl.
  rewrite <- app_assoc. auto.
Qed.

(** The pass when the Deployments are listed. *)
Lemma executor_listed env name s :
  api_faults_only (replies s) →
  next_fault s = None →
  let sel := _deployment_selector_for_env cfg env in
  let ch := _last_data_hash s !! (env, name) in
  let hk := _config_hash_annotation_key (rollout_annotation_key cfg) name in
  let items := List.filter (λ d, selects sel (dep_labels d)) (deployments s) in
  let body := patch_body cfg (now_fn cfg (wall s)) ch hk in
  ∃ l s',
    _restart_deployments_for_env selects cfg env name s
    = (Ret (Result env (Z.of_nat (length items))
                   (Z.of_nat (length (ok_names l)))
                   (nameless items + failed_calls l)), s')
    ∧ trace s'
      = trace s ++ RestartAttempt env name :: ListDeployments sel None :: l
    ∧ patches_with body l
    ∧ patched_names l = patch_targets ch hk items
    ∧ deployments s' = apply_patches body (ok_names l) (deployments s)
    ∧ api_faults_only (replies s').
Proof.
  intros Hf Hn sel ch hk items body.
  set (s0 := set_trace (λ l, l ++ [RestartAttempt env name]) s).
  destruct (next_reply_spec s0 Hf) as (s1 & E1 & Ht & Hd & Hw & Hf1 & _).
  change (next_fault s0) with (next_fault s) in E1. rewrite Hn in E1.
  pose proof (next_reply_same_engine s0) as Hse. rewrite E1 in Hse.
  destruct Hse as (_ & Hlh & _). simpl in Hlh.
  set (s2 := set_trace (λ l, l ++ [ListDeployments sel None]) s1).
  destruct (restart_loop_spec (now_fn cfg (wall s)) ch hk items 0 0 s2 Hf1)
    as (l & s' & E & Ht' & Hp & Hnm & Hd' & Hw' & Hf').
  exists l, s'.
  unfold _restart_deployments_for_env, bind at 1. unfold log_call at 1.
  unfold modify at 1. fold s0.
  unfold bind at 1, try_with, list_namespaced_deployment, bind. rewrite E1.
  unfold log_call, modify, gets, ret. simpl. fold sel. fold s2.
  change (deployments s2) with (deployments s1). rewrite Hd.
  change (deployments s0) with (deployments s). fold items.
  change (wall s2) with (wall s1). rewrite Hw.
  change (wall s0) with (wall s).
  change (_last_data_hash s2) with (_last_data_hash s1). rewrite Hlh.
  fold ch hk. rewrite E. simpl.
  split; [reflexivity|]. split.
  { rewrite Ht'. simpl. rewrite Ht. simpl. rewrite <- !app_assoc. reflexivity. }
  repeat split; auto. rewrite Hd'. simpl. rewrite Hd. reflexivity.
Qed.

End Executor.

(** ** A restart without a cached hash *)

Section NoDigest.
Variable selects : string → gmap string string → bool.
Variable cfg : Config.



Lemma ok_names_patched l n : n ∈ ok_names l → n ∈ patched_names l.
Proof.
  unfold ok_names, patched_names. rewrite !list_elem_of_omap.
  intros (ev & Hin & Hev). exists ev. split; [exact Hin|].
  destruct ev as [| |m b [e|]|]; try discriminate. exact Hev.
Qed.

Lemma patchable_name_truthy d n :
  patchable_name d = Some n → dep_name d = Some n ∧ Py.truthy n = true.
Proof.
  unfold patchable_name. destruct (dep_name d) as [m|]; [|discriminate].
  destruct (Py.truthy m) eqn:E; [|discriminate]. intros [= <-]. auto.
Qed.


End NoDigest.



Example restart_without_digest_trace :
  let s := Demo.engine 100
             [ Demo.deployment "helloworld" "test";
               Deployment None (Demo.labels "test") None;
               Demo.deployment "worker" "test" ]
             [ Reply None 0; Reply None 0; Reply (Some (ApiException 500)) 0 ] in
  let '(r, s') :=
    _restart_deployments_for_env Demo.selects (Demo.cfg 5)
      "test" "helloworld-config" s in
  r = Ret (Result "test" 3 1 2)
  ∧ trace s'
    = [ RestartAttempt "test" "helloworld-config";
        ListDeployments "app=helloworld,env=test" None;
        PatchDeployment "helloworld"
          {[ "shipshape.io/restartedAt" := "2024-01-15T12:00:00Z" ]} None;
        PatchDeployment "worker"
          {[ "shipshape.io/restartedAt" := "2024-01-15T12:00:00Z" ]}
          (Some (ApiException 500)) ].
Proof. vm_compute. repeat split. Qed.

(** ** What a restart touches *)

Lemma restart_attempts_app k l1 l2 :
  restart_attempts k (l1 ++ l2)
  = (restart_attempts k l1 + restart_attempts k l2)%nat.
Proof.
  unfold restart_attempts. now rewrite List.filter_app, List.length_app.
Qed.

#[local] Instance touches_only_preorder k : PreOrder (touches_only k).
Proof.
  split.
  - intros s. split; [auto|]. exists []. rewrite app_nil_r. auto.
  - intros s1 s2 s3 [H1 (l1 & E1 & A1)] [H2 (l2 & E2 & A2)]. split.
    + intros k' Hk'. destruct (H1 k' Hk') as (?&?&?&?).
      destruct (H2 k' Hk') as (?&?&?&?). repeat split; congruence.
    + exists (l1 ++ l2). rewrite E2, E1, app_assoc. split; [reflexivity|].
      intros k' Hk'. rewrite restart_attempts_app, A1, A2; auto.
Qed.

#[local] Instance no_attempt_preorder : PreOrder no_attempt.
Proof.
  split.
  - intros s. exists []. rewrite app_nil_r. auto.
  - intros s1 s2 s3 (l1 & E1 & A1) (l2 & E2 & A2).
    exists (l1 ++ l2). rewrite E2, E1, app_assoc. split; [reflexivity|].
    intros k. now rewrite restart_attempts_app, A1, A2.
Qed.

(** A run that leaves the engine's fields alone and traces no attempt
    concerns no key. *)
Lemma quiet_touches_only k s s' :
  same_engine s s' → no_attempt s s' → touches_only k s s'.
Proof.
  intros (Hlr & Hlh & Hp & Hra & _) (l & E & A). split.
  - intros k' _. rewrite Hlr, Hlh, Hp, Hra. auto.
  - exists l. auto.
Qed.

Section RestartFrames.
Variable selects : string → gmap string string → bool.
Variable json_dumps : gmap string string → string.
Variable cfg : Config.

Lemma next_reply_no_attempt : steps no_attempt next_reply.
Proof.
  intros s. exists []. rewrite app_nil_r. split; [|auto].
  unfold next_reply. now destruct (replies s).
Qed.

Lemma log_call_no_attempt c :
  is_any_attempt c = false → steps no_attempt (log_call c).
Proof.
  intros Hc s. exists [c]. split; [reflexivity|].
  intros k. unfold restart_attempts. cbn [List.filter].
  destruct c; try discriminate; reflexivity.
Qed.

Lemma modify_no_attempt f :
  (∀ s, trace (f s) = trace s) → steps no_attempt (modify f).
Proof.
  intros H s. exists []. rewrite app_nil_r. split; [apply H | auto].
Qed.

Lemma list_deployments_no_attempt sel :
  steps no_attempt (list_namespaced_deployment selects sel).
Proof.
  unfold list_namespaced_deployment.
  apply steps_bind; [apply _ | apply next_reply_no_attempt | intros f].
  apply steps_bind; [apply _ | now apply log_call_no_attempt | intros _].
  steps_auto.
Qed.

Lemma patch_restart_no_attempt n k ts extra :
  steps no_attempt (patch_deployment_restart n k ts extra).
Proof.
  unfold patch_deployment_restart, patch_namespaced_deployment.
  apply steps_bind; [apply _ | apply next_reply_no_attempt | intros f].
  apply steps_bind; [apply _ | apply steps_gets, _ | intros found].
  apply steps_bind; [apply _ | now apply log_call_no_attempt | intros _].
  steps_auto. now apply modify_no_attempt.
Qed.

Hint Resolve list_deployments_no_attempt patch_restart_no_attempt : steps.

Lemma restart_loop_no_attempt ts h hk items r f :
  steps no_attempt (restart_loop cfg ts h hk items r f).
Proof.
  revert r f. induction items as [|d items IH]; intros r f; simpl.
  - apply steps_ret, _.
  - steps_auto; apply IH.
Qed.

(** A pass of the executor traces its own attempt and no other, and leaves
    the engine's fields as they are. *)
Lemma executor_trace env name s :
  ∃ l, trace (snd (_restart_deployments_for_env selects cfg env name s))
       = trace s ++ RestartAttempt env name :: l
       ∧ ∀ k, restart_attempts k l = 0%nat.
Proof.
  unfold _restart_deployments_for_env, bind at 1, log_call at 1, modify at 1.
  set (s0 := set_trace (λ l, l ++ [RestartAttempt env name]) s).
  match goal with
  | |- ∃ l, trace (snd (?m s0)) = _ ∧ _ =>
      assert (Hm : steps no_attempt m)
  end.
  { steps_auto. apply restart_loop_no_attempt. }
  destruct (Hm s0) as (l & E & A). exists l. split; [|exact A].
  rewrite E. simpl. now rewrite <- app_assoc.
Qed.

Lemma restart_attempts_cons_attempt k env name l :
  restart_attempts k (RestartAttempt env name :: l)
  = ((if bool_decide ((env, name) = k) then 1 else 0) + restart_attempts k l)%nat.
Proof.
  unfold restart_attempts. cbn [List.filter is_attempt].
  now destruct (bool_decide ((env, name) = k)).
Qed.

Lemma executor_touches_only env name :
  steps (touches_only (env, name))
        (_restart_deployments_for_env selects cfg env name).
Proof.
  intros s. pose proof (executor_same_engine selects cfg env name s)
    as (Hlr & Hlh & Hp & Hra & _).
  destruct (executor_trace env name s) as (l & E & A). split.
  - intros k' _. rewrite Hlr, Hlh, Hp, Hra. auto.
  - eexists. split; [exact E|]. intros k' Hk'.
    rewrite restart_attempts_cons_attempt, A.
    rewrite bool_decide_false by congruence. reflexivity.
Qed.

Lemma modify_touches_only k f :
  (∀ s, trace (f s) = trace s) →
  (∀ s k', k' ≠ k →
     _last_data_hash (f s) !! k' = _last_data_hash s !! k'
     ∧ ODict.get k' (_pending_restarts (f s)) = ODict.get k' (_pending_restarts s)
     ∧ _pending_retry_attempts (f s) !! k' = _pending_retry_attempts s !! k'
     ∧ _last_restart (f s) !! k' = _last_restart s !! k') →
  steps (touches_only k) (modify f).
Proof.
  intros Ht Hf s. split; [apply Hf|].
  exists []. simpl. rewrite Ht, app_nil_r. auto.
Qed.

Lemma mark_executed_touches_only env name now :
  steps (touches_only (env, name)) (modify (_mark_restart_executed env name now)).
Proof.
  apply modify_touches_only; [reflexivity|]. intros s k' Hk'.
  unfold _mark_restart_executed. simpl.
  rewrite odict_get_pop_ne, lookup_delete_ne, lookup_insert_ne by congruence.
  auto.
Qed.

Lemma drop_pending_touches_only k :
  steps (touches_only k) (modify (set_pending_restarts (ODict.pop k))).
Proof.
  apply modify_touches_only; [reflexivity|]. intros s k' Hk'. simpl.
  rewrite odict_get_pop_ne by congruence. auto.
Qed.

Lemma drop_retry_touches_only k :
  steps (touches_only k) (modify (set_pending_retry_attempts (delete k))).
Proof.
  apply modify_touches_only; [reflexivity|]. intros s k' Hk'. simpl.
  rewrite lookup_delete_ne by congruence. auto.
Qed.

Lemma count_dropped_touches_only k :
  steps (touches_only k) (modify (set_dropped_restarts_total N.succ)).
Proof. apply modify_touches_only; [reflexivity|]. intros s k' Hk'. auto. Qed.

Lemma schedule_retry_touches_only env name now :
  steps (touches_only (env, name)) (_schedule_retry env name now).
Proof.
  unfold _schedule_retry. steps_auto.
  - apply modify_touches_only; [reflexivity|]. intros s k' Hk'. simpl.
    rewrite lookup_insert_ne by congruence. auto.
  - apply modify_touches_only; [reflexivity|]. intros s k' Hk'. simpl.
    rewrite odict_get_set_ne by congruence. auto.
Qed.

Hint Resolve executor_touches_only mark_executed_touches_only
  drop_pending_touches_only drop_retry_touches_only
  count_dropped_touches_only schedule_retry_touches_only : steps.

Lemma restart_and_record_touches_only env name now force :
  steps (touches_only (env, name))
        (_restart_and_record selects cfg env name now force).
Proof. unfold _restart_and_record. steps_auto. Qed.

Lemma schedule_pending_touches_only env name now delay reset :
  steps (touches_only (env, name))
        (modify (_schedule_pending_restart env name now delay reset)).
Proof.
  apply modify_touches_only.
  - intros s. unfold _schedule_pending_restart.
    destruct (ODict.get _ _) as [e|]; [destruct (e <? now + delay)|];
      destruct reset; reflexivity.
  - intros s k' Hk'. rewrite schedule_pending_other by congruence.
    unfold _schedule_pending_restart.
    destruct (ODict.get _ _) as [e|]; [destruct (e <? now + delay)|];
      destruct reset; simpl; rewrite ?lookup_delete_ne by congruence; auto.
Qed.

Hint Resolve restart_and_record_touches_only
  schedule_pending_touches_only : steps.

Lemma restart_or_defer_touches_only supersede env name :
  steps (touches_only (env, name))
        (restart_or_defer selects cfg supersede env name).
Proof. unfold restart_or_defer. steps_auto. Qed.

Lemma seed_hash_touches_only k h :
  steps (touches_only k) (modify (set_last_data_hash (<[ k := h ]>))).
Proof.
  apply modify_touches_only; [reflexivity|]. intros s k' Hk'. simpl.
  rewrite lookup_insert_ne by congruence. auto.
Qed.

End RestartFrames.

#[local] Hint Resolve executor_touches_only mark_executed_touches_only
  drop_pending_touches_only drop_retry_touches_only
  count_dropped_touches_only schedule_retry_touches_only
  restart_and_record_touches_only schedule_pending_touches_only
  restart_or_defer_touches_only seed_hash_touches_only : steps.

(** ** The re-list after [410 Gone] *)

Section Relist.
Variable selects : string → gmap string string → bool.
Variable json_dumps : gmap string string → string.
Variable cfg : Config.

Lemma touches_only_untouched k s s' l :
  touches_only k s s' → trace s' = trace s ++ l →
  ∀ k', k' ≠ k → untouched k' s s' l.
Proof.
  intros [Hf (l0 & E0 & A0)] E k' Hk'.
  rewrite E0 in E. apply List.app_inv_head in E. subst l0.
  destruct (Hf k' Hk') as (?&?&?&?). repeat split; auto.
Qed.

(** A restart leaves the cached hashes as they are and traces exactly one
    attempt, for its key. *)
Lemma restart_and_record_trace env name now force s out s' :
  _restart_and_record selects cfg env name now force s = (out, s') →
  _last_data_hash s' = _last_data_hash s
  ∧ ∃ l, trace s' = trace s ++ l ∧ restart_attempts (env, name) l = 1%nat.
Proof.
  unfold _restart_and_record, bind.
  pose proof (executor_same_engine selects cfg env name s) as (_ & Hlh & _).
  destruct (executor_trace selects cfg env name s) as (l & E & A).
  assert (Hone : restart_attempts (env, name) (RestartAttempt env name :: l)
                 = 1%nat).
  { rewrite restart_attempts_cons_attempt, A.
    now rewrite bool_decide_true by reflexivity. }
  destruct (_restart_deployments_for_env selects cfg env name s)
    as [[r|e] s1]; simpl in Hlh, E.
  2:{ intros [= <- <-]. split; [exact Hlh|]. eauto. }
  destruct (failed r =? 0); [|destruct force].
  - intros [= <- <-]. split; [exact Hlh|]. eauto.
  - intros [= <- <-]. split; [exact Hlh|]. eauto.
  - unfold _schedule_retry, bind, gets, modify, ret, raise. simpl.
    destruct (_ <? _)%N; intros [= <- <-]; (split; [exact Hlh|]); eauto.
Qed.

Lemma sync_one_touches_only restart cm env name :
  configmap_key cfg cm = Some (env, name) →
  steps (touches_only (env, name)) (sync_one selects json_dumps cfg restart cm).
Proof. intros Hk. unfold sync_one. rewrite Hk. steps_auto. Qed.

Lemma schedule_pending_last_hash env name now delay reset s :
  _last_data_hash (_schedule_pending_restart env name now delay reset s)
  = _last_data_hash s
  ∧ trace (_schedule_pending_restart env name now delay reset s) = trace s.
Proof.
  unfold _schedule_pending_restart.
  destruct (ODict.get _ _) as [e|]; [destruct (e <? now + delay)|];
    destruct reset; auto.
Qed.

Lemma sync_one_spec cm env name s s1 :
  configmap_key cfg cm = Some (env, name) →
  sync_one selects json_dumps cfg true cm s = (Ret tt, s1) →
  let k := (env, name) in
  let h := current_hash_of json_dumps cm in
  ∃ l, trace s1 = trace s ++ l
       ∧ (∀ k', k' ≠ k → untouched k' s s1 l)
       ∧ _last_data_hash s1 !! k = Some h
       ∧ relist_outcome h (_last_data_hash s !! k)
           (ODict.get k (_pending_restarts s))
           (ODict.get k (_pending_restarts s1))
           (_pending_retry_attempts s1 !! k)
           (restart_attempts k l).
Proof.
  intros Hk Hrun k h.
  pose proof (sync_one_touches_only true cm env name Hk s) as Hto.
  rewrite Hrun in Hto. simpl in Hto.
  assert (Hl : ∃ l, trace s1 = trace s ++ l) by (destruct Hto as [_ (l & E & _)]; eauto).
  destruct Hl as (l & El). exists l. split; [exact El|].
  split; [now apply (touches_only_untouched k)|].
  revert Hrun. unfold sync_one. rewrite Hk.
  unfold bind at 1, gets at 1. fold k. fold h.
  unfold bind at 1, modify at 1.
  set (s0 := set_last_data_hash (<[ k := h ]>) s).
  assert (Hs0 : _last_data_hash s0 !! k = Some h) by apply lookup_insert_eq.
  assert (Hquiet : s1 = s0 →
            _last_data_hash s1 !! k = Some h
            ∧ restart_attempts k l = 0%nat
            ∧ ODict.get k (_pending_restarts s1) = ODict.get k (_pending_restarts s)).
  { intros ->. split; [exact Hs0|]. split; [|reflexivity].
    change (trace s0) with (trace s) in El.
    rewrite <- (app_nil_r (trace s)) in El at 1.
    apply List.app_inv_head in El. now subst l. }
  cbn [negb]. unfold relist_outcome.
  destruct (_last_data_hash s !! k) as [p|] eqn:Hp.
  2:{ intros [= <-]. destruct Hquiet as (?&?&?); auto. }
  destruct (String.eqb_spec p h) as [->|Hne].
  { intros [= <-]. destruct Hquiet as (?&?&?); auto.
    now rewrite decide_True by reflexivity. }
  rewrite decide_False by exact Hne. clear Hquiet.
  unfold bind at 1, restart_or_defer, bind at 1, gets at 1.
  unfold bind at 1, gets at 1.
  destruct (0 <? _debounce_remaining cfg env name (monotonic s0) s0) eqn:Hrem.
  - unfold bind, modify, ret.
    pose proof (schedule_pending_last_hash env name (monotonic s0)
                  (_debounce_remaining cfg env name (monotonic s0) s0) true s0)
      as [Hlh Htr].
    pose proof (schedule_pending_get env name (monotonic s0)
                  (_debounce_remaining cfg env name (monotonic s0) s0) true s0)
      as Hget.
    pose proof (schedule_pending_retry env name (monotonic s0)
                  (_debounce_remaining cfg env name (monotonic s0) s0) s0)
      as Hret.
    revert Hlh Htr Hget Hret.
    generalize (_schedule_pending_restart env name (monotonic s0)
                  (_debounce_remaining cfg env name (monotonic s0) s0) true s0).
    intros s2 Hlh Htr Hget Hret [= <-].
    split; [now rewrite Hlh|]. right.
    rewrite Htr in El. change (trace s0) with (trace s) in El.
    rewrite <- (app_nil_r (trace s)) in El at 1.
    apply List.app_inv_head in El. subst l.
    split; [reflexivity|]. fold k in Hget, Hret.
    rewrite Hget, Hret. eauto.
  - unfold bind at 1, ret at 1. unfold bind at 1.
    destruct (_restart_and_record selects cfg env name (monotonic s0) false s0)
      as [[r|e] s2] eqn:Hrr; [|discriminate].
    unfold bind, ret. intros [= <-].
    destruct (restart_and_record_trace _ _ _ _ _ _ _ Hrr) as (Hlh & l2 & E2 & A2).
    split; [now rewrite Hlh|]. left.
    change (trace s0) with (trace s) in E2. rewrite E2 in El.
    apply List.app_inv_head in El. now subst l.
Qed.

Lemma untouched_trans k s s1 s2 l1 l2 :
  untouched k s s1 l1 → untouched k s1 s2 l2 → untouched k s s2 (l1 ++ l2).
Proof.
  intros (?&?&?&A1) (?&?&?&A2). unfold untouched.
  rewrite restart_attempts_app, A1, A2. repeat split; congruence.
Qed.

Lemma omap_cons {A B} (f : A → option B) x l :
  omap f (x :: l)
  = match f x with Some y => y :: omap f l | None => omap f l end.
Proof. reflexivity. Qed.

(** The loop over the listing, the keys of the listed objects distinct. *)
Lemma sync_items_spec items : ∀ s s',
  NoDup (omap (configmap_key cfg) items) →
  for_each items (sync_one selects json_dumps cfg true) s = (Ret tt, s') →
  ∃ l, trace s' = trace s ++ l
       ∧ (∀ k, k ∉ omap (configmap_key cfg) items → untouched k s s' l)
       ∧ (∀ cm k, cm ∈ items → configmap_key cfg cm = Some k →
            _last_data_hash s' !! k = Some (current_hash_of json_dumps cm)
            ∧ relist_outcome (current_hash_of json_dumps cm)
                (_last_data_hash s !! k)
                (ODict.get k (_pending_restarts s))
                (ODict.get k (_pending_restarts s'))
                (_pending_retry_attempts s' !! k)
                (restart_attempts k l)).
Proof.
  induction items as [|cm items IH]; intros s s' Hnd Hrun.
  - cbn [for_each] in Hrun. injection Hrun as <-. exists [].
    rewrite app_nil_r. split; [reflexivity|]. split.
    + intros k _. repeat split.
    + intros cm k Hin. now apply elem_of_nil in Hin.
  - cbn [for_each] in Hrun. unfold bind at 1 in Hrun.
    destruct (sync_one selects json_dumps cfg true cm s) as [[[]|e] s1] eqn:H1;
      [|discriminate].
    rewrite omap_cons in Hnd. setoid_rewrite omap_cons.
    destruct (configmap_key cfg cm) as [[env name]|] eqn:Hk.
    + apply NoDup_cons in Hnd as [Hfresh Hnd].
      destruct (IH s1 s' Hnd Hrun) as (l2 & E2 & F2 & P2).
      destruct (sync_one_spec cm env name s s1 Hk H1) as (l1 & E1 & F1 & Hh1 & O1).
      exists (l1 ++ l2). split; [now rewrite E2, E1, app_assoc|]. split.
      * intros k Hnk. apply not_elem_of_cons in Hnk as [Hne Hnk].
        apply (untouched_trans k s s1 s' l1 l2); auto.
      * intros cm' k Hin Hk'. apply elem_of_cons in Hin as [->|Hin].
        -- rewrite Hk in Hk'. injection Hk' as <-.
           destruct (F2 (env, name) Hfresh) as (Hlh & Hp & Hr & A).
           rewrite Hlh, Hp, Hr, restart_attempts_app, A, Nat.add_0_r. auto.
        -- assert (Hne : k ≠ (env, name)).
           { intros ->. apply Hfresh, list_elem_of_omap. eauto. }
           destruct (F1 k Hne) as (Hlh & Hp & Hr & A).
           destruct (P2 cm' k Hin Hk') as [Hh O].
           rewrite Hlh, Hp in O.
           rewrite restart_attempts_app, A. auto.
    + destruct (IH s1 s' Hnd Hrun) as (l2 & E2 & F2 & P2).
      assert (s1 = s) as ->.
      { unfold sync_one in H1. rewrite Hk in H1. now injection H1. }
      exists l2. split; [exact E2|]. split; [exact F2|].
      intros cm' k Hin Hk'. apply elem_of_cons in Hin as [->|Hin];
        [congruence | auto].
Qed.

End Relist.

(** X2.  The cache sync after a re-list ([restart_on_change=True]) that
    returns, over a listing whose objects have distinct keys.  Every listed
    object that passes the guard has its hash cached afterwards.  If no hash
    was cached for its key, or the same one, the key gets no restart attempt
    and keeps its place in the queue; if a different hash was cached, the
    key gets exactly one restart attempt, or none and a deadline in the
    queue with its retry counter cleared. *)
Theorem relist_sync_restarts_changed_once
    (selects : string → gmap string string → bool)
    (json_dumps : gmap string string → string) (cfg : Config)
    (fresh : V1ConfigMapList) (s s' : State) :
  NoDup (omap (configmap_key cfg) (list_items fresh)) →
  _sync_cache_from_list selects json_dumps cfg fresh true s = (Ret tt, s') →
  ∃ l, trace s' = trace s ++ l
       ∧ ∀ cm k, cm ∈ list_items fresh → configmap_key cfg cm = Some k →
           _last_data_hash s' !! k = Some (current_hash_of json_dumps cm)
           ∧ relist_outcome (current_hash_of json_dumps cm)
               (_last_data_hash s !! k)
               (ODict.get k (_pending_restarts s))
               (ODict.get k (_pending_restarts s'))
               (_pending_retry_attempts s' !! k)
               (restart_attempts k l).
Proof.
  intros Hnd Hrun. unfold _sync_cache_from_list in Hrun.
  destruct (sync_items_spec selects json_dumps cfg (list_items fresh) s s'
              Hnd Hrun) as (l & E & _ & P).
  exists l. split; [exact E | exact P].
Qed.

Lemma relist_sync_restarts_changed_once_witness :
  let fresh :=
    ConfigMapList (Some "7")
      [ Demo.configmap "test" "after"; Demo.configmap "prod" "same" ] in
  let s :=
    set_last_data_hash
      (λ _, {[ ("test", "helloworld-config")
                 := current_hash_of Demo.json_dumps (Demo.configmap "test" "before");
               ("prod", "helloworld-config")
                 := current_hash_of Demo.json_dumps (Demo.configmap "prod" "same") ]})
      (Demo.engine 100 [Demo.deployment "helloworld" "test"] []) in
  let s' :=
    snd (_sync_cache_from_list Demo.selects Demo.json_dumps (Demo.cfg 60)
           fresh true s) in
  ∃ l, trace s' = trace s ++ l
       ∧ ∀ cm k, cm ∈ list_items fresh →
           configmap_key (Demo.cfg 60) cm = Some k →
           _last_data_hash s' !! k = Some (current_hash_of Demo.json_dumps cm)
           ∧ relist_outcome (current_hash_of Demo.json_dumps cm)
               (_last_data_hash s !! k)
               (ODict.get k (_pending_restarts s))
               (ODict.get k (_pending_restarts s'))
               (_pending_retry_attempts s' !! k)
               (restart_attempts k l).
Proof.
  apply (relist_sync_restarts_changed_once Demo.selects Demo.json_dumps
           (Demo.cfg 60)).
  - vm_compute. apply NoDup_cons. split; [|apply NoDup_singleton].
    intros Hin. apply list_elem_of_singleton in Hin. discriminate.
  - vm_compute. reflexivity.
Defined.

(** Scenario 5 of the specification: the re-list shows new data for a key
    and the same data for another; one restart, for the first. *)
Example relist_detects_drift :
  let fresh :=
    ConfigMapList (Some "7")
      [ Demo.configmap "test" "after"; Demo.configmap "prod" "same" ] in
  let s :=
    set_last_data_hash
      (λ _, {[ ("test", "helloworld-config")
                 := current_hash_of Demo.json_dumps (Demo.configmap "test" "before");
               ("prod", "helloworld-config")
                 := current_hash_of Demo.json_dumps (Demo.configmap "prod" "same") ]})
      (Demo.engine 100 [Demo.deployment "helloworld" "test"] []) in
  let s' :=
    snd (_sync_cache_from_list Demo.selects Demo.json_dumps (Demo.cfg 60)
           fresh true s) in
  List.filter is_any_attempt (trace s')
  = [RestartAttempt "test" "helloworld-config"]
  ∧ patched_names (trace s') = ["helloworld"].
Proof. vm_compute. split; reflexivity. Qed.

(** ** Two passes of the restart executor *)

Section Idempotence.
Variable selects : string → gmap string string → bool.
Variable cfg : Config.

Lemma NoDup_omap_weaken {A B} (f g : A → option B) (l : list A) :
  (∀ x y, g x = Some y → f x = Some y) →
  NoDup (omap f l) → NoDup (omap g l).
Proof.
  intros Hfg. induction l as [|x l IH]; [auto|].
  rewrite !omap_cons. destruct (g x) as [y|] eqn:Hg.
  - rewrite (Hfg x y Hg). intros [Hin Hnd]%NoDup_cons.
    apply NoDup_cons. split; [|auto].
    intros Hin'. apply Hin. apply list_elem_of_omap in Hin' as (z & Hz & Hgz).
    apply list_elem_of_omap. eauto.
  - destruct (f x); [intros [_ Hnd]%NoDup_cons|]; auto.
Qed.

Lemma omap_filter {A B} (f : A → option B) (p : A → bool) (l : list A) :
  omap f (List.filter p l) = omap (λ x, if p x then f x else None) l.
Proof.
  induction l as [|x l IH]; [reflexivity|]. cbn [List.filter].
  rewrite (omap_cons (λ x, if p x then f x else None)).
  destruct (p x); [rewrite omap_cons|]; now rewrite IH.
Qed.

Lemma apply_patches_map body names ds :
  apply_patches body names ds = map (patch_all body names) ds.
Proof.
  unfold apply_patches, patch_all. revert ds.
  induction names as [|n names IH]; intros ds; simpl.
  - now rewrite map_id.
  - rewrite IH, map_map. reflexivity.
Qed.

Lemma apply_patch_name n body d :
  dep_name (apply_patch n body d) = dep_name d
  ∧ dep_labels (apply_patch n body d) = dep_labels d.
Proof. unfold apply_patch. destruct (decide _); auto. Qed.

Lemma patch_all_name body names d :
  dep_name (patch_all body names d) = dep_name d
  ∧ dep_labels (patch_all body names d) = dep_labels d.
Proof.
  unfold patch_all. revert d.
  induction names as [|n names IH]; intros d; simpl; [auto|].
  destruct (IH (apply_patch n body d)) as [-> ->]. apply apply_patch_name.
Qed.

Lemma patch_body_hash ts h hk :
  patch_body cfg ts (Some h) hk !! hk = Some h.
Proof.
  unfold patch_body. simpl. apply lookup_union_Some_l, lookup_singleton_eq.
Qed.

(** A patch with the hash in its body keeps the hash where it was and puts
    it where the name matches. *)
Lemma apply_patch_carries n body h hk d :
  body !! hk = Some h →
  carries_hash (Some h) hk d = true ∨ dep_name d = Some n →
  carries_hash (Some h) hk (apply_patch n body d) = true.
Proof.
  intros Hb Hd. unfold apply_patch.
  destruct (decide (dep_name d = Some n)) as [Hn|Hn].
  - unfold carries_hash, _deployment_template_annotations. simpl.
    apply bool_decide_eq_true. now apply lookup_union_Some_l.
  - destruct Hd; [assumption | contradiction].
Qed.

Lemma patch_all_carries body names h hk d :
  body !! hk = Some h →
  carries_hash (Some h) hk d = true ∨ (∃ n, n ∈ names ∧ dep_name d = Some n) →
  carries_hash (Some h) hk (patch_all body names d) = true.
Proof.
  intros Hb. unfold patch_all. revert d.
  induction names as [|n names IH]; intros d Hd; simpl.
  - destruct Hd as [?|(n & Hin & _)]; [assumption|].
    now apply elem_of_nil in Hin.
  - apply IH. destruct Hd as [Hc|(m & Hin & Hm)].
    + left. apply apply_patch_carries; auto.
    + apply elem_of_cons in Hin as [->|Hin].
      * left. apply apply_patch_carries; auto.
      * right. exists m. split; [exact Hin|].
        now rewrite (proj1 (apply_patch_name n body d)).
Qed.

Lemma patchable_name_patch_all body names d :
  patchable_name (patch_all body names d) = patchable_name d.
Proof.
  unfold patchable_name. now rewrite (proj1 (patch_all_name body names d)).
Qed.

Lemma filter_map_labels sel (g : V1Deployment → V1Deployment) ds :
  (∀ d, dep_labels (g d) = dep_labels d) →
  List.filter (λ d, selects sel (dep_labels d)) (map g ds)
  = map g (List.filter (λ d, selects sel (dep_labels d)) ds).
Proof.
  intros Hg. induction ds as [|d ds IH]; [reflexivity|].
  cbn [map List.filter]. rewrite Hg.
  destruct (selects sel (dep_labels d)); cbn [map]; now rewrite IH.
Qed.

Lemma NoDup_ok_names l : NoDup (patched_names l) → NoDup (ok_names l).
Proof.
  apply NoDup_omap_weaken. intros ev n.
  destruct ev as [| |m b [e|]|]; try discriminate. auto.
Qed.

Lemma patches_of_ok_names n l :
  patches_of n l
  = length (List.filter (λ m, bool_decide (m = n)) (ok_names l)).
Proof.
  unfold patches_of, ok_names. induction l as [|ev l IH]; [reflexivity|].
  rewrite omap_cons. cbn [List.filter].
  destruct ev as [| |m b [e|]|]; cbn [patched_ok]; try exact IH.
  cbn [List.filter]. destruct (bool_decide (m = n)); cbn [length]; now rewrite IH.
Qed.

Lemma NoDup_count_le_1 (n : string) (l : list string) :
  NoDup l → (length (List.filter (λ m, bool_decide (m = n)) l) ≤ 1)%nat.
Proof.
  induction l as [|m l IH]; [simpl; lia|].
  intros [Hin Hnd]%NoDup_cons. cbn [List.filter].
  case_bool_decide as Hm; [|auto]. subst m. cbn [length].
  enough (List.filter (λ m, bool_decide (m = n)) l = []) as -> by (simpl; lia).
  clear IH Hnd. induction l as [|m l IH]; [reflexivity|].
  apply not_elem_of_cons in Hin as [Hne Hin]. cbn [List.filter].
  rewrite bool_decide_false by congruence. auto.
Qed.

Lemma patches_of_app n l1 l2 :
  patches_of n (l1 ++ l2) = (patches_of n l1 + patches_of n l2)%nat.
Proof. unfold patches_of. now rewrite List.filter_app, List.length_app. Qed.

Lemma patches_with_names_nil body l :
  patches_with body l → patched_names l = [] → l = [].
Proof.
  intros Hp Hn. destruct l as [|ev l]; [reflexivity|].
  apply Forall_cons in Hp as [(n & o & ->) _]. discriminate.
Qed.

(** A pass of the executor while only the API raises, in one statement:
    [items] are the Deployments listed, none when the listing failed. *)
Lemma executor_pass env name s :
  api_faults_only (replies s) →
  let sel := _deployment_selector_for_env cfg env in
  let ch := _last_data_hash s !! (env, name) in
  let hk := _config_hash_annotation_key (rollout_annotation_key cfg) name in
  let items :=
    match next_fault s with
    | None => List.filter (λ d, selects sel (dep_labels d)) (deployments s)
    | Some _ => []
    end in
  let body := patch_body cfg (now_fn cfg (wall s)) ch hk in
  ∃ r s' l,
    _restart_deployments_for_env selects cfg env name s = (Ret r, s')
    ∧ trace s'
      = trace s ++ RestartAttempt env name
                   :: ListDeployments sel (next_fault s) :: l
    ∧ patches_with body l
    ∧ patched_names l = patch_targets ch hk items
    ∧ deployments s' = apply_patches body (ok_names l) (deployments s)
    ∧ failed r
      = match next_fault s with Some _ => 1 | None => 0 end
        + nameless items + failed_calls l
    ∧ restarted r = Z.of_nat (length (ok_names l))
    ∧ api_faults_only (replies s')
    ∧ _last_data_hash s' = _last_data_hash s.
Proof.
  intros Hf sel ch hk items body.
  pose proof (executor_same_engine selects cfg env name s) as (_ & Hlh & _).
  destruct (next_fault s) as [e|] eqn:Hn.
  - destruct (executor_list_failed selects cfg env name s e Hf Hn)
      as (s' & E & Ht & Hd & Hf').
    rewrite E in Hlh. exists (Result env 0 0 1), s', [].
    split; [exact E|]. split; [exact Ht|]. split; [constructor|].
    repeat split; auto.
  - destruct (executor_listed selects cfg env name s Hf Hn)
      as (l & s' & E & Ht & Hp & Hnm & Hd & Hf').
    rewrite E in Hlh. eexists _, s', l.
    split; [exact E|]. repeat split; auto.
Qed.

Lemma failed_calls_nonneg l : 0 ≤ failed_calls l.
Proof. unfold failed_calls. lia. Qed.

Lemma nameless_nonneg items : 0 ≤ nameless items.
Proof. unfold nameless. lia. Qed.

Lemma nameless_zero items d :
  nameless items = 0 → d ∈ items → patchable_name d ≠ None.
Proof.
  induction items as [|x items IH]; intros Hz Hin.
  - now apply elem_of_nil in Hin.
  - rewrite nameless_cons in Hz. pose proof (nameless_nonneg items).
    case_bool_decide as Hx; [lia|].
    apply elem_of_cons in Hin as [->|Hin]; [exact Hx | apply IH; [lia | exact Hin]].
Qed.

Lemma failed_calls_zero l :
  failed_calls l = 0 → ok_names l = patched_names l.
Proof.
  induction l as [|ev l IH]; [reflexivity|].
  destruct ev as [| |n b o|]; try exact IH.
  destruct (trace_cons_patch n b o l) as (-> & -> & ->).
  pose proof (failed_calls_nonneg l). destruct o; [lia|].
  intros Hz. rewrite IH; [reflexivity | lia].
Qed.

Lemma patch_targets_all_carry ch hk items :
  (∀ d, d ∈ items → carries_hash ch hk d = true) →
  patch_targets ch hk items = [].
Proof.
  induction items as [|d items IH]; intros H; [reflexivity|].
  rewrite patch_targets_cons, (H d) by now left.
  apply IH. intros d' Hd'. apply H. now right.
Qed.

Lemma patch_targets_elem ch hk items n :
  n ∈ patch_targets ch hk items →
  ∃ d, d ∈ items ∧ carries_hash ch hk d = false ∧ patchable_name d = Some n.
Proof.
  unfold patch_targets. intros (d & Hd & Hn)%list_elem_of_omap.
  exists d. split; [exact Hd|].
  destruct (carries_hash ch hk d); [discriminate | auto].
Qed.

Lemma NoDup_patch_targets ch hk items :
  NoDup (omap patchable_name items) → NoDup (patch_targets ch hk items).
Proof.
  apply NoDup_omap_weaken. intros d n.
  destruct (carries_hash ch hk d); [discriminate | auto].
Qed.

Lemma NoDup_listed_names sel ds :
  NoDup (omap patchable_name ds) →
  NoDup (omap patchable_name
           (List.filter (λ d, selects sel (dep_labels d)) ds)).
Proof.
  rewrite omap_filter. apply NoDup_omap_weaken. intros d n.
  destruct (selects sel (dep_labels d)); [auto | discriminate].
Qed.

Lemma omap_patchable_map body names ds :
  omap patchable_name (map (patch_all body names) ds)
  = omap patchable_name ds.
Proof.
  induction ds as [|d ds IH]; [reflexivity|]. cbn [map].
  now rewrite !omap_cons, patchable_name_patch_all, IH.
Qed.

End Idempotence.

(** X1.  Two passes of the restart executor in a row for a key whose hash
    is cached, over Deployments with distinct names and with no failure
    other than the API's.  Both passes return; no Deployment is patched
    with success more than once over the two; a Deployment patched in the
    first pass gets no patch call in the second; and when the first pass
    reports no failure the second makes no patch call at all and leaves
    the Deployments as they are. *)
Theorem executor_twice_patches_once
    (selects : string → gmap string string → bool) (cfg : Config)
    (env name h : string) (s : State) :
  _last_data_hash s !! (env, name) = Some h →
  api_faults_only (replies s) →
  NoDup (omap patchable_name (deployments s)) →
  ∃ r1 s1 r2 s2 l1 l2,
    _restart_deployments_for_env selects cfg env name s = (Ret r1, s1)
    ∧ _restart_deployments_for_env selects cfg env name s1 = (Ret r2, s2)
    ∧ trace s1 = trace s ++ l1
    ∧ trace s2 = trace s1 ++ l2
    ∧ (∀ n, (patches_of n (l1 ++ l2) ≤ 1)%nat)
    ∧ (∀ n, patches_of n l1 = 1%nat → n ∉ patched_names l2)
    ∧ (failed r1 = 0 →
       patch_calls l2 = [] ∧ deployments s2 = deployments s1
       ∧ restarted r2 = 0).
Proof.
  intros Hh Hf Hnd.
  destruct (executor_pass selects cfg env name s Hf)
    as (r1 & s1 & l1 & E1 & T1 & P1 & N1 & D1 & F1 & R1 & Hf1 & Hlh1).
  destruct (executor_pass selects cfg env name s1 Hf1)
    as (r2 & s2 & l2 & E2 & T2 & P2 & N2 & D2 & F2 & R2 & Hf2 & Hlh2).
  rewrite Hlh1 in N2, P2, D2. rewrite Hh in *.
  set (sel := _deployment_selector_for_env cfg env) in *.
  set (hk := _config_hash_annotation_key (rollout_annotation_key cfg) name) in *.
  set (body1 := patch_body cfg (now_fn cfg (wall s)) (Some h) hk) in *.
  set (body2 := patch_body cfg (now_fn cfg (wall s1)) (Some h) hk) in *.
  set (g := patch_all body1 (ok_names l1)).
  rewrite apply_patches_map in D1. fold g in D1.
  assert (Hlabels : ∀ d, dep_labels (g d) = dep_labels d)
    by (intros d; apply patch_all_name).
  (* the names called in each pass are distinct *)
  assert (Hnd1 : NoDup (patched_names l1)).
  { rewrite N1. destruct (next_fault s); [apply NoDup_nil_2|].
    now apply NoDup_patch_targets, NoDup_listed_names. }
  assert (Hnd2 : NoDup (patched_names l2)).
  { rewrite N2. destruct (next_fault s1); [apply NoDup_nil_2|].
    apply NoDup_patch_targets, NoDup_listed_names.
    rewrite D1. unfold g. now rewrite omap_patchable_map. }
  (* what the first pass patched carries the hash in the second *)
  assert (Hdisj : ∀ n, n ∈ ok_names l1 → n ∉ patched_names l2).
  { intros n Hok Hin. rewrite N2 in Hin.
    destruct (next_fault s1); [now apply elem_of_nil in Hin|].
    apply patch_targets_elem in Hin as (d2 & Hd2 & Hc2 & Hn2).
    rewrite D1, filter_map_labels in Hd2 by exact Hlabels.
    apply list_elem_of_fmap in Hd2 as (d & -> & Hd).
    unfold g in Hn2, Hc2. rewrite patchable_name_patch_all in Hn2.
    apply patchable_name_truthy in Hn2 as [Hdn _].
    rewrite (patch_all_carries body1 (ok_names l1) h hk d) in Hc2;
      [discriminate | apply patch_body_hash | eauto]. }
  exists r1, s1, r2, s2. eexists _, _.
  split; [exact E1|]. split; [exact E2|].
  split; [exact T1|]. split; [exact T2|].
  assert (Hpre : ∀ n e f l,
            patches_of n (RestartAttempt e f :: ListDeployments sel (next_fault s) :: l)
            = patches_of n l) by reflexivity.
  assert (Hpre' : ∀ n e f l,
            patches_of n (RestartAttempt e f :: ListDeployments sel (next_fault s1) :: l)
            = patches_of n l) by reflexivity.
  split; [|split].
  - intros n. rewrite patches_of_app, Hpre, Hpre', !patches_of_ok_names.
    rewrite <- List.length_app, <- List.filter_app.
    apply NoDup_count_le_1. apply NoDup_app.
    split; [now apply NoDup_ok_names|]. split; [|now apply NoDup_ok_names].
    intros m Hm Hm2. apply (Hdisj m Hm). now apply ok_names_patched.
  - intros n Hone. rewrite Hpre, patches_of_ok_names in Hone.
    change (patched_names (RestartAttempt env name
              :: ListDeployments sel (next_fault s1) :: l2))
      with (patched_names l2).
    apply Hdisj.
    destruct (List.filter (λ m, bool_decide (m = n)) (ok_names l1))
      as [|m ms] eqn:Hfl; [discriminate|].
    assert (Hm : m ∈ List.filter (λ m, bool_decide (m = n)) (ok_names l1))
      by (rewrite Hfl; now left).
    apply list_elem_of_In, List.filter_In in Hm as [Hm Heq].
    apply bool_decide_eq_true in Heq. subst m. now apply list_elem_of_In.
  - intros Hz. rewrite F1 in Hz.
    pose proof (failed_calls_nonneg l1) as Hfc.
    destruct (next_fault s) as [e|] eqn:Hnf.
    { pose proof (nameless_nonneg []). lia. }
    set (items1 := List.filter (λ d, selects sel (dep_labels d)) (deployments s)) in *.
    pose proof (nameless_nonneg items1) as Hnl.
    assert (Hall : patch_targets (Some h) hk
                     match next_fault s1 with
                     | None => List.filter (λ d, selects sel (dep_labels d))
                                           (deployments s1)
                     | Some _ => []
                     end = []).
    { destruct (next_fault s1); [reflexivity|].
      apply patch_targets_all_carry. intros d2 Hd2.
      rewrite D1, filter_map_labels in Hd2 by exact Hlabels.
      apply list_elem_of_fmap in Hd2 as (d & -> & Hd). fold items1 in Hd.
      apply patch_all_carries; [apply patch_body_hash|].
      destruct (carries_hash (Some h) hk d) eqn:Hc; [now left | right].
      destruct (patchable_name d) as [n|] eqn:Hpn.
      2:{ exfalso. apply (nameless_zero items1 d); [lia | exact Hd | exact Hpn]. }
      exists n. split; [|now apply patchable_name_truthy in Hpn].
      rewrite failed_calls_zero by lia. rewrite N1.
      unfold patch_targets. apply list_elem_of_omap. exists d.
      split; [exact Hd|]. now rewrite Hc. }
    rewrite Hall in N2. apply (patches_with_names_nil body2) in N2; [|exact P2].
    subst l2. split; [reflexivity|]. split; [exact D2 | exact R2].
Qed.

Lemma executor_twice_patches_once_witness :
  let s := set_last_data_hash (λ _, {[ Demo.key := "abc" ]})
             (Demo.engine 100
                [ Demo.deployment "helloworld" "test";
                  Demo.deployment "worker" "test" ]
                [ Reply None 0; Reply None 0; Reply (Some (ApiException 500)) 0 ]) in
  ∃ r1 s1 r2 s2 l1 l2,
    _restart_deployments_for_env Demo.selects (Demo.cfg 5)
      "test" "helloworld-config" s = (Ret r1, s1)
    ∧ _restart_deployments_for_env Demo.selects (Demo.cfg 5)
        "test" "helloworld-config" s1 = (Ret r2, s2)
    ∧ trace s1 = trace s ++ l1
    ∧ trace s2 = trace s1 ++ l2
    ∧ (∀ n, (patches_of n (l1 ++ l2) ≤ 1)%nat)
    ∧ (∀ n, patches_of n l1 = 1%nat → n ∉ patched_names l2)
    ∧ (failed r1 = 0 →
       patch_calls l2 = [] ∧ deployments s2 = deployments s1
       ∧ restarted r2 = 0).
Proof.
  apply (executor_twice_patches_once Demo.selects (Demo.cfg 5)
           "test" "helloworld-config" "abc").
  - reflexivity.
  - unfold api_faults_only. simpl. repeat constructor.
  - simpl. apply NoDup_cons. split; [|apply NoDup_singleton].
    intros Hin. apply list_elem_of_singleton in Hin. discriminate.
Defined.

Example second_pass_skips :
  let s := set_last_data_hash (λ _, {[ Demo.key := "abc" ]})
             (Demo.engine 100
                [ Demo.deployment "helloworld" "test";
                  Demo.deployment "worker" "test" ]
                [ Reply None 0; Reply None 0; Reply (Some (ApiException 500)) 0 ]) in
  let '(r1, s1) :=
    _restart_deployments_for_env Demo.selects (Demo.cfg 5)
      "test" "helloworld-config" s in
  let '(r2, s2) :=
    _restart_deployments_for_env Demo.selects (Demo.cfg 5)
      "test" "helloworld-config" s1 in
  r1 = Ret (Result "test" 2 1 1) ∧ r2 = Ret (Result "test" 2 1 0)
  ∧ patched_names (trace s2) = ["helloworld"; "worker"; "worker"]
  ∧ ok_names (trace s2) = ["helloworld"; "worker"].
Proof. vm_compute. repeat split. Qed.

(** ** The rollout timestamp a pass writes *)

Section Timestamp.
Variable selects : string → gmap string string → bool.
Variable cfg : Config.

(** One patch call of the loop, whatever the API does: it is traced once,
    with the timestamp of the pass and the hash annotation, if any. *)
Lemma patch_call_trace n ts extra s :
  ∃ o,
    trace (snd (try_with
                  (patch_deployment_restart n (rollout_annotation_key cfg)
                     ts extra;;;
                   ret true)
                  (on_api_exception false) s))
    = trace s
      ++ [PatchDeployment n
            (default ∅ extra ∪ {[ rollout_annotation_key cfg := ts ]}) o].
Proof.
  unfold try_with, patch_deployment_restart, patch_namespaced_deployment,
    bind, next_reply, gets, log_call, modify, ret, raise, on_api_exception.
  destruct (replies s) as [|[f lat] rs]; [|destruct f as [[st| |]|]]; cbn;
    try destruct (existsb _ _); cbn; eexists; reflexivity.
Qed.

Lemma restart_loop_bodies ts ch hk items : ∀ r f s,
  ∃ l, trace (snd (restart_loop cfg ts ch hk items r f s)) = trace s ++ l
       ∧ patches_with (patch_body cfg ts ch hk) l.
Proof.
  induction items as [|d items IH]; intros r f s.
  - exists []. cbn. rewrite app_nil_r. split; [reflexivity | constructor].
  - cbn [restart_loop]. destruct (dep_name d) as [n|]; [|apply IH].
    destruct (negb (Py.truthy n)); [apply IH|].
    destruct (carries_hash ch hk d); [apply IH|].
    unfold bind at 1.
    destruct (patch_call_trace n ts ((λ h, {[ hk := h ]}) <$> ch) s)
      as (o & Ht).
    destruct (try_with _ _ s) as [[patched|e] s1]; cbn [snd] in *.
    + assert (Hgo : ∀ r' f',
                ∃ l, trace (snd (restart_loop cfg ts ch hk items r' f' s1))
                     = trace s ++ l
                     ∧ patches_with (patch_body cfg ts ch hk) l).
      { intros r' f'. destruct (IH r' f' s1) as (l & E & P).
        eexists (_ :: l). rewrite E, Ht, <- app_assoc.
        split; [reflexivity|]. constructor; [|exact P].
        eexists _, _. reflexivity. }
      destruct patched; apply Hgo.
    + eexists [_]. split; [exact Ht|]. repeat constructor.
      eexists _, _. reflexivity.
Qed.

(** The listing of a pass, whatever the API does. *)
Lemma list_call_outcome sel s0 :
  ∃ f,
    trace (snd (try_with
                  (let! l := list_namespaced_deployment selects sel in
                   ret (Some l))
                  (on_api_exception None) s0))
    = trace s0 ++ [ListDeployments sel f]
    ∧ wall (snd (try_with
                   (let! l := list_namespaced_deployment selects sel in
                    ret (Some l))
                   (on_api_exception None) s0)) = wall s0
    ∧ _last_data_hash
        (snd (try_with
                (let! l := list_namespaced_deployment selects sel in
                 ret (Some l))
                (on_api_exception None) s0)) = _last_data_hash s0.
Proof.
  unfold try_with, list_namespaced_deployment, bind, next_reply, log_call,
    modify, gets, ret, raise, on_api_exception.
  destruct (replies s0) as [|[f lat] rs]; [|destruct f as [[st| |]|]]; cbn;
    eexists; repeat split.
Qed.

(** A pass of the executor, whatever the API does: after the attempt and
    the listing come patch calls only, each with the timestamp read from
    the wall clock of the state the pass started in. *)
Lemma executor_bodies env name s :
  ∃ f l,
    pass_calls selects cfg env name s
    = RestartAttempt env name
      :: ListDeployments (_deployment_selector_for_env cfg env) f :: l
    ∧ patches_with
        (patch_body cfg (now_fn cfg (wall s))
           (_last_data_hash s !! (env, name))
           (_config_hash_annotation_key (rollout_annotation_key cfg) name))
        l.
Proof.
  unfold pass_calls.
  set (sel := _deployment_selector_for_env cfg env).
  set (hk := _config_hash_annotation_key (rollout_annotation_key cfg) name).
  enough (∃ f l,
            trace (snd (_restart_deployments_for_env selects cfg env name s))
            = trace s ++ RestartAttempt env name :: ListDeployments sel f :: l
            ∧ patches_with
                (patch_body cfg (now_fn cfg (wall s))
                   (_last_data_hash s !! (env, name)) hk) l)
    as (f & l & E & P).
  { exists f, l. split; [|exact P]. rewrite E. apply drop_app_length. }
  unfold _restart_deployments_for_env.
  unfold bind at 1, log_call at 1, modify at 1.
  set (s0 := set_trace (λ l, l ++ [RestartAttempt env name]) s).
  unfold bind at 1. fold sel.
  destruct (list_call_outcome sel s0) as (f & Ht & Hw & Hh).
  change (trace s0) with (trace s ++ [RestartAttempt env name]) in Ht.
  change (wall s0) with (wall s) in Hw.
  change (_last_data_hash s0) with (_last_data_hash s) in Hh.
  rewrite <- app_assoc in Ht. cbn [app] in Ht.
  destruct (try_with _ _ s0) as [[[items|]|e] s2]; cbn [snd] in *.
  - unfold bind at 1, gets at 1. unfold bind at 1, gets at 1.
    rewrite Hw, Hh. fold hk.
    destruct (restart_loop_bodies (now_fn cfg (wall s))
                (_last_data_hash s !! (env, name)) hk items 0 0 s2)
      as (l & E & P).
    exists f, l. split; [|exact P]. unfold bind.
    destruct (restart_loop _ _ _ _ _ _ _ s2) as [[[r fl]|e] s3];
      cbn [snd ret] in *; rewrite E, Ht, <- app_assoc; reflexivity.
  - exists f, []. split; [exact Ht | constructor].
  - exists f, []. split; [exact Ht | constructor].
Qed.

(** The value a successful patch of a pass carries under the rollout
    annotation key. *)
Lemma pass_patch_timestamp env name s d b o :
  _config_hash_annotation_key (rollout_annotation_key cfg) name
  ≠ rollout_annotation_key cfg →
  PatchDeployment d b o ∈ pass_calls selects cfg env name s →
  b !! rollout_annotation_key cfg = Some (now_fn cfg (wall s)).
Proof.
  intros Hne Hin. destruct (executor_bodies env name s) as (f & l & E & P).
  rewrite E in Hin.
  apply elem_of_cons in Hin as [Hin|Hin]; [discriminate|].
  apply elem_of_cons in Hin as [Hin|Hin]; [discriminate|].
  unfold patches_with in P. rewrite Forall_forall in P.
  destruct (P _ Hin) as (n & o' & [= _ -> _]).
  unfold patch_body.
  destruct (_last_data_hash s !! (env, name)) as [h|]; cbn.
  - rewrite lookup_union_r by now apply lookup_singleton_ne.
    apply lookup_singleton_eq.
  - rewrite (left_id ∅ (∪)). apply lookup_singleton_eq.
Qed.

End Timestamp.

(** C2, as the code has it.  A pass of the restart executor reads the wall
    clock once, after it has listed the Deployments, and every patch of the
    pass carries that one reading under the rollout annotation key,
    formatted by [utc_now_rfc3339] to the second (the ConfigMap's hash
    annotation key being another key); [wall s] is the reading of the pass
    started in [s].  So for two passes that both patch the Deployment [d]
    with success, with readings [wall s1] before [wall s2]: the values
    written never decrease as strings; they increase strictly exactly when
    the two readings lie in different seconds, and are the same string
    exactly when they lie in the same second. *)
Theorem C2_rollout_timestamp_monotone
    (selects : string → gmap string string → bool) (cfg : Config)
    (env1 name1 env2 name2 : string) (s1 s2 : State)
    (d : string) (b1 b2 : gmap string string) :
  now_fn cfg = utc_now_rfc3339 →
  _config_hash_annotation_key (rollout_annotation_key cfg) name1
  ≠ rollout_annotation_key cfg →
  _config_hash_annotation_key (rollout_annotation_key cfg) name2
  ≠ rollout_annotation_key cfg →
  valid_datetime (wall s1) → valid_datetime (wall s2) →
  datetime_compare (wall s1) (wall s2) = Lt →
  PatchDeployment d b1 None ∈ pass_calls selects cfg env1 name1 s1 →
  PatchDeployment d b2 None ∈ pass_calls selects cfg env2 name2 s2 →
  ∃ v1 v2,
    b1 !! rollout_annotation_key cfg = Some v1
    ∧ b2 !! rollout_annotation_key cfg = Some v2
    ∧ v1 = utc_now_rfc3339 (wall s1)
    ∧ v2 = utc_now_rfc3339 (wall s2)
    ∧ String.leb v1 v2 = true
    ∧ (String.ltb v1 v2 = true ↔ second_compare (wall s1) (wall s2) = Lt)
    ∧ (v1 = v2 ↔ second_compare (wall s1) (wall s2) = Eq).
Proof.
  intros Hnow Hk1 Hk2 V1 V2 Hlt Hp1 Hp2.
  exists (utc_now_rfc3339 (wall s1)), (utc_now_rfc3339 (wall s2)).
  rewrite (pass_patch_timestamp selects cfg env1 name1 s1 d b1 None Hk1 Hp1).
  rewrite (pass_patch_timestamp selects cfg env2 name2 s2 d b2 None Hk2 Hp2).
  rewrite Hnow.
  split; [reflexivity|]. split; [reflexivity|].
  split; [reflexivity|]. split; [reflexivity|].
  apply utc_now_rfc3339_monotone; assumption.
Qed.

Lemma C2_rollout_timestamp_monotone_witness :
  let t1 := DateTime 2024 1 15 8 30 0 900000 in
  let t2 := DateTime 2024 1 15 8 30 1 100000 in
  let s1 :=
    set_wall (λ _, t1)
      (Demo.engine 100 [Demo.deployment "helloworld" "test"] []) in
  let s2 :=
    set_wall (λ _, t2)
      (snd (_restart_deployments_for_env Demo.selects (Demo.cfg 5)
              "test" "helloworld-config" s1)) in
  let b1 : gmap string string :=
    {[ "shipshape.io/restartedAt" := "2024-01-15T08:30:00Z" ]} in
  let b2 : gmap string string :=
    {[ "shipshape.io/restartedAt" := "2024-01-15T08:30:01Z" ]} in
  ∃ v1 v2,
    b1 !! rollout_annotation_key (Demo.cfg 5) = Some v1
    ∧ b2 !! rollout_annotation_key (Demo.cfg 5) = Some v2
    ∧ v1 = utc_now_rfc3339 (wall s1)
    ∧ v2 = utc_now_rfc3339 (wall s2)
    ∧ String.leb v1 v2 = true
    ∧ (String.ltb v1 v2 = true ↔ second_compare (wall s1) (wall s2) = Lt)
    ∧ (v1 = v2 ↔ second_compare (wall s1) (wall s2) = Eq).
Proof.
  intros t1 t2 s1 s2 b1 b2.
  apply (C2_rollout_timestamp_monotone Demo.selects (Demo.cfg 5)
           "test" "helloworld-config" "test" "helloworld-config"
           s1 s2 "helloworld" b1 b2).
  - reflexivity.
  - vm_compute. discriminate.
  - vm_compute. discriminate.
  - vm_compute. repeat split; discriminate.
  - vm_compute. repeat split; discriminate.
  - vm_compute. reflexivity.
  - vm_compute. apply list_elem_of_further, list_elem_of_further,
      list_elem_of_here.
  - vm_compute. apply list_elem_of_further, list_elem_of_further,
      list_elem_of_here.
Defined.

(** C2 as worded fails: two restarts of one Deployment, the clock read at
    two instants of the same second, write the same timestamp. *)
Lemma C2_counterexample :
  let t1 := DateTime 2024 1 15 8 30 0 100000 in
  let t2 := DateTime 2024 1 15 8 30 0 900000 in
  let s1 :=
    set_wall (λ _, t1)
      (Demo.engine 100 [Demo.deployment "helloworld" "test"] []) in
  let s2 :=
    set_wall (λ _, t2)
      (snd (_restart_deployments_for_env Demo.selects (Demo.cfg 5)
              "test" "helloworld-config" s1)) in
  let written : gmap string string :=
    {[ "shipshape.io/restartedAt" := "2024-01-15T08:30:00Z" ]} in
  datetime_compare t1 t2 = Lt
  ∧ patch_calls (pass_calls Demo.selects (Demo.cfg 5)
                   "test" "helloworld-config" s1)
    = [PatchDeployment "helloworld" written None]
  ∧ patch_calls (pass_calls Demo.selects (Demo.cfg 5)
                   "test" "helloworld-config" s2)
    = [PatchDeployment "helloworld" written None]
  ∧ String.ltb "2024-01-15T08:30:00Z" "2024-01-15T08:30:00Z" = false.
Proof. vm_compute. repeat split. Qed.

(** ** The forced flush at shutdown *)

Section Flush.
Variable selects : string → gmap string string → bool.
Variable cfg : Config.

(** One key of the flush: whatever the restart does, the key leaves the
    queue and the retry counters, one attempt is traced for it, and the
    counter of dropped restarts goes up by one at most. *)
Lemma flush_one_spec k s :
  ∃ s1 l,
    flush_one selects cfg k s = (Ret tt, s1)
    ∧ _pending_restarts s1 = ODict.pop k (_pending_restarts s)
    ∧ _pending_retry_attempts s1 = delete k (_pending_retry_attempts s)
    ∧ _last_data_hash s1 = _last_data_hash s
    ∧ trace s1 = trace s ++ l
    ∧ restart_attempts k l = 1%nat
    ∧ (∀ k', k' ≠ k → restart_attempts k' l = 0%nat)
    ∧ (dropped_restarts_total s ≤ dropped_restarts_total s1
       ≤ dropped_restarts_total s + 1)%N.
Proof.
  destruct k as [env name].
  unfold flush_one, try_with, bind at 1, gets at 1.
  unfold bind at 1, _restart_and_record, bind at 1.
  pose proof (executor_same_engine selects cfg env name s)
    as (_ & Hlh & Hp & Hra & _ & _ & Hdr).
  destruct (executor_trace selects cfg env name s) as (l & E & A).
  assert (Hone : restart_attempts (env, name) (RestartAttempt env name :: l)
                 = 1%nat).
  { rewrite restart_attempts_cons_attempt, A.
    now rewrite bool_decide_true by reflexivity. }
  assert (Hzero : ∀ k', k' ≠ (env, name) →
            restart_attempts k' (RestartAttempt env name :: l) = 0%nat).
  { intros k' Hk'. rewrite restart_attempts_cons_attempt, A.
    now rewrite bool_decide_false by congruence. }
  destruct (_restart_deployments_for_env selects cfg env name s)
    as [[r|e] s1]; simpl in Hlh, Hp, Hra, Hdr, E.
  - destruct (failed r =? 0).
    + eexists _, (RestartAttempt env name :: l). split; [reflexivity|]. simpl.
      rewrite Hp, Hra, Hdr. repeat split; first [assumption | lia].
    + eexists _, (RestartAttempt env name :: l). split; [reflexivity|]. simpl.
      rewrite Hp, Hra, Hdr. repeat split; first [assumption | lia].
  - eexists _, (RestartAttempt env name :: l). split; [reflexivity|]. simpl.
    rewrite Hp, Hra, Hdr. repeat split; first [assumption | lia].
Qed.

Lemma flush_loop_spec ks : ∀ s,
  ∃ s' l,
    for_each ks (flush_one selects cfg) s = (Ret tt, s')
    ∧ _pending_restarts s'
      = fold_left (λ d k, ODict.pop k d) ks (_pending_restarts s)
    ∧ _pending_retry_attempts s'
      = fold_left (λ m k, delete k m) ks (_pending_retry_attempts s)
    ∧ _last_data_hash s' = _last_data_hash s
    ∧ trace s' = trace s ++ l
    ∧ (∀ k, restart_attempts k l
            = length (List.filter (λ k', bool_decide (k' = k)) ks))
    ∧ (dropped_restarts_total s ≤ dropped_restarts_total s'
       ≤ dropped_restarts_total s + N.of_nat (length ks))%N.
Proof.
  induction ks as [|k ks IH]; intros s.
  - exists s, []. cbn [for_each fold_left]. rewrite app_nil_r.
    repeat split; auto; simpl; lia.
  - destruct (flush_one_spec k s)
      as (s1 & l1 & E1 & Hp1 & Hr1 & Hh1 & T1 & A1 & Z1 & D1).
    destruct (IH s1) as (s' & l2 & E2 & Hp2 & Hr2 & Hh2 & T2 & A2 & D2).
    exists s', (l1 ++ l2). cbn [for_each fold_left]. unfold bind.
    rewrite E1, E2, Hp2, Hr2, Hp1, Hr1, Hh2, Hh1, T2, T1, app_assoc.
    repeat split; auto.
    + intros k'. rewrite restart_attempts_app, A2. cbn [List.filter].
      case_bool_decide as Hk.
      * subst k'. rewrite A1. reflexivity.
      * rewrite Z1 by congruence. reflexivity.
    + lia.
    + cbn [length]. lia.
Qed.

Lemma pop_all_keys ks : ∀ (d : list (Key * Z)),
  (∀ k, k ∈ ODict.keys d → k ∈ ks) →
  fold_left (λ d k, ODict.pop k d) ks d = [].
Proof.
  induction ks as [|k ks IH]; intros d Hd; cbn [fold_left].
  - destruct d as [|[k v] d]; [reflexivity|].
    specialize (Hd k). unfold ODict.keys in Hd. simpl in Hd.
    exfalso. eapply not_elem_of_nil, Hd. now left.
  - apply IH. intros k' [Hin Hne]%odict_keys_pop.
    apply Hd in Hin. apply elem_of_cons in Hin as [?|?]; [contradiction | auto].
Qed.

Lemma delete_all_lookup (ks : list Key) : ∀ (m : gmap Key N) k,
  k ∈ ks → fold_left (λ m k, delete k m) ks m !! k = None.
Proof.
  induction ks as [|k0 ks IH]; intros m k Hin; cbn [fold_left].
  - now apply elem_of_nil in Hin.
  - destruct (decide (k ∈ ks)) as [Hks|Hks]; [now apply IH|].
    apply elem_of_cons in Hin as [->|?]; [|contradiction].
    clear IH. revert m. induction ks as [|k1 ks IH]; intros m; cbn [fold_left].
    + apply lookup_delete_eq.
    + apply not_elem_of_cons in Hks as [Hne Hks].
      rewrite delete_delete. apply IH, Hks.
Qed.

Lemma count_in_NoDup (k : Key) ks :
  NoDup ks →
  length (List.filter (λ k', bool_decide (k' = k)) ks)
  = if decide (k ∈ ks) then 1%nat else 0%nat.
Proof.
  induction ks as [|k0 ks IH]; intros Hnd.
  - simpl. destruct (decide (k ∈ [])) as [Hin|];
      [now apply elem_of_nil in Hin | reflexivity].
  - apply NoDup_cons in Hnd as [Hfresh Hnd]. cbn [List.filter].
    case_bool_decide as Hk.
    + subst k0. cbn [length]. rewrite IH by exact Hnd.
      rewrite decide_False by exact Hfresh.
      rewrite decide_True by now left. reflexivity.
    + rewrite IH by exact Hnd.
      destruct (decide (k ∈ ks)) as [Hin|Hin].
      * rewrite decide_True by now right. reflexivity.
      * rewrite decide_False; [reflexivity|].
        intros [?|?]%elem_of_cons; [congruence | contradiction].
Qed.

End Flush.

(** X3.  The forced flush at shutdown never raises and always returns with
    an empty queue: every key that was queued has been tried exactly once
    and has lost its retry counter, no other key has been tried, the cached
    hashes are as before, and the counter of dropped restarts has grown by
    the number of queued keys at most. *)
Theorem flush_empties_queue
    (selects : string → gmap string string → bool) (cfg : Config) (s : State) :
  ODict.wf (_pending_restarts s) →
  ∃ s' l,
    _flush_pending_restarts_on_shutdown selects cfg s = (Ret tt, s')
    ∧ _pending_restarts s' = []
    ∧ trace s' = trace s ++ l
    ∧ (∀ k, k ∈ ODict.keys (_pending_restarts s) →
         restart_attempts k l = 1%nat ∧ _pending_retry_attempts s' !! k = None)
    ∧ (∀ k, k ∉ ODict.keys (_pending_restarts s) → restart_attempts k l = 0%nat)
    ∧ _last_data_hash s' = _last_data_hash s
    ∧ (dropped_restarts_total s ≤ dropped_restarts_total s'
       ≤ dropped_restarts_total s + N.of_nat (length (_pending_restarts s)))%N.
Proof.
  intros Hwf.
  destruct (flush_loop_spec selects cfg (ODict.keys (_pending_restarts s)) s)
    as (s' & l & E & Hp & Hr & Hh & T & A & D).
  exists s', l. unfold _flush_pending_restarts_on_shutdown, bind, gets.
  split; [exact E|]. split; [rewrite Hp; now apply pop_all_keys|].
  split; [exact T|]. split; [|split; [|split]].
  - intros k Hk. rewrite A, (count_in_NoDup k _ Hwf), decide_True by exact Hk.
    split; [reflexivity|]. rewrite Hr. now apply delete_all_lookup.
  - intros k Hk. now rewrite A, (count_in_NoDup k _ Hwf), decide_False.
  - exact Hh.
  - unfold ODict.keys in D. now rewrite length_map in D.
Qed.

Lemma flush_empties_queue_witness :
  let s :=
    set_pending_restarts
      (λ _, [(("test", "helloworld-config"), seconds 160);
             (("prod", "helloworld-config"), seconds 170)])
      (Demo.engine 106 [Demo.deployment "helloworld" "test"]
         [Reply None 0; Reply (Some (ApiException 500)) 0; Reply (Some OtherError) 0]) in
  ∃ s' l,
    _flush_pending_restarts_on_shutdown Demo.selects (Demo.cfg 60) s = (Ret tt, s')
    ∧ _pending_restarts s' = []
    ∧ trace s' = trace s ++ l
    ∧ (∀ k, k ∈ ODict.keys (_pending_restarts s) →
         restart_attempts k l = 1%nat ∧ _pending_retry_attempts s' !! k = None)
    ∧ (∀ k, k ∉ ODict.keys (_pending_restarts s) → restart_attempts k l = 0%nat)
    ∧ _last_data_hash s' = _last_data_hash s
    ∧ (dropped_restarts_total s ≤ dropped_restarts_total s'
       ≤ dropped_restarts_total s + N.of_nat (length (_pending_restarts s)))%N.
Proof.
  apply (flush_empties_queue Demo.selects (Demo.cfg 60)).
  unfold ODict.wf. simpl. apply NoDup_cons. split; [|apply NoDup_singleton].
  intros Hin. apply list_elem_of_singleton in Hin. discriminate.
Defined.

(** A failed patch and a transport failure during the flush: both keys are
    dropped, and counted. *)
Example flush_drops_failures :
  let s :=
    set_pending_restarts
      (λ _, [(("test", "helloworld-config"), seconds 160);
             (("prod", "helloworld-config"), seconds 170)])
      (Demo.engine 106 [Demo.deployment "helloworld" "test"]
         [Reply None 0; Reply (Some (ApiException 500)) 0; Reply (Some OtherError) 0]) in
  let '(r, s') := _flush_pending_restarts_on_shutdown Demo.selects (Demo.cfg 60) s in
  r = Ret tt ∧ _pending_restarts s' = [] ∧ dropped_restarts_total s' = 2%N
  ∧ _last_restart s' = ∅.
Proof. vm_compute. repeat split. Qed.

(** ** Draining the queue *)

Section Drain.
Variable selects : string → gmap string string → bool.
Variable cfg : Config.

Lemma drain_one_touches_only now env name :
  steps (touches_only (env, name)) (drain_one selects cfg now (env, name)).
Proof. unfold drain_one. steps_auto. Qed.

Lemma seconds_pow_pos e : 0 ≤ e → 0 < Z.min (seconds 30) (seconds (2 ^ e)).
Proof.
  intros He. unfold seconds. pose proof (Z.pow_pos_nonneg 2 e ltac:(lia) He).
  lia.
Qed.

Lemma drain_one_spec now env name s out s1 :
  drain_one selects cfg now (env, name) s = (out, s1) →
  ∃ l, trace s1 = trace s ++ l
       ∧ restart_attempts (env, name) l = 1%nat
       ∧ (∀ k', k' ≠ (env, name) → untouched k' s s1 l)
       ∧ (out = Ret tt →
          not_due now (ODict.get (env, name) (_pending_restarts s1))).
Proof.
  intros Hrun.
  pose proof (drain_one_touches_only now env name s) as Hto.
  rewrite Hrun in Hto. simpl in Hto.
  revert Hrun. unfold drain_one, bind at 1.
  destruct (_restart_and_record selects cfg env name now false s)
    as [o s2] eqn:Hrr.
  destruct (restart_and_record_trace _ _ _ _ _ _ _ _ _ Hrr)
    as (_ & l & E & A).
  assert (Hs : s1 = s2 → ∃ l, trace s1 = trace s ++ l
                 ∧ restart_attempts (env, name) l = 1%nat
                 ∧ (∀ k', k' ≠ (env, name) → untouched k' s s1 l)).
  { intros ->. exists l. split; [exact E|]. split; [exact A|].
    now apply (touches_only_untouched (env, name)). }
  destruct o as [r|e].
  2:{ intros [= <- <-]. destruct (Hs eq_refl) as (l' & ? & ? & ?).
      exists l'. split; [assumption|]. split; [assumption|].
      split; [assumption|]. intros; discriminate. }
  unfold ret. intros [= <- <-]. destruct (Hs eq_refl) as (l' & ? & ? & ?).
  exists l'. split; [assumption|]. split; [assumption|].
  split; [assumption|]. intros _. clear Hs.
  revert Hrr. unfold _restart_and_record, bind at 1.
  pose proof (executor_same_engine selects cfg env name s)
    as (_ & _ & Hp & Hra & _).
  destruct (_restart_deployments_for_env selects cfg env name s)
    as [[r'|e] s3]; [|discriminate]. simpl in Hp, Hra.
  destruct (failed r' =? 0).
  - unfold bind, modify, ret. intros [= _ <-].
    unfold _mark_restart_executed. simpl. now rewrite odict_get_pop_eq.
  - unfold _schedule_retry, bind, gets, modify, ret, raise. simpl.
    destruct (_ <? _)%N; [discriminate|]. intros [= _ <-]. simpl.
    rewrite odict_get_set_eq. simpl.
    pose proof (seconds_pow_pos
                  (Z.of_N (default 0%N (_pending_retry_attempts s3 !! (env, name))
                           + 1 - 1)) ltac:(lia)).
    lia.
Qed.

Lemma drain_loop_spec now ks : ∀ s out s',
  NoDup ks →
  for_each ks (drain_one selects cfg now) s = (out, s') →
  ∃ l, trace s' = trace s ++ l
       ∧ (∀ k, k ∉ ks → untouched k s s' l)
       ∧ (∀ k, (restart_attempts k l ≤ 1)%nat)
       ∧ (out = Ret tt →
          ∀ k, k ∈ ks →
            restart_attempts k l = 1%nat
            ∧ not_due now (ODict.get k (_pending_restarts s'))).
Proof.
  induction ks as [|[env name] ks IH]; intros s out s' Hnd Hrun.
  - cbn [for_each] in Hrun. injection Hrun as <- <-. exists [].
    rewrite app_nil_r. split; [reflexivity|]. split; [repeat split|].
    split; [intros k; cbn; lia|]. intros _ k Hk. now apply elem_of_nil in Hk.
  - apply NoDup_cons in Hnd as [Hfresh Hnd].
    cbn [for_each] in Hrun. unfold bind at 1 in Hrun.
    destruct (drain_one selects cfg now (env, name) s) as [o1 s1] eqn:H1.
    destruct (drain_one_spec now env name s o1 s1 H1) as (l1 & E1 & A1 & F1 & D1).
    destruct o1 as [[]|e].
    + destruct (IH s1 out s' Hnd Hrun) as (l2 & E2 & F2 & B2 & D2).
      exists (l1 ++ l2). split; [now rewrite E2, E1, app_assoc|].
      split; [|split].
      * intros k [Hne Hk]%not_elem_of_cons.
        apply (untouched_trans k s s1 s' l1 l2); auto.
      * intros k. rewrite restart_attempts_app.
        destruct (decide (k = (env, name))) as [->|Hne].
        -- destruct (F2 (env, name) Hfresh) as (_ & _ & _ & ->). lia.
        -- destruct (F1 k Hne) as (_ & _ & _ & ->). specialize (B2 k). lia.
      * intros Hout k Hk. rewrite restart_attempts_app.
        apply elem_of_cons in Hk as [->|Hk].
        -- destruct (F2 (env, name) Hfresh) as (_ & -> & _ & ->).
           split; [lia | auto].
        -- assert (Hne : k ≠ (env, name)) by (intros ->; contradiction).
           destruct (F1 k Hne) as (_ & _ & _ & ->).
           destruct (D2 Hout k Hk) as [-> ?]. auto.
    + injection Hrun as <- <-. exists l1. split; [exact E1|].
      split; [|split].
      * intros k [Hne Hk]%not_elem_of_cons. auto.
      * intros k. destruct (decide (k = (env, name))) as [->|Hne];
          [lia | destruct (F1 k Hne) as (_ & _ & _ & ->); lia].
      * discriminate.
Qed.

Lemma odict_keys_filter (p : Key * Z → bool) (d : list (Key * Z)) k :
  ODict.wf d →
  (k ∈ ODict.keys (List.filter p d)
   ↔ ∃ v, ODict.get k d = Some v ∧ p (k, v) = true).
Proof.
  unfold ODict.wf, ODict.keys.
  induction d as [|[k0 v0] d IH]; intros Hwf.
  - simpl. split; [intros H; now apply elem_of_nil in H | intros (v & H & _); discriminate].
  - apply NoDup_cons in Hwf as [Hfresh Hwf]. specialize (IH Hwf).
    cbn [List.filter ODict.get].
    destruct (decide (k = k0)) as [->|Hne].
    + assert (Hnot : k0 ∉ map fst (List.filter p d)).
      { intros Hin. apply Hfresh. apply list_elem_of_fmap in Hin as ([k1 v1] & -> & Hin).
        apply list_elem_of_In, List.filter_In in Hin as [Hin _].
        apply list_elem_of_fmap. exists (k1, v1). split; [reflexivity|].
        now apply list_elem_of_In. }
      destruct (p (k0, v0)) eqn:Hp.
      * split; [intros _; eauto | intros _; now left].
      * split; [intros Hin; contradiction | intros (v & [= <-] & Hv); congruence].
    + destruct (p (k0, v0)); cbn [map fst]; rewrite ?elem_of_cons, IH;
        [|reflexivity]. split; [intros [?|?]; [contradiction|auto] | auto].
Qed.

Lemma odict_wf_filter (p : Key * Z → bool) (d : list (Key * Z)) :
  ODict.wf d → ODict.wf (List.filter p d).
Proof.
  unfold ODict.wf, ODict.keys. induction d as [|[k v] d IH]; intros Hwf.
  - exact Hwf.
  - apply NoDup_cons in Hwf as [Hfresh Hwf]. cbn [List.filter].
    destruct (p (k, v)); [|auto]. cbn [map fst]. apply NoDup_cons.
    split; [|auto]. intros Hin. apply Hfresh.
    apply list_elem_of_fmap in Hin as ([k1 v1] & -> & Hin).
    apply list_elem_of_In, List.filter_In in Hin as [Hin _].
    apply list_elem_of_fmap. exists (k1, v1). split; [reflexivity|].
    now apply list_elem_of_In.
Qed.

End Drain.

(** X4.  Draining the queue at [now], the queue holding one deadline per
    key.  No key is tried more than once; a key that is not due is not tried
    and keeps its deadline, cached hash and retry counter; and when the
    drain returns, every key that was due has been tried exactly once and
    nothing in the queue is due any more: a restarted key has left it, a
    failed one is due again later. *)
Theorem drain_restarts_due_keys_once
    (selects : string → gmap string string → bool) (cfg : Config)
    (now : Z) (s : State) (out : res unit) (s' : State) :
  ODict.wf (_pending_restarts s) →
  _drain_pending_restarts selects cfg now s = (out, s') →
  ∃ l, trace s' = trace s ++ l
       ∧ (∀ k, (restart_attempts k l ≤ 1)%nat)
       ∧ (∀ k, not_due now (ODict.get k (_pending_restarts s)) →
            untouched k s s' l)
       ∧ (out = Ret tt →
          (∀ k d, ODict.get k (_pending_restarts s) = Some d → d ≤ now →
             restart_attempts k l = 1%nat)
          ∧ ∀ k, not_due now (ODict.get k (_pending_restarts s'))).
Proof.
  intros Hwf. unfold _drain_pending_restarts, bind, gets.
  set (ks := ODict.keys (List.filter (λ kv, snd kv <=? now) (_pending_restarts s))).
  intros Hrun.
  assert (Hks : ∀ k, k ∈ ks ↔ ∃ d, ODict.get k (_pending_restarts s) = Some d ∧ d ≤ now).
  { intros k. unfold ks. rewrite odict_keys_filter by exact Hwf.
    split; intros (d & Hd & Hle); exists d; (split; [exact Hd|]);
      simpl in *; lia. }
  destruct (drain_loop_spec selects cfg now ks s out s'
              (odict_wf_filter _ _ Hwf) Hrun) as (l & E & F & B & D).
  exists l. split; [exact E|]. split; [exact B|]. split.
  - intros k Hnd. apply F. rewrite Hks. intros (d & Hd & Hle).
    rewrite Hd in Hnd. simpl in Hnd. lia.
  - intros Hout. split.
    + intros k d Hd Hle. apply (D Hout). rewrite Hks. eauto.
    + intros k. destruct (decide (k ∈ ks)) as [Hin|Hin].
      * now apply (D Hout).
      * destruct (F k Hin) as (_ & -> & _).
        destruct (ODict.get k (_pending_restarts s)) as [d|] eqn:Hd; [|exact I].
        simpl. destruct (Z.le_gt_cases d now) as [Hle|Hgt]; [|lia].
        exfalso. apply Hin, Hks. eauto.
Qed.

Lemma drain_restarts_due_keys_once_witness :
  let s :=
    set_last_data_hash (λ _, {[ ("test", "helloworld-config") := "abc" ]})
      (set_pending_restarts
         (λ _, [(("test", "helloworld-config"), seconds 160);
                (("prod", "helloworld-config"), seconds 170)])
         (Demo.engine 161 [Demo.deployment "helloworld" "test"] [])) in
  let r := _drain_pending_restarts Demo.selects (Demo.cfg 60) (seconds 161) s in
  ∃ l, trace (snd r) = trace s ++ l
       ∧ (∀ k, (restart_attempts k l ≤ 1)%nat)
       ∧ (∀ k, not_due (seconds 161) (ODict.get k (_pending_restarts s)) →
            untouched k s (snd r) l)
       ∧ (fst r = Ret tt →
          (∀ k d, ODict.get k (_pending_restarts s) = Some d → d ≤ seconds 161 →
             restart_attempts k l = 1%nat)
          ∧ ∀ k, not_due (seconds 161) (ODict.get k (_pending_restarts (snd r)))).
Proof.
  apply (drain_restarts_due_keys_once Demo.selects (Demo.cfg 60)).
  - unfold ODict.wf. simpl. apply NoDup_cons. split; [|apply NoDup_singleton].
    intros Hin. apply list_elem_of_singleton in Hin. discriminate.
  - apply surjective_pairing.
Defined.

(** Scenario 3 of the specification, its last step: at second 161 the key
    queued for second 160 is restarted, the one queued for 170 waits. *)
Example drain_fires_due_restart :
  let s :=
    set_last_data_hash (λ _, {[ ("test", "helloworld-config") := "abc" ]})
      (set_pending_restarts
         (λ _, [(("test", "helloworld-config"), seconds 160);
                (("prod", "helloworld-config"), seconds 170)])
         (Demo.engine 161 [Demo.deployment "helloworld" "test"] [])) in
  let '(r, s') := _drain_pending_restarts Demo.selects (Demo.cfg 60) (seconds 161) s in
  r = Ret tt
  ∧ _pending_restarts s' = [(("prod", "helloworld-config"), seconds 170)]
  ∧ List.filter is_any_attempt (trace s')
    = [RestartAttempt "test" "helloworld-config"]
  ∧ _last_restart s' !! ("test", "helloworld-config") = Some (seconds 161).
Proof. vm_compute. repeat split. Qed.

(** ** The list-then-watch loop *)

Section Run.
Variable selects : string → gmap string string → bool.
Variable json_dumps : gmap string string → string.
Variable cfg : Config.

Lemma access_denied_not_gone status :
  access_denied status = true → (status =? 410) = false.
Proof.
  unfold access_denied. intros [H|H]%orb_true_iff; apply Z.eqb_eq in H;
    subst; reflexivity.
Qed.

(** A pass of the watch loop that answers [false] has cleared the flag. *)
Lemma watch_round_false r s s1 :
  watch_round selects json_dumps cfg r s = (Ret false, s1) → ready s1 = false.
Proof.
  unfold watch_round, bind at 1.
  destruct (drain_now selects cfg s) as [[[]|e] s0]; [|discriminate].
  unfold try_with at 1, bind at 1.
  destruct (watch_stream selects json_dumps cfg r s0) as [[[]|e] s2].
  { unfold ret. discriminate. }
  destruct e as [status| |].
  - destruct (status =? 410).
    + unfold relist_after_410, try_with.
      destruct (relist r) as [fresh|e'].
      * unfold bind at 1, modify at 1. unfold bind at 1.
        destruct (_sync_cache_from_list selects json_dumps cfg fresh true _)
          as [[[]|e'] s3]; [unfold ret; discriminate|].
        destruct e' as [st| |]; [|unfold raise; discriminate..].
        destruct (access_denied st); unfold bind, modify, ret;
          [intros [= <-]; reflexivity | discriminate].
      * unfold raise.
        destruct e' as [st| |]; [|discriminate..].
        destruct (access_denied st); unfold bind, modify, ret;
          [intros [= <-]; reflexivity | discriminate].
    + destruct (access_denied status); unfold bind, sleep, modify, ret;
        [intros [= <-]; reflexivity | discriminate].
  - unfold bind, sleep, modify, ret. discriminate.
  - unfold bind, sleep, modify, ret. discriminate.
Qed.

Lemma watch_loop_ready rs : ∀ s s',
  watch_loop selects json_dumps cfg rs s = (Ret tt, s') → ready s' = false.
Proof.
  induction rs as [|r rs IH]; intros s s'.
  - cbn [watch_loop]. unfold shutdown, bind.
    destruct (_flush_pending_restarts_on_shutdown selects cfg s)
      as [[[]|e] s1]; [|discriminate].
    unfold modify. intros [= <-]. reflexivity.
  - cbn [watch_loop]. unfold bind at 1.
    destruct (watch_round selects json_dumps cfg r s) as [[[|]|e] s1] eqn:Hr;
      [apply IH | | discriminate].
    unfold ret. intros [= <-]. eapply watch_round_false, Hr.
Qed.

Lemma initial_list_returned a s s1 :
  initial_list selects json_dumps cfg a s = (Ret Returned, s1) →
  ready s1 = false.
Proof.
  unfold initial_list, try_with.
  assert (Hh : ∀ e s2,
            match e with
            | ApiException status =>
                if access_denied status
                then modify (set_ready (λ _ : bool, false));;; ret Returned
                else ret Retry
            | _ => ret Retry
            end s2 = (Ret Returned, s1) → ready s1 = false).
  { intros e s2. destruct e as [st| |]; [|unfold ret; discriminate..].
    destruct (access_denied st); unfold bind, modify, ret;
      [intros [= <-]; reflexivity | discriminate]. }
  destruct (initial a) as [listing|e]; [|apply Hh].
  unfold bind at 1, modify at 1. unfold bind at 1.
  destruct (_sync_cache_from_list selects json_dumps cfg listing false _)
    as [[[]|e] s2]; [|apply Hh].
  unfold bind at 1.
  destruct (_reconcile_startup_drift selects cfg listing s2)
    as [[[]|e] s3]; [|apply Hh].
  unfold bind, modify, ret. discriminate.
Qed.

Lemma startup_loop_false l : ∀ s s1,
  startup_loop selects json_dumps cfg l s = (Ret false, s1) →
  ready s1 = false.
Proof.
  induction l as [|a l IH]; intros s s1.
  - cbn [startup_loop]. unfold bind, modify, ret. intros [= <-]. reflexivity.
  - cbn [startup_loop]. unfold bind at 1.
    destruct (initial_list selects json_dumps cfg a s) as [[o|e] s2] eqn:Hi;
      [|discriminate].
    destruct o.
    + unfold ret. discriminate.
    + unfold ret. intros [= <-]. eapply initial_list_returned, Hi.
    + unfold bind at 1, sleep, modify. apply IH.
Qed.

End Run.

(** X5.  The watch raising 401 or 403, or raising 410 with the re-list then
    raising 401 or 403, ends [run_forever] there: the loop returns with the
    ready flag cleared and everything else as it was when the exception
    arrived.  The queue still holds its keys, no restart is tried for them,
    nothing is counted as dropped: the flush of the shutdown is not run. *)
Theorem watch_denied_returns_without_flush
    (selects : string → gmap string string → bool)
    (json_dumps : gmap string string → string) (cfg : Config)
    (r : WatchRound) (rest : list WatchRound) (status : Z)
    (s s0 s1 : State) :
  drain_now selects cfg s = (Ret tt, s0) →
  watch_stream selects json_dumps cfg r s0 = (Raise (ApiException status), s1) →
  access_denied status = true
  ∨ (status = 410
     ∧ ∃ st, relist r = Raise (ApiException st) ∧ access_denied st = true) →
  let final := set_ready (λ _, false) s1 in
  watch_loop selects json_dumps cfg (r :: rest) s = (Ret tt, final)
  ∧ ready final = false
  ∧ _pending_restarts final = _pending_restarts s1
  ∧ trace final = trace s1
  ∧ dropped_restarts_total final = dropped_restarts_total s1
  ∧ deployments final = deployments s1.
Proof.
  intros Hd Hw Hwhy final. split; [|repeat split].
  cbn [watch_loop]. unfold bind at 1, watch_round, bind at 1. rewrite Hd.
  unfold try_with at 1, bind at 1. rewrite Hw.
  destruct Hwhy as [Hden | (-> & st & Hre & Hden)].
  - rewrite (access_denied_not_gone status Hden), Hden.
    reflexivity.
  - cbn [Z.eqb Pos.eqb]. unfold relist_after_410, try_with. rewrite Hre.
    unfold raise. rewrite Hden. reflexivity.
Qed.

Lemma watch_denied_returns_without_flush_witness :
  let s :=
    set_ready (λ _, true)
      (set_pending_restarts (λ _, [(Demo.key, seconds 160)])
         (Demo.engine 105 [Demo.deployment "helloworld" "test"] [])) in
  let r := Round [] 0 (Some (ApiException 403)) (Raise OtherError) 0 in
  let s0 := snd (drain_now Demo.selects (Demo.cfg 60) s) in
  let s1 :=
    snd (watch_stream Demo.selects Demo.json_dumps (Demo.cfg 60) r s0) in
  let final := set_ready (λ _, false) s1 in
  watch_loop Demo.selects Demo.json_dumps (Demo.cfg 60) [r] s = (Ret tt, final)
  ∧ ready final = false
  ∧ _pending_restarts final = _pending_restarts s1
  ∧ trace final = trace s1
  ∧ dropped_restarts_total final = dropped_restarts_total s1
  ∧ deployments final = deployments s1.
Proof.
  intros s r s0 s1.
  apply (watch_denied_returns_without_flush Demo.selects Demo.json_dumps
           (Demo.cfg 60) r [] 403 s s0 s1).
  - vm_compute. reflexivity.
  - vm_compute. reflexivity.
  - left. reflexivity.
Defined.

(** The same queue at an ordinary shutdown is flushed, at an access denial
    it is left behind. *)
Example denied_leaves_queue_behind :
  let s :=
    set_ready (λ _, true)
      (set_last_data_hash (λ _, {[ Demo.key := "abc" ]})
         (set_pending_restarts (λ _, [(Demo.key, seconds 160)])
            (Demo.engine 105 [Demo.deployment "helloworld" "test"] []))) in
  let denied := Round [] 0 (Some (ApiException 401)) (Raise OtherError) 0 in
  let run rs := snd (watch_loop Demo.selects Demo.json_dumps (Demo.cfg 60) rs s) in
  (_pending_restarts (run [denied]) = [(Demo.key, seconds 160)]
   ∧ patched_names (trace (run [denied])) = []
   ∧ ready (run [denied]) = false)
  ∧ (_pending_restarts (run []) = []
     ∧ patched_names (trace (run [])) = ["helloworld"]
     ∧ ready (run []) = false).
Proof. vm_compute. repeat split. Qed.

(** X6.  Whenever [run_forever] returns, the ready flag is cleared, whatever
    the core API and the stop event did during the run. *)
Theorem run_forever_clears_ready
    (selects : string → gmap string string → bool)
    (json_dumps : gmap string string → string) (cfg : Config)
    (script : Script) (s s' : State) :
  run_forever selects json_dumps cfg script s = (Ret tt, s') →
  ready s' = false.
Proof.
  unfold run_forever, bind at 1, modify at 1. unfold bind at 1.
  destruct (startup_loop selects json_dumps cfg (attempts script) _)
    as [[[|]|e] s1] eqn:Hs; [| |discriminate].
  - cbn [negb]. destruct (stop_before_watch script).
    + unfold modify. intros [= <-]. reflexivity.
    + apply watch_loop_ready.
  - cbn [negb]. unfold ret. intros [= <-]. eapply startup_loop_false, Hs.
Qed.

Lemma run_forever_clears_ready_witness :
  let script :=
    MkScript
      [ Attempt (Raise (ApiException 500)) 1000000000;
        Attempt (Ret (ConfigMapList (Some "1") [Demo.configmap "test" "hello"])) 0 ]
      false
      [ Round [Event 5000000000 (Some (Demo.configmap "test" "world")) "MODIFIED"]
              0 None (Raise OtherError) 0 ] in
  let s := Demo.engine 100 [Demo.deployment "helloworld" "test"] [] in
  ready (snd (run_forever Demo.selects Demo.json_dumps (Demo.cfg 60) script s))
  = false.
Proof.
  intros script s.
  apply (run_forever_clears_ready Demo.selects Demo.json_dumps (Demo.cfg 60)
           script s).
  vm_compute. reflexivity.
Defined.

(** ** Events, the debounce window and the watch timeout *)

Section EventFacts.
Variable selects : string → gmap string string → bool.
Variable json_dumps : gmap string string → string.
Variable cfg : Config.

Lemma has_change_touches_only env name event_type cm :
  steps (touches_only (env, name))
        (_has_meaningful_data_change json_dumps env name event_type cm).
Proof. unfold _has_meaningful_data_change. steps_auto. Qed.

(** A positive rest of the window needs debouncing to be on and a restart
    of the key on record; it is the window's length at most. *)
Lemma debounce_remaining_pos env name now s :
  0 < _debounce_remaining cfg env name now s →
  0 < debounce_seconds cfg ∧ is_Some (_last_restart s !! (env, name)).
Proof.
  unfold _debounce_remaining.
  destruct (Z.leb_spec (debounce_seconds cfg) 0); [lia|].
  destruct (_last_restart s !! (env, name)); [eauto | lia].
Qed.

Lemma debounce_remaining_none env name now s :
  debounce_seconds cfg ≤ 0 ∨ _last_restart s !! (env, name) = None →
  _debounce_remaining cfg env name now s = 0.
Proof.
  unfold _debounce_remaining.
  destruct (Z.leb_spec (debounce_seconds cfg) 0) as [|Hpos]; [reflexivity|].
  intros [H|H]; [lia | now rewrite H].
Qed.

(** What [restart_or_defer] does past the debounce decision. *)
Lemma restart_or_defer_now (supersede : bool) (env name : string) (s : State) :
  _debounce_remaining cfg env name (monotonic s) s ≤ 0 →
  let k := (env, name) in
  let before :=
    if supersede
    then set_pending_retry_attempts (delete k)
           (set_pending_restarts (ODict.pop k) s)
    else s in
  restart_or_defer selects cfg supersede env name s
  = (let '(r, s') :=
       _restart_and_record selects cfg env name (monotonic s) false before
     in (match r with Ret x => Ret (Some x) | Raise e => Raise e end, s')).
Proof.
  intros Hrem k before. subst before. unfold restart_or_defer.
  unfold bind at 1, gets at 1. unfold bind at 1, gets at 1.
  apply Z.ltb_ge in Hrem. rewrite Hrem.
  destruct supersede; unfold bind, modify, ret;
    destruct (_restart_and_record _ _ _ _ _ _ _) as [[r|e] s']; reflexivity.
Qed.

Lemma min_of_values (dues : list Z) : ∀ due,
  let m := fold_left Z.min dues due in
  (m = due ∨ m ∈ dues) ∧ m ≤ due ∧ ∀ d, d ∈ dues → m ≤ d.
Proof.
  induction dues as [|x dues IH]; intros due; cbn [fold_left].
  - split; [now left|]. split; [lia|]. intros d Hd. inversion Hd.
  - destruct (IH (Z.min due x)) as (Hin & Hle & Hall). split; [|split].
    + destruct Hin as [->|Hin].
      * destruct (Z.min_spec due x) as [[_ ->]|[_ ->]];
          [now left | right; left].
      * right. now right.
    + lia.
    + intros d [->|Hd]%elem_of_cons; [lia | auto].
Qed.

End EventFacts.

#[local] Hint Resolve has_change_touches_only : steps.

(** X7.  An event concerns one key at most.  An event that is neither ADDED
    nor MODIFIED, or whose object fails the guard (no metadata, labels that
    do not satisfy the app selector, no or empty [env] label or name),
    changes nothing at all.  Any other event leaves every other key as it
    was (cached hash, deadline, retry counter, time of the last restart)
    and tries no restart for another key. *)
Theorem event_concerns_one_key
    (selects : string → gmap string string → bool)
    (json_dumps : gmap string string → string) (cfg : Config)
    (event_type : string) (cm : V1ConfigMap) (s : State) :
  let out := handle_configmap_event selects json_dumps cfg event_type cm s in
  match configmap_key cfg cm with
  | Some k =>
      if String.eqb event_type "ADDED" || String.eqb event_type "MODIFIED"
      then touches_only k s (snd out)
      else out = (Ret None, s)
  | None => out = (Ret None, s)
  end.
Proof.
  cbv zeta. unfold handle_configmap_event.
  destruct (configmap_key cfg cm) as [[env name]|];
    destruct (String.eqb event_type "ADDED" || String.eqb event_type "MODIFIED");
    cbn [negb]; try reflexivity.
  match goal with
  | |- touches_only _ s (snd (?m s)) =>
      assert (Hm : steps (touches_only (env, name)) m); [|apply Hm]
  end.
  steps_auto.
Qed.

(** An event for another key in between leaves a queued key alone. *)
Example event_of_another_key :
  let other := Demo.configmap "prod" "changed" in
  let s :=
    set_last_data_hash (λ _, {[ ("prod", "helloworld-config") := "abc" ]})
      (set_pending_restarts (λ _, [(Demo.key, seconds 160)])
         (Demo.engine 105 [Demo.deployment "helloworld-prod" "prod"] [])) in
  let s' :=
    snd (handle_configmap_event Demo.selects Demo.json_dumps (Demo.cfg 60)
           "MODIFIED" other s) in
  ODict.get Demo.key (_pending_restarts s') = Some (seconds 160)
  ∧ restart_attempts Demo.key (trace s') = 0%nat
  ∧ restart_attempts ("prod", "helloworld-config") (trace s') = 1%nat.
Proof. vm_compute. repeat split. Qed.

(** X8.  A deferred change only queues its key.  When the debounce
    decision defers a restart (the result is [None]), debouncing is on and
    the key has been restarted before; nothing is listed or patched; the
    times of the last restarts and the cached hashes stay; the key is in
    the queue afterwards, with a deadline that is not before the moment of
    the change and not before a deadline it already had; its retry counter
    is cleared; and the deadlines of the other keys stay. *)
Theorem deferred_change_only_queues
    (selects : string → gmap string string → bool) (cfg : Config)
    (supersede : bool) (env name : string) (s : State) :
  let k := (env, name) in
  let out := restart_or_defer selects cfg supersede env name s in
  fst out = Ret None →
  0 < debounce_seconds cfg
  ∧ is_Some (_last_restart s !! k)
  ∧ trace (snd out) = trace s
  ∧ deployments (snd out) = deployments s
  ∧ _last_restart (snd out) = _last_restart s
  ∧ _last_data_hash (snd out) = _last_data_hash s
  ∧ (∃ due, ODict.get k (_pending_restarts (snd out)) = Some due
            ∧ monotonic s ≤ due
            ∧ ∀ existing, ODict.get k (_pending_restarts s) = Some existing →
                          existing ≤ due)
  ∧ _pending_retry_attempts (snd out) !! k = None
  ∧ ∀ k', k' ≠ k →
      ODict.get k' (_pending_restarts (snd out))
      = ODict.get k' (_pending_restarts s).
Proof.
  intros k out Hnone. subst out k.
  destruct (Z.lt_ge_cases 0 (_debounce_remaining cfg env name (monotonic s) s))
    as [Hpos|Hle].
  - destruct (debounce_remaining_pos cfg env name (monotonic s) s Hpos)
      as [Hd Hl].
    rewrite (restart_or_defer_deferred selects cfg supersede env name s Hpos).
    cbn [fst snd]. split; [exact Hd|]. split; [exact Hl|].
    split; [apply schedule_pending_last_hash|].
    assert (Hsame : ∀ now delay,
              deployments (_schedule_pending_restart env name now delay true s)
              = deployments s
              ∧ _last_restart (_schedule_pending_restart env name now delay true s)
                = _last_restart s).
    { intros now delay. unfold _schedule_pending_restart.
      destruct (ODict.get _ _) as [e|]; [destruct (e <? _)|]; auto. }
    split; [apply Hsame|]. split; [apply Hsame|].
    split; [apply schedule_pending_last_hash|].
    split; [|split; [apply schedule_pending_retry|]].
    + rewrite schedule_pending_get. eexists. split; [reflexivity|].
      destruct (ODict.get (env, name) (_pending_restarts s)) as [e|].
      * split; [lia|]. intros existing [= <-]. lia.
      * split; [lia|]. intros existing [=].
    + intros k' Hk'. now apply schedule_pending_other.
  - exfalso.
    rewrite (restart_or_defer_now selects cfg supersede env name s Hle)
      in Hnone.
    destruct (_restart_and_record _ _ _ _ _ _ _) as [[r|e] s']; discriminate.
Qed.

Lemma deferred_change_only_queues_witness :
  let s :=
    set_last_restart (λ _, {[ Demo.key := seconds 100 ]})
      (Demo.engine 105 [Demo.deployment "helloworld" "test"] []) in
  let out :=
    restart_or_defer Demo.selects (Demo.cfg 60) true
      "test" "helloworld-config" s in
  0 < debounce_seconds (Demo.cfg 60)
  ∧ is_Some (_last_restart s !! Demo.key)
  ∧ trace (snd out) = trace s
  ∧ deployments (snd out) = deployments s
  ∧ _last_restart (snd out) = _last_restart s
  ∧ _last_data_hash (snd out) = _last_data_hash s
  ∧ (∃ due, ODict.get Demo.key (_pending_restarts (snd out)) = Some due
            ∧ monotonic s ≤ due
            ∧ ∀ existing,
                ODict.get Demo.key (_pending_restarts s) = Some existing →
                existing ≤ due)
  ∧ _pending_retry_attempts (snd out) !! Demo.key = None
  ∧ ∀ k', k' ≠ Demo.key →
      ODict.get k' (_pending_restarts (snd out))
      = ODict.get k' (_pending_restarts s).
Proof.
  intros s.
  apply (deferred_change_only_queues Demo.selects (Demo.cfg 60) true
           "test" "helloworld-config" s).
  vm_compute. reflexivity.
Defined.

(** X9.  A change for a key that was never restarted, or with debouncing
    off ([debounce_seconds <= 0]), is acted on at once: the debounce
    decision does not return [None], and the restart executor is called
    exactly once for the key, with the time of the decision; an event
    ([supersede]) first takes the key from the queue. *)
Theorem undebounced_change_restarts_now
    (selects : string → gmap string string → bool) (cfg : Config)
    (supersede : bool) (env name : string) (s : State) :
  debounce_seconds cfg ≤ 0 ∨ _last_restart s !! (env, name) = None →
  let k := (env, name) in
  let before :=
    if supersede
    then set_pending_retry_attempts (delete k)
           (set_pending_restarts (ODict.pop k) s)
    else s in
  let out := restart_or_defer selects cfg supersede env name s in
  fst out ≠ Ret None
  ∧ out = (let '(r, s') :=
             _restart_and_record selects cfg env name (monotonic s) false before
           in (match r with Ret x => Ret (Some x) | Raise e => Raise e end, s'))
  ∧ ∃ l, trace (snd out) = trace s ++ l ∧ restart_attempts k l = 1%nat.
Proof.
  intros Hout k before out.
  pose proof (debounce_remaining_none cfg env name (monotonic s) s Hout) as Hrem.
  assert (Hrun : out = (let '(r, s') :=
             _restart_and_record selects cfg env name (monotonic s) false before
           in (match r with Ret x => Ret (Some x) | Raise e => Raise e end, s'))).
  { subst out before. apply restart_or_defer_now. lia. }
  assert (Htr : trace before = trace s) by (subst before; now destruct supersede).
  destruct (_restart_and_record selects cfg env name (monotonic s) false before)
    as [r s'] eqn:Hr.
  apply restart_and_record_trace in Hr as (_ & l & E & A).
  rewrite Hrun. cbn [fst snd]. split; [now destruct r|].
  split; [reflexivity|]. exists l. now rewrite E, Htr.
Qed.

Lemma undebounced_change_restarts_now_witness :
  let s :=
    set_pending_restarts (λ _, [(Demo.key, seconds 170)])
      (Demo.engine 161 [Demo.deployment "helloworld" "test"] []) in
  let before :=
    set_pending_retry_attempts (delete Demo.key)
      (set_pending_restarts (ODict.pop Demo.key) s) in
  let out :=
    restart_or_defer Demo.selects (Demo.cfg 60) true
      "test" "helloworld-config" s in
  fst out ≠ Ret None
  ∧ out = (let '(r, s') :=
             _restart_and_record Demo.selects (Demo.cfg 60)
               "test" "helloworld-config" (monotonic s) false before
           in (match r with Ret x => Ret (Some x) | Raise e => Raise e end, s'))
  ∧ ∃ l, trace (snd out) = trace s ++ l
         ∧ restart_attempts Demo.key l = 1%nat.
Proof.
  intros s.
  apply (undebounced_change_restarts_now Demo.selects (Demo.cfg 60) true
           "test" "helloworld-config" s).
  right. reflexivity.
Defined.

(** X10.  The timeout asked of the watch is a whole number of seconds
    between 1 and 30; it is 30 while nothing is queued, and 1 as soon as a
    queued deadline has been reached. *)
Theorem watch_timeout_bounds (now : Z) (s : State) :
  let t := _next_watch_timeout_seconds now s in
  1 ≤ t ≤ 30
  ∧ (_pending_restarts s = [] → t = 30)
  ∧ ∀ due, due ∈ ODict.values (_pending_restarts s) → due ≤ now → t = 1.
Proof.
  cbv zeta. unfold _next_watch_timeout_seconds.
  destruct (_pending_restarts s) as [|[k0 d0] q] eqn:Hq.
  - cbn. split; [lia|]. split; [reflexivity|]. intros n Hn. inversion Hn.
  - change (ODict.values ((k0, d0) :: q)) with (d0 :: ODict.values q).
    set (dues := ODict.values q).
    destruct (min_of_values dues d0) as (_ & Hle & Hall).
    set (m := fold_left Z.min dues d0) in *.
    split; [lia|]. split; [discriminate|].
    intros due Hdue Hnow.
    assert (Hm : m ≤ now).
    { apply elem_of_cons in Hdue as [->|Hdue]; [lia|].
      specialize (Hall due Hdue). lia. }
    replace (Z.max (seconds 1) (m - now)) with (seconds 1)
      by (unfold seconds; lia).
    reflexivity.
Qed.

Example watch_timeout_examples :
  let queue l := set_pending_restarts (λ _, l) (Demo.engine 100 [] []) in
  map (λ l, _next_watch_timeout_seconds (seconds 100) (queue l))
      [ [];
        [(Demo.key, seconds 90)];
        [(Demo.key, seconds 100)];
        [(("prod", "a"), seconds 200); (Demo.key, seconds 107)];
        [(Demo.key, seconds 500)] ]
  = [30; 1; 1; 7; 30].
Proof. vm_compute. reflexivity. Qed.

(** ** The leader elector, one cycle and the loop *)

Section LeaderCycle.
Import Leader.

Lemma written_spec (r : res unit * cluster) :
  snd (written r) = snd r
  ∧ (fst (written r) = Ret true ↔ fst r = Ret tt).
Proof.
  destruct r as [[[]|[st| |]] c]; cbn; (split; [reflexivity|]);
    split; intros H; congruence.
Qed.

Lemma create_lease_spec self now f c :
  let out := _create_lease self now f c in
  (fst out = Ret true →
     c = None
     ∧ snd out = Some (Lease (Some (LeaseSpec (Some (identity self))
                                      (Some (self_lease_duration_seconds self))
                                      (Some now) (Some now)))))
  ∧ (fst out ≠ Ret true → snd out = c).
Proof.
  cbv zeta. unfold _create_lease.
  match goal with |- context [written ?r] =>
    destruct (written_spec r) as [Hs Hr]; rewrite Hs; rewrite Hr
  end.
  unfold create_namespaced_lease.
  destruct f as [e|]; [|destruct c]; cbn; split; intros H;
    try congruence; auto.
Qed.

Lemma update_lease_spec self l now f c :
  let out := _update_lease self l now f c in
  let acquire :=
    match spec l with
    | Some s =>
        match acquire_time s with
        | Some a =>
            if decide (holder_identity s = Some (identity self)) then a
            else now
        | None => now
        end
    | None => now
    end in
  (fst out = Ret true →
     snd out = Some (Lease (Some (LeaseSpec (Some (identity self))
                                    (Some (self_lease_duration_seconds self))
                                    (Some acquire) (Some now)))))
  ∧ (fst out ≠ Ret true → snd out = c)
  ∧ (f = None → is_Some c → fst out = Ret true).
Proof.
  cbv zeta. unfold _update_lease.
  match goal with |- context [written ?r] =>
    destruct (written_spec r) as [Hs Hr]; rewrite Hs; rewrite Hr
  end.
  unfold replace_namespaced_lease.
  destruct f as [e|]; [|destruct c]; cbn.
  - repeat split; intros; congruence.
  - split; [|split; [congruence | reflexivity]]. intros _.
    destruct (spec l) as [s|]; cbn; [|reflexivity].
    destruct (acquire_time s); [destruct (decide _)|]; reflexivity.
  - split; [congruence|]. split; [reflexivity|]. intros _ [? ?]. discriminate.
Qed.

End LeaderCycle.

(** X11.  A Lease that names no holder or another one, and was renewed less
    than its duration ago (the duration the Lease states or, if it states
    none, the replica's own), is never taken: whatever the API does, the
    cycle does not return [True] and leaves the Lease as it is.  The
    duration is one of at most 2^32 seconds in size: in that range the
    elapsed seconds the code compares, the float [total_seconds()] of an
    exact difference of microseconds, lie below the duration exactly when
    the microseconds do. *)
Theorem unexpired_lease_is_not_taken
    (self : Leader.LeaseLeaderElector) (now : Leader.instant)
    (f_read f_write : option exn) (s : Leader.V1LeaseSpec)
    (renew : Leader.instant) :
  let duration :=
    Leader.or_else (Leader.lease_duration_seconds s)
                   (Leader.self_lease_duration_seconds self) in
  Leader.holder_identity s ≠ Some (Leader.identity self) →
  Leader.renew_time s = Some renew →
  -4294967296 ≤ duration ≤ 4294967296 →
  now - renew < duration * 1000000 →
  let c := Some (Leader.Lease (Some s)) in
  let out := Leader._try_acquire_or_renew self now f_read f_write c in
  fst out ≠ Ret true ∧ snd out = c.
Proof.
  intros duration Hh Hr _ Hlt c out. subst out c duration.
  unfold Leader._try_acquire_or_renew, Leader.read_namespaced_lease.
  destruct f_read as [[st| |]|]; cbn [fst snd].
  - destruct (st =? 404); [|split; [discriminate | reflexivity]].
    destruct (create_lease_spec self now f_write
                (Some (Leader.Lease (Some s)))) as [Hok Hno].
    cbv zeta in Hok, Hno.
    assert (Hne : fst (Leader._create_lease self now f_write
                         (Some (Leader.Lease (Some s)))) ≠ Ret true).
    { intros H. now destruct (Hok H). }
    split; [exact Hne | exact (Hno Hne)].
  - split; [discriminate | reflexivity].
  - split; [discriminate | reflexivity].
  - cbn [Leader.spec]. destruct (decide _) as [Heq|_]; [contradiction|].
    rewrite Hr. apply Z.ltb_lt in Hlt. rewrite Hlt.
    split; [discriminate | reflexivity].
Qed.

(** The API answers, and the cycle comes to the test of the renewal time:
    the Lease of [pod-1], renewed at second 100 for 15 seconds, is left
    alone by [pod-2] one microsecond before second 115. *)
Lemma unexpired_lease_is_not_taken_witness :
  let pod2 := Leader.Elector "pod-2" 15 10 2 false in
  let s := Leader.LeaseSpec (Some "pod-1") (Some 15)
             (Some 90000000) (Some 100000000) in
  let c := Some (Leader.Lease (Some s)) in
  let out := Leader._try_acquire_or_renew pod2 114999999 None None c in
  fst out ≠ Ret true ∧ snd out = c.
Proof.
  intros pod2 s.
  apply (unexpired_lease_is_not_taken pod2 114999999 None None s 100000000).
  - discriminate.
  - reflexivity.
  - vm_compute. split; discriminate.
  - vm_compute. reflexivity.
Defined.

(** X12.  A cycle returns [True] only when it has written the Lease, and
    what it has written names the replica as holder, renewed at the instant
    of the cycle, with the replica's own duration; the time of acquisition
    is kept when the replica renews its own Lease and is the instant of the
    cycle otherwise.  A cycle that does not return [True] leaves the Lease
    as it is. *)
Theorem cycle_true_iff_lease_written
    (self : Leader.LeaseLeaderElector) (now : Leader.instant)
    (f_read f_write : option exn) (c : Leader.cluster) :
  let out := Leader._try_acquire_or_renew self now f_read f_write c in
  let acquire :=
    match c with
    | Some (Leader.Lease (Some s)) =>
        match Leader.acquire_time s with
        | Some a =>
            if decide (Leader.holder_identity s = Some (Leader.identity self))
            then a else now
        | None => now
        end
    | _ => now
    end in
  (fst out = Ret true →
   snd out
   = Some (Leader.Lease
             (Some (Leader.LeaseSpec (Some (Leader.identity self))
                      (Some (Leader.self_lease_duration_seconds self))
                      (Some acquire) (Some now)))))
  ∧ (fst out ≠ Ret true → snd out = c).
Proof.
  cbv zeta. unfold Leader._try_acquire_or_renew, Leader.read_namespaced_lease.
  pose proof (create_lease_spec self now f_write c) as Hc.
  cbv zeta in Hc.
  assert (Hu : ∀ l, c = Some l →
            (fst (Leader._update_lease self l now f_write c) = Ret true →
             snd (Leader._update_lease self l now f_write c)
             = Some (Leader.Lease
                       (Some (Leader.LeaseSpec (Some (Leader.identity self))
                                (Some (Leader.self_lease_duration_seconds self))
                                (Some match c with
                                      | Some (Leader.Lease (Some s)) =>
                                          match Leader.acquire_time s with
                                          | Some a =>
                                              if decide (Leader.holder_identity s
                                                         = Some (Leader.identity self))
                                              then a else now
                                          | None => now
                                          end
                                      | _ => now
                                      end) (Some now)))))
            ∧ (fst (Leader._update_lease self l now f_write c) ≠ Ret true →
               snd (Leader._update_lease self l now f_write c) = c)).
  { intros l ->. destruct (update_lease_spec self l now f_write (Some l))
      as (Hok & Hno & _). cbv zeta in Hok, Hno. split; [|exact Hno].
    intros H. rewrite (Hok H). now destruct l as [[s|]]. }
  assert (Hcreate :
            (fst (Leader._create_lease self now f_write c) = Ret true →
             snd (Leader._create_lease self now f_write c)
             = Some (Leader.Lease
                       (Some (Leader.LeaseSpec (Some (Leader.identity self))
                                (Some (Leader.self_lease_duration_seconds self))
                                (Some match c with
                                      | Some (Leader.Lease (Some s)) =>
                                          match Leader.acquire_time s with
                                          | Some a =>
                                              if decide (Leader.holder_identity s
                                                         = Some (Leader.identity self))
                                              then a else now
                                          | None => now
                                          end
                                      | _ => now
                                      end) (Some now)))))
            ∧ (fst (Leader._create_lease self now f_write c) ≠ Ret true →
               snd (Leader._create_lease self now f_write c) = c)).
  { destruct Hc as [Hok Hno]. split; [|exact Hno].
    intros H. destruct (Hok H) as [-> ->]. reflexivity. }
  assert (Hfalse : ∀ e,
            (fst (@Raise bool e, c) = Ret true → False)
            ∧ (fst (@Ret bool false, c) = Ret true → False))
    by (intros e; split; discriminate).
  destruct f_read as [[st| |]|].
  - destruct (st =? 404); [exact Hcreate|].
    split; [discriminate | reflexivity].
  - split; [discriminate | reflexivity].
  - split; [discriminate | reflexivity].
  - destruct c as [l|]; [|exact Hcreate].
    specialize (Hu l eq_refl).
    destruct (Leader.spec l) as [s|]; [|exact Hu].
    destruct (decide _); [exact Hu|].
    destruct (Leader.renew_time s) as [renew|]; [|exact Hu].
    destruct (_ <? _); [|exact Hu].
    split; [discriminate | reflexivity].
Qed.

(** X13.  With the API answering, a cycle acquires whenever nothing stands
    in its way: there is no Lease, or the Lease has no spec, is held by the
    replica itself, has no renewal time, or was last renewed at least its
    duration ago. *)
Theorem free_or_expired_lease_is_acquired
    (self : Leader.LeaseLeaderElector) (now : Leader.instant)
    (c : Leader.cluster) :
  match c with
  | None => True
  | Some l =>
      match Leader.spec l with
      | None => True
      | Some s =>
          Leader.holder_identity s = Some (Leader.identity self)
          ∨ Leader.renew_time s = None
          ∨ ∃ renew, Leader.renew_time s = Some renew
                     ∧ Leader.or_else (Leader.lease_duration_seconds s)
                         (Leader.self_lease_duration_seconds self) * 1000000
                       ≤ now - renew
      end
  end →
  fst (Leader._try_acquire_or_renew self now None None c) = Ret true.
Proof.
  intros Hfree.
  unfold Leader._try_acquire_or_renew, Leader.read_namespaced_lease.
  destruct c as [l|]; [|reflexivity].
  assert (Hu : fst (Leader._update_lease self l now None (Some l)) = Ret true).
  { apply (update_lease_spec self l now None (Some l)); eauto. }
  destruct (Leader.spec l) as [s|]; [|exact Hu].
  destruct (decide _) as [|Hne]; [exact Hu|].
  destruct Hfree as [H|[H|(renew & H & Hexp)]];
    [contradiction | now rewrite H |].
  rewrite H. apply Z.ltb_ge in Hexp. now rewrite Hexp.
Qed.

Lemma free_or_expired_lease_is_acquired_witness :
  fst (Leader._try_acquire_or_renew (Leader.Elector "pod-2" 15 10 2 false)
         115000000 None None
         (Some (Leader.Lease (Some (Leader.LeaseSpec (Some "pod-1") None
                                      (Some 90000000) (Some 100000000))))))
  = Ret true.
Proof.
  apply (free_or_expired_lease_is_acquired
           (Leader.Elector "pod-2" 15 10 2 false) 115000000
           (Some (Leader.Lease (Some (Leader.LeaseSpec (Some "pod-1") None
                                        (Some 90000000) (Some 100000000)))))).
  right. right. exists 100000000. split; [reflexivity|].
  vm_compute. discriminate.
Defined.

(** X14.  The release never raises and touches nothing but the replica's
    own hold: either the Lease is left as it is, or the replica was its
    holder, both API calls went through, and the Lease now has no holder
    and its duration and times as before.  It is left as it is whenever it
    names another holder. *)
Theorem release_clears_own_hold_only
    (self : Leader.LeaseLeaderElector) (f_read f_write : option exn)
    (c : Leader.cluster) :
  let c' := Leader._release_lease self f_read f_write c in
  (c' = c
   ∨ ∃ s, c = Some (Leader.Lease (Some s))
          ∧ Leader.holder_identity s = Some (Leader.identity self)
          ∧ f_read = None ∧ f_write = None
          ∧ c' = Some (Leader.Lease
                         (Some (Leader.LeaseSpec None
                                  (Leader.lease_duration_seconds s)
                                  (Leader.acquire_time s)
                                  (Leader.renew_time s)))))
  ∧ (∀ s, c = Some (Leader.Lease (Some s)) →
          Leader.holder_identity s = Some (Leader.identity self) →
          f_read = None → f_write = None → c' ≠ c).
Proof.
  cbv zeta. unfold Leader._release_lease, Leader.read_namespaced_lease. split.
  - destruct f_read as [e|]; [now left|].
    destruct c as [[[s|]]|]; cbn [Leader.spec]; [|now left..].
    destruct (decide _) as [Hh|]; [|now left].
    destruct f_write as [e|]; cbn; [now left|].
    right. exists s. auto.
  - intros s -> Hh -> ->. cbn. rewrite decide_True by exact Hh. cbn.
    intros [= H]. destruct s. cbn in *. congruence.
Qed.

Section LeaderRun.
Import Leader.

Lemma started_stopped_snoc n :
  started_stopped n ++ [StartedLeading; StoppedLeading]
  = started_stopped (S n).
Proof.
  induction n as [|n IH]; [reflexivity|].
  cbn [started_stopped app] in *. now rewrite IH.
Qed.

Lemma run_cycle_spells cy st : spells st → spells (run_cycle cy st).
Proof.
  intros (n & Hc). unfold run_cycle.
  destruct (_try_acquire_or_renew _ _ _ _ _) as [r c'].
  destruct (_is_leader (elector st)) eqn:Hl;
    destruct (match r with Ret b => b | Raise _ => false end);
    cbn [andb negb].
  - exists n. cbn. now rewrite Hl.
  - destruct (_ <? _).
    + exists n. cbn. now rewrite Hl.
    + exists (S n). cbn [calls elector set_is_leader _is_leader].
      rewrite Hc, <- app_assoc, app_nil_r. apply started_stopped_snoc.
  - exists n. cbn [calls elector set_is_leader _is_leader].
    rewrite Hc, app_nil_r. reflexivity.
  - exists n. cbn. now rewrite Hl.
Qed.

Lemma run_loop_spells cycles : ∀ st,
  spells st → spells (fold_left (λ st cy, run_cycle cy st) cycles st).
Proof.
  induction cycles as [|cy cycles IH]; intros st H; [exact H|].
  cbn [fold_left]. apply IH, run_cycle_spells, H.
Qed.

End LeaderRun.

(** X15.  The callbacks of [run] come in pairs.  For a replica that starts
    as a follower, whatever the API, the clocks and the other replicas do:
    when [run] returns the replica does not lead, and [on_started_leading]
    and [on_stopped_leading] have been called in turn, starting with the
    first and ending with the second. *)
Theorem run_callbacks_come_in_pairs
    (self : Leader.LeaseLeaderElector) (started : Z)
    (cycles : list Leader.Cycle) (f_read f_write : option exn)
    (c : Leader.cluster) :
  Leader._is_leader self = false →
  let st := Leader.run self started cycles f_read f_write c in
  Leader._is_leader (Leader.elector st) = false
  ∧ ∃ n, Leader.calls st = started_stopped n.
Proof.
  intros Hf st. subst st. unfold Leader.run.
  set (st := fold_left _ cycles _).
  assert (Hsp : spells st).
  { apply run_loop_spells. exists 0%nat. cbn. now rewrite Hf. }
  destruct Hsp as (n & Hc). unfold Leader.run_shutdown.
  destruct (Leader._is_leader (Leader.elector st)) eqn:Hl; cbn.
  - split; [reflexivity|]. exists (S n).
    rewrite Hc, <- app_assoc. apply started_stopped_snoc.
  - split; [exact Hl|]. exists n. now rewrite Hc, !app_nil_r.
Qed.

Lemma run_callbacks_come_in_pairs_witness :
  let pod1 := Leader.Elector "pod-1" 15 10 2 false in
  let cycles :=
    [ Leader.MkCycle 100000000 None None 1000000000 None;
      Leader.MkCycle 102000000 (Some (ApiException 500)) None 3000000000 None;
      Leader.MkCycle 113000000 (Some (ApiException 500)) None 14000000000 None;
      Leader.MkCycle 130000000 None None 31000000000
        (Some (Some (Leader.Lease (Some (Leader.LeaseSpec (Some "pod-2")
                                           (Some 15) (Some 116000000)
                                           (Some 116000000))))));
      Leader.MkCycle 132000000 None None 33000000000 None ] in
  let st := Leader.run pod1 0 cycles None None None in
  Leader._is_leader (Leader.elector st) = false
  ∧ ∃ n, Leader.calls st = started_stopped n.
Proof.
  intros pod1 cycles.
  apply (run_callbacks_come_in_pairs pod1 0 cycles None None None).
  reflexivity.
Defined.

(** The run of the witness: a spell of leadership lost to failed renewals,
    a take-over by another replica, and a second spell once its Lease has
    run out, ended by the shutdown. *)
Example run_two_spells :
  let pod1 := Leader.Elector "pod-1" 15 10 2 false in
  let cycles :=
    [ Leader.MkCycle 100000000 None None 1000000000 None;
      Leader.MkCycle 102000000 (Some (ApiException 500)) None 3000000000 None;
      Leader.MkCycle 113000000 (Some (ApiException 500)) None 14000000000 None;
      Leader.MkCycle 130000000 None None 31000000000
        (Some (Some (Leader.Lease (Some (Leader.LeaseSpec (Some "pod-2")
                                           (Some 15) (Some 116000000)
                                           (Some 116000000))))));
      Leader.MkCycle 132000000 None None 33000000000 None ] in
  let st := Leader.run pod1 0 cycles None None None in
  Leader.calls st = started_stopped 2
  ∧ Leader.lease st
    = Some (Leader.Lease (Some (Leader.LeaseSpec None (Some 15)
                                  (Some 132000000) (Some 132000000)))).
Proof. vm_compute. split; reflexivity. Qed.

(** ** The initial list: seeding the cache and the drift check *)

Section Startup.
Variable selects : string → gmap string string → bool.
Variable json_dumps : gmap string string → string.
Variable cfg : Config.

Lemma sync_one_seed cm s :
  sync_one selects json_dumps cfg false cm s
  = (Ret tt,
     match configmap_key cfg cm with
     | Some k =>
         set_last_data_hash (<[ k := current_hash_of json_dumps cm ]>) s
     | None => s
     end).
Proof.
  unfold sync_one. destruct (configmap_key cfg cm) as [[env name]|];
    reflexivity.
Qed.

Lemma set_last_data_hash_const m s :
  _last_data_hash s = m → set_last_data_hash (λ _, m) s = s.
Proof. intros <-. now destruct s. Qed.

Lemma sync_seed_spec items : ∀ s,
  ∃ m',
    for_each items (sync_one selects json_dumps cfg false) s
    = (Ret tt, set_last_data_hash (λ _, m') s)
    ∧ (∀ k, k ∉ omap (configmap_key cfg) items →
         m' !! k = _last_data_hash s !! k)
    ∧ (∀ cm k, cm ∈ items → configmap_key cfg cm = Some k →
         ∃ cm', cm' ∈ items ∧ configmap_key cfg cm' = Some k
                ∧ m' !! k = Some (current_hash_of json_dumps cm'))
    ∧ (NoDup (omap (configmap_key cfg) items) →
       ∀ cm k, cm ∈ items → configmap_key cfg cm = Some k →
         m' !! k = Some (current_hash_of json_dumps cm)).
Proof.
  induction items as [|cm items IH]; intros s.
  - exists (_last_data_hash s). cbn [for_each]. unfold ret.
    rewrite set_last_data_hash_const by reflexivity.
    split; [reflexivity|]. split; [reflexivity|].
    split; [|intros _]; intros cm k Hin; now apply elem_of_nil in Hin.
  - cbn [for_each]. unfold bind at 1. rewrite sync_one_seed.
    set (s1 := match configmap_key cfg cm with
               | Some k => set_last_data_hash
                             (<[ k := current_hash_of json_dumps cm ]>) s
               | None => s
               end).
    destruct (IH s1) as (m' & E & Hout & Hin & Hnd).
    assert (Hs1 : set_last_data_hash (λ _, m') s1
                  = set_last_data_hash (λ _, m') s).
    { subst s1. now destruct (configmap_key cfg cm). }
    assert (Hhead : ∀ k, configmap_key cfg cm = Some k →
              k ∉ omap (configmap_key cfg) items →
              m' !! k = Some (current_hash_of json_dumps cm)).
    { intros k Hk Hno. rewrite (Hout k Hno). subst s1. rewrite Hk. cbn.
      apply lookup_insert_eq. }
    exists m'. split; [rewrite E, Hs1; reflexivity|].
    rewrite omap_cons. split; [|split].
    + intros k Hk. destruct (configmap_key cfg cm) as [k0|] eqn:Hk0.
      * apply not_elem_of_cons in Hk as [Hne Hk].
        rewrite (Hout k Hk). subst s1. cbn. now apply lookup_insert_ne.
      * now rewrite (Hout k Hk).
    + intros cm0 k Hcm0 Hk.
      destruct (decide (k ∈ omap (configmap_key cfg) items)) as [Hk'|Hk'].
      * apply list_elem_of_omap in Hk' as (cm1 & Hcm1 & Hk1).
        destruct (Hin cm1 k Hcm1 Hk1) as (cm' & ? & ? & ?).
        exists cm'. split; [now right | auto].
      * apply elem_of_cons in Hcm0 as [->|Hcm0].
        -- exists cm. split; [now left|]. split; [exact Hk | now apply Hhead].
        -- exfalso. apply Hk', list_elem_of_omap. eauto.
    + intros Hdup cm0 k Hcm0 Hk.
      apply elem_of_cons in Hcm0 as [->|Hcm0].
      * rewrite Hk in Hdup. apply NoDup_cons in Hdup as [Hno _].
        now apply Hhead.
      * apply Hnd; [|exact Hcm0 | exact Hk].
        destruct (configmap_key cfg cm); [now apply NoDup_cons in Hdup|exact Hdup].
Qed.

(** One listed ConfigMap of the drift check, nothing being stale for it. *)
Lemma reconcile_one_quiet cm s out s' :
  up_to_date selects cfg (_last_data_hash s) (deployments s) cm →
  reconcile_one selects cfg cm s = (out, s') →
  ∃ l, s' = set_monotonic (λ _, monotonic s')
              (set_replies (λ _, replies s') (set_trace (λ t, t ++ l) s))
       ∧ Forall is_list_call l.
Proof.
  intros Hup. unfold reconcile_one.
  assert (Hid : ∀ s0 : State,
            s0 = set_monotonic (λ _, monotonic s0)
                   (set_replies (λ _, replies s0)
                      (set_trace (λ t, t ++ []) s0))).
  { intros s0. destruct s0. unfold set_monotonic, set_replies, set_trace.
    cbn. now rewrite app_nil_r. }
  destruct (configmap_key cfg cm) as [[env name]|] eqn:Hk;
    [|intros [= <- <-]; exists []; split; [apply Hid | constructor]].
  unfold bind at 1, gets at 1.
  destruct (_last_data_hash s !! (env, name)) as [h|] eqn:Hh;
    [|intros [= <- <-]; exists []; split; [apply Hid | constructor]].
  set (sel := _deployment_selector_for_env cfg env).
  set (hk := _config_hash_annotation_key (rollout_annotation_key cfg) name).
  assert (Hfresh : existsb (stale cfg hk h)
                     (List.filter (λ d, selects sel (dep_labels d))
                                  (deployments s)) = false).
  { apply not_true_is_false. intros Hex.
    apply existsb_exists in Hex as (d & Hd & Hst).
    apply List.filter_In in Hd as [Hd Hsel].
    apply list_elem_of_In in Hd.
    pose proof (Hup env name h d Hk Hh Hd Hsel) as Hnot. fold hk in Hnot.
    rewrite Hnot in Hst. discriminate. }
  assert (Hl : ∀ f, Forall is_list_call [ListDeployments sel f]).
  { intros f. repeat constructor. eexists _, _. reflexivity. }
  unfold bind, try_with, list_namespaced_deployment, bind, next_reply,
    log_call, modify, gets, raise, ret, on_api_exception.
  destruct (replies s) as [|[f lat] rs] eqn:Hr; cbn.
  - rewrite Hfresh. cbn. intros [= <- <-].
    exists [ListDeployments sel None]. split; [|apply Hl].
    destruct s; unfold set_monotonic, set_replies, set_trace; cbn in *.
    now subst.
  - destruct f as [[st| |]|]; cbn; try rewrite Hfresh; cbn;
      intros [= <- <-]; eexists [ListDeployments sel _];
      (split; [reflexivity | apply Hl]).
Qed.

Lemma reconcile_quiet items : ∀ s out s',
  (∀ cm, cm ∈ items →
     up_to_date selects cfg (_last_data_hash s) (deployments s) cm) →
  for_each items (reconcile_one selects cfg) s = (out, s') →
  ∃ l, s' = set_monotonic (λ _, monotonic s')
              (set_replies (λ _, replies s') (set_trace (λ t, t ++ l) s))
       ∧ Forall is_list_call l.
Proof.
  induction items as [|cm items IH]; intros s out s' Hup.
  - cbn. unfold ret. intros [= <- <-]. exists []. split; [|constructor].
    destruct s. unfold set_monotonic, set_replies, set_trace. cbn.
    now rewrite app_nil_r.
  - cbn [for_each]. unfold bind at 1.
    destruct (reconcile_one selects cfg cm s) as [[[]|e] s1] eqn:E1;
      apply reconcile_one_quiet in E1 as (l1 & E1 & F1);
      try (apply Hup; now left).
    + intros Hrest.
      destruct (IH s1 out s') as (l2 & E2 & F2); [|exact Hrest|].
      { intros cm' Hcm'. rewrite E1. cbn. apply Hup. now right. }
      exists (l1 ++ l2). split; [|now apply Forall_app].
      rewrite E2 at 1. rewrite E1 at 1.
      unfold set_monotonic, set_replies, set_trace. cbn.
      now rewrite app_assoc.
    + intros [= <- <-]. exists l1. split; [exact E1 | exact F1].
Qed.

End Startup.

(** X16.  The cache sync of the initial list ([restart_on_change=False])
    changes nothing but the cache of hashes and never raises: no Deployment
    is listed or patched, nothing is queued.  Afterwards every key of the
    listing has the hash of a listed object with that key cached, the hash
    of the object itself when the keys of the listing are distinct, and
    the keys that are not in the listing have what they had. *)
Theorem startup_sync_only_seeds_cache
    (selects : string → gmap string string → bool)
    (json_dumps : gmap string string → string) (cfg : Config)
    (listing : V1ConfigMapList) (s : State) :
  let keys := omap (configmap_key cfg) (list_items listing) in
  ∃ s',
    _sync_cache_from_list selects json_dumps cfg listing false s = (Ret tt, s')
    ∧ s' = set_last_data_hash (λ _, _last_data_hash s') s
    ∧ (∀ k, k ∉ keys → _last_data_hash s' !! k = _last_data_hash s !! k)
    ∧ (∀ cm k, cm ∈ list_items listing → configmap_key cfg cm = Some k →
         ∃ cm', cm' ∈ list_items listing ∧ configmap_key cfg cm' = Some k
                ∧ _last_data_hash s' !! k
                  = Some (current_hash_of json_dumps cm'))
    ∧ (NoDup keys →
       ∀ cm k, cm ∈ list_items listing → configmap_key cfg cm = Some k →
         _last_data_hash s' !! k = Some (current_hash_of json_dumps cm)).
Proof.
  cbv zeta. unfold _sync_cache_from_list.
  destruct (sync_seed_spec selects json_dumps cfg (list_items listing) s)
    as (m' & E & Hout & Hin & Hnd).
  exists (set_last_data_hash (λ _, m') s). split; [exact E|].
  split; [reflexivity|]. split; [exact Hout|]. split; [exact Hin | exact Hnd].
Qed.

(** Two objects with one key: the later one is cached. *)
Example startup_sync_later_object_wins :
  let listing :=
    ConfigMapList (Some "7")
      [Demo.configmap "test" "hello"; Demo.configmap "test" "world"] in
  let s := Demo.engine 100 [Demo.deployment "helloworld" "test"] [] in
  let s' :=
    snd (_sync_cache_from_list Demo.selects Demo.json_dumps (Demo.cfg 5)
           listing false s) in
  _last_data_hash s' !! Demo.key
  = Some (current_hash_of Demo.json_dumps (Demo.configmap "test" "world"))
  ∧ trace s' = [] ∧ _pending_restarts s' = [].
Proof. vm_compute. repeat split. Qed.

(** X17.  The drift check at startup restarts nothing when nothing is
    stale.  A Deployment is up to date for a listed ConfigMap when its pod
    template carries the cached hash under the ConfigMap's hash annotation,
    or carries neither that annotation nor the rollout annotation.  If that
    holds of every Deployment matched for every listed ConfigMap, then,
    whatever the API answers, the check only lists Deployments: it tries no
    restart, patches nothing, and leaves the engine's bookkeeping and the
    Deployments as they are. *)
Theorem startup_check_restarts_nothing_when_up_to_date
    (selects : string → gmap string string → bool) (cfg : Config)
    (listing : V1ConfigMapList) (s : State) :
  (∀ cm, cm ∈ list_items listing →
     up_to_date selects cfg (_last_data_hash s) (deployments s) cm) →
  let s' := snd (_reconcile_startup_drift selects cfg listing s) in
  same_engine s s'
  ∧ deployments s' = deployments s
  ∧ ∃ l, trace s' = trace s ++ l
         ∧ Forall is_list_call l
         ∧ patch_calls l = []
         ∧ ∀ k, restart_attempts k l = 0%nat.
Proof.
  intros Hup s'. subst s'. unfold _reconcile_startup_drift.
  destruct (for_each (list_items listing) (reconcile_one selects cfg) s)
    as [out s'] eqn:Hrun.
  destruct (reconcile_quiet selects cfg (list_items listing) s out s' Hup Hrun)
    as (l & E & F).
  cbn [snd]. rewrite E. split; [repeat split|]. split; [reflexivity|].
  exists l. split; [reflexivity|]. split; [exact F|].
  clear E. induction F as [|ev l0 (sel & f & ->) F IH]; [auto|].
  destruct IH as [IH1 IH2]. split; [exact IH1|].
  intros k. apply (IH2 k).
Qed.

Lemma startup_check_restarts_nothing_when_up_to_date_witness :
  let fresh := Demo.deployment "helloworld" "test" in
  let listing := ConfigMapList (Some "7") [Demo.configmap "test" "hello"] in
  let s :=
    set_last_data_hash
      (λ _, {[ Demo.key
               := current_hash_of Demo.json_dumps (Demo.configmap "test" "hello") ]})
      (Demo.engine 100 [fresh] []) in
  let s' := snd (_reconcile_startup_drift Demo.selects (Demo.cfg 5) listing s) in
  same_engine s s'
  ∧ deployments s' = deployments s
  ∧ ∃ l, trace s' = trace s ++ l
         ∧ Forall is_list_call l
         ∧ patch_calls l = []
         ∧ ∀ k, restart_attempts k l = 0%nat.
Proof.
  intros fresh listing s.
  apply (startup_check_restarts_nothing_when_up_to_date Demo.selects
           (Demo.cfg 5) listing s).
  intros cm Hcm env name h d Hk Hh Hd Hsel.
  apply list_elem_of_singleton in Hcm. subst cm.
  apply list_elem_of_singleton in Hd. subst d.
  vm_compute in Hk. injection Hk as <- <-. reflexivity.
Defined.

Section StartupDrift.
Variable selects : string → gmap string string → bool.
Variable cfg : Config.

Lemma list_deployments_touches_only k sel :
  steps (touches_only k) (list_namespaced_deployment selects sel).
Proof.
  intros s. apply quiet_touches_only.
  - apply list_deployments_same_engine.
  - apply list_deployments_no_attempt.
Qed.

Hint Resolve list_deployments_touches_only : steps.

Lemma reconcile_one_trace cm s :
  ∃ l, trace (snd (reconcile_one selects cfg cm s)) = trace s ++ l.
Proof.
  unfold reconcile_one.
  destruct (configmap_key cfg cm) as [[env name]|];
    [|exists []; cbn; now rewrite app_nil_r].
  match goal with
  | |- ∃ l, trace (snd (?m s)) = _ =>
      assert (Hm : steps (touches_only (env, name)) m)
  end.
  { steps_auto. }
  destruct (Hm s) as (_ & l & E & _). eauto.
Qed.

Lemma reconcile_loop_trace items : ∀ s,
  ∃ l, trace (snd (for_each items (reconcile_one selects cfg) s))
       = trace s ++ l.
Proof.
  induction items as [|cm items IH]; intros s.
  - exists []. cbn. now rewrite app_nil_r.
  - cbn [for_each]. unfold bind.
    destruct (reconcile_one_trace cm s) as (l1 & E1).
    destruct (reconcile_one selects cfg cm s) as [[[]|e] s1]; cbn [snd] in *.
    + destruct (IH s1) as (l2 & E2). exists (l1 ++ l2).
      now rewrite E2, E1, app_assoc.
    + eauto.
Qed.

Lemma reconcile_one_stale cm s env name h d :
  configmap_key cfg cm = Some (env, name) →
  _last_data_hash s !! (env, name) = Some h →
  next_fault s = None →
  d ∈ deployments s →
  selects (_deployment_selector_for_env cfg env) (dep_labels d) = true →
  stale cfg (_config_hash_annotation_key (rollout_annotation_key cfg) name)
        h d = true →
  ∃ l, trace (snd (reconcile_one selects cfg cm s))
       = trace s ++ ListDeployments (_deployment_selector_for_env cfg env) None
                    :: l
       ∧ restart_attempts (env, name) l = 1%nat.
Proof.
  intros Hk Hh Hn Hd Hsel Hst. unfold reconcile_one. rewrite Hk.
  unfold bind at 1, gets at 1. rewrite Hh.
  set (sel := _deployment_selector_for_env cfg env) in *.
  set (hk := _config_hash_annotation_key (rollout_annotation_key cfg) name) in *.
  assert (Hex : existsb (stale cfg hk h)
                  (List.filter (λ d, selects sel (dep_labels d))
                               (deployments s)) = true).
  { apply existsb_exists. exists d. split; [|exact Hst].
    apply List.filter_In. split; [now apply list_elem_of_In | exact Hsel]. }
  assert (Hgo : ∀ s2 : State,
            trace s2 = trace s ++ [ListDeployments sel None] →
            ∃ l, trace (snd ((let! now := gets monotonic in
                              _restart_and_record selects cfg env name now false;;;
                              ret tt) s2))
                 = trace s ++ ListDeployments sel None :: l
                 ∧ restart_attempts (env, name) l = 1%nat).
  { intros s2 Ht. unfold bind at 1, gets at 1. unfold bind.
    destruct (_restart_and_record selects cfg env name (monotonic s2) false s2)
      as [[r|e] s3] eqn:Hrr;
      apply restart_and_record_trace in Hrr as (_ & l & E & A);
      exists l; cbn [snd ret]; rewrite E, Ht, <- app_assoc; auto. }
  unfold next_fault in Hn.
  unfold bind at 1, try_with, list_namespaced_deployment, bind at 1 2 3,
    next_reply, log_call, modify, gets at 1, ret at 1.
  destruct (replies s) as [|[f lat] rs] eqn:Hr; cbn [fst snd reply_fault] in *.
  - cbn [set_trace deployments]. rewrite Hex. apply Hgo. reflexivity.
  - subst f. cbn [reply_fault reply_latency]. unfold gets at 1, ret at 1.
    cbn [set_trace set_monotonic set_replies deployments]. rewrite Hex.
    apply Hgo. reflexivity.
Qed.

End StartupDrift.

(** X18.  The drift check at startup restarts a stale key.  When the first
    listed ConfigMap passes the guard and has a cached hash, the
    Deployments are listed, and one that its selector matches is stale (its
    pod template has another hash under the hash annotation, or no hash and
    the rollout annotation), then the Deployments are listed for the key
    and the restart executor is called for it. *)
Theorem startup_check_restarts_stale_key
    (selects : string → gmap string string → bool) (cfg : Config)
    (rv : option string) (cm : V1ConfigMap) (rest : list V1ConfigMap)
    (s : State) (env name h : string) (d : V1Deployment) :
  configmap_key cfg cm = Some (env, name) →
  _last_data_hash s !! (env, name) = Some h →
  next_fault s = None →
  d ∈ deployments s →
  selects (_deployment_selector_for_env cfg env) (dep_labels d) = true →
  stale cfg (_config_hash_annotation_key (rollout_annotation_key cfg) name)
        h d = true →
  let s' :=
    snd (_reconcile_startup_drift selects cfg (ConfigMapList rv (cm :: rest)) s) in
  ∃ l, trace s'
       = trace s ++ ListDeployments (_deployment_selector_for_env cfg env) None
                    :: l
       ∧ (1 ≤ restart_attempts (env, name) l)%nat.
Proof.
  intros Hk Hh Hn Hd Hsel Hst s'. subst s'.
  unfold _reconcile_startup_drift. cbn [list_items for_each]. unfold bind.
  destruct (reconcile_one_stale selects cfg cm s env name h d
              Hk Hh Hn Hd Hsel Hst) as (l1 & E1 & A1).
  destruct (reconcile_one selects cfg cm s) as [[[]|e] s1]; cbn [snd] in *.
  - destruct (reconcile_loop_trace selects cfg rest s1) as (l2 & E2).
    exists (l1 ++ l2). rewrite E2, E1, <- app_assoc. split; [reflexivity|].
    rewrite restart_attempts_app. lia.
  - exists l1. split; [exact E1 | lia].
Qed.

Lemma startup_check_restarts_stale_key_witness :
  let old :=
    Deployment (Some "helloworld") (Demo.labels "test")
      (Some {[ "shipshape.io/config-hash-helloworld-config" := "0000" ]}) in
  let cm := Demo.configmap "test" "hello" in
  let s :=
    set_last_data_hash
      (λ _, {[ Demo.key := current_hash_of Demo.json_dumps cm ]})
      (Demo.engine 100 [old] []) in
  let s' :=
    snd (_reconcile_startup_drift Demo.selects (Demo.cfg 5)
           (ConfigMapList (Some "7") [cm]) s) in
  ∃ l, trace s'
       = trace s
         ++ ListDeployments
              (_deployment_selector_for_env (Demo.cfg 5) "test") None :: l
       ∧ (1 ≤ restart_attempts ("test", "helloworld-config") l)%nat.
Proof.
  intros old cm s.
  apply (startup_check_restarts_stale_key Demo.selects (Demo.cfg 5)
           (Some "7") cm [] s "test" "helloworld-config"
           (current_hash_of Demo.json_dumps cm) old).
  - vm_compute. reflexivity.
  - vm_compute. reflexivity.
  - reflexivity.
  - apply list_elem_of_singleton. reflexivity.
  - vm_compute. reflexivity.
  - vm_compute. reflexivity.
Defined.

(** The restart of the witness writes the hash, and a second check finds
    nothing stale. *)
Example startup_check_converges :
  let old :=
    Deployment (Some "helloworld") (Demo.labels "test")
      (Some {[ "shipshape.io/config-hash-helloworld-config" := "0000" ]}) in
  let cm := Demo.configmap "test" "hello" in
  let listing := ConfigMapList (Some "7") [cm] in
  let s :=
    set_last_data_hash
      (λ _, {[ Demo.key := current_hash_of Demo.json_dumps cm ]})
      (Demo.engine 100 [old] []) in
  let s1 := snd (_reconcile_startup_drift Demo.selects (Demo.cfg 5) listing s) in
  let s2 := snd (_reconcile_startup_drift Demo.selects (Demo.cfg 5) listing s1) in
  patched_names (trace s1) = ["helloworld"]
  ∧ restart_attempts Demo.key (trace s2) = 1%nat
  ∧ deployments s2 = deployments s1.
Proof. vm_compute. repeat split. Qed.
